(** * The remote status indicator of the workbench

    A shallow embedding of
    [src/vs/workbench/contrib/remote/browser/remoteIndicator.ts]: the class
    [RemoteStatusIndicator], its connection state, its cache of menu
    contributions, the decision of what the status bar entry shows and the
    list of entries of the remote menu.

    The component is a record of its fields, its methods are functions that
    pass that record along, and the calls it makes to the services it is
    given (log, status bar, context key) are appended to a trace kept in
    the record.  What the platform provides (localization, [truncate], the
    regular expression engine for patterns built at run time,
    [localeCompare]) is collected in the record [Host]; what the
    collaborating services answer at a given moment (menus, workspace,
    labels) in the record [World].  The one call that can throw, [new
    RegExp] on a pattern that has the remote name spliced in, has an
    [Outcome]. *)

From Stdlib Require Import ZArith Ascii String List Bool Lia.
From Stdlib Require Import Sorting.Sorted Sorting.Permutation.
From stdpp Require Import gmap strings list.

(* ================================================================== *)
(** * Part I: definitions                                              *)
(* ================================================================== *)

(** ** Strings and code units

    A JavaScript string is a sequence of 16-bit code units, and a regular
    expression without the [u] flag runs on them.  A [string] of this file
    holds the text in UTF-8, as its string literals do, and [codeUnits]
    gives the code units of the text: one for a character up to U+FFFF and
    a surrogate pair for a character above.  Bytes that are not well-formed
    UTF-8 stand for no JavaScript string; the decoder is total and gives
    U+FFFD for a byte that does not begin a well-formed sequence. *)

Definition isContinuation (b : N) : bool := (128 <=? b)%N && (b <=? 191)%N.

(** The code units of a code point. *)
Definition unitsOfCodePoint (cp : N) : list N :=
  if (cp <? 65536)%N then [cp]
  else [(55296 + (cp - 65536) / 1024)%N; (56320 + (cp - 65536) mod 1024)%N].

(** Sequences of two bytes begin at 194 (U+0080), of three at 224
    (U+0800), of four at 240 (U+10000, up to U+10FFFF); a sequence that is
    longer than its code point needs, or that gives a surrogate, is not
    well formed. *)
Fixpoint decodeUtf8 (bytes : list N) : list N :=
  match bytes with
  | [] => []
  | b0 :: rest0 =>
      if (b0 <? 128)%N then b0 :: decodeUtf8 rest0
      else
        match rest0 with
        | [] => 65533%N :: decodeUtf8 rest0
        | b1 :: rest1 =>
            if negb (isContinuation b1) then 65533%N :: decodeUtf8 rest0
            else if (194 <=? b0)%N && (b0 <=? 223)%N then
              ((b0 - 192) * 64 + (b1 - 128))%N :: decodeUtf8 rest1
            else
              match rest1 with
              | [] => 65533%N :: decodeUtf8 rest0
              | b2 :: rest2 =>
                  if negb (isContinuation b2) then 65533%N :: decodeUtf8 rest0
                  else if (224 <=? b0)%N && (b0 <=? 239)%N then
                    let cp := ((b0 - 224) * 4096 + (b1 - 128) * 64 + (b2 - 128))%N in
                    if (2048 <=? cp)%N && negb ((55296 <=? cp)%N && (cp <=? 57343)%N)
                    then cp :: decodeUtf8 rest2
                    else 65533%N :: decodeUtf8 rest0
                  else
                    match rest2 with
                    | [] => 65533%N :: decodeUtf8 rest0
                    | b3 :: rest3 =>
                        if negb (isContinuation b3) then 65533%N :: decodeUtf8 rest0
                        else if (240 <=? b0)%N && (b0 <=? 244)%N then
                          let cp := ((b0 - 240) * 262144 + (b1 - 128) * 4096
                                     + (b2 - 128) * 64 + (b3 - 128))%N in
                          if (65536 <=? cp)%N && (cp <=? 1114111)%N
                          then unitsOfCodePoint cp ++ decodeUtf8 rest3
                          else 65533%N :: decodeUtf8 rest0
                        else 65533%N :: decodeUtf8 rest0
                    end
              end
        end
  end.

Definition bytesOf (s : string) : list N := map N_of_ascii (list_ascii_of_string s).

Definition codeUnits (s : string) : list N := decodeUtf8 (bytesOf s).

(** ** Regular expressions

    The pattern of [validatedGroup] is a regular expression literal without
    back references, look-around or flags, so [String.prototype.match]
    answers a non-null result exactly when the code units of the string
    belong to the language of the pattern. *)

Inductive RegExp : Type :=
| Never
| Epsilon
| CharClass (p : N → bool)
| Seq (r1 r2 : RegExp)
| Alt (r1 r2 : RegExp)
| Star (r : RegExp).

Declare Scope regexp_scope.
Delimit Scope regexp_scope with re.
Bind Scope regexp_scope with RegExp.
Infix "⋅" := Seq (at level 41, right associativity) : regexp_scope.
Infix "∣" := Alt (at level 51, right associativity) : regexp_scope.

(** A character of a pattern literal, which is ASCII here: its code unit
    is its number. *)
Definition Chr (c : ascii) : RegExp := CharClass (N.eqb (N_of_ascii c)).

Fixpoint Lit (s : string) : RegExp :=
  match s with
  | EmptyString => Epsilon
  | String c s' => Seq (Chr c) (Lit s')
  end.

Definition inRange (lo hi : ascii) (u : N) : bool :=
  (N_of_ascii lo <=? u)%N && (u <=? N_of_ascii hi)%N.

(** [\d] *)
Definition isDigit (u : N) : bool := inRange "0" "9" u.
(** [[a-z]] *)
Definition isLower (u : N) : bool := inRange "a" "z" u.
(** [[a-z0-9+.-]] *)
Definition isNameChar (u : N) : bool :=
  isLower u || isDigit u || N.eqb u (N_of_ascii "+") || N.eqb u (N_of_ascii ".")
  || N.eqb u (N_of_ascii "-").
(** The line terminators of ECMAScript: U+000A, U+000D, U+2028 and
    U+2029. *)
Definition isLineTerminator (u : N) : bool :=
  N.eqb u 10 || N.eqb u 13 || N.eqb u 8232 || N.eqb u 8233.
(** [.] without the [s] flag: any code unit but a line terminator. *)
Definition isDot (u : N) : bool := negb (isLineTerminator u).

(** The language of a pattern. *)
Inductive Matches : RegExp → list N → Prop :=
| MEpsilon : Matches Epsilon []
| MClass p u : p u = true → Matches (CharClass p) [u]
| MSeq r1 r2 s1 s2 :
    Matches r1 s1 → Matches r2 s2 → Matches (Seq r1 r2) (s1 ++ s2)
| MAltL r1 r2 s : Matches r1 s → Matches (Alt r1 r2) s
| MAltR r1 r2 s : Matches r2 s → Matches (Alt r1 r2) s
| MStarNil r : Matches (Star r) []
| MStarCons r s1 s2 :
    Matches r s1 → Matches (Star r) s2 → Matches (Star r) (s1 ++ s2).

(** The matcher: derivatives of the pattern along the code units. *)
Fixpoint nullable (r : RegExp) : bool :=
  match r with
  | Never => false
  | Epsilon => true
  | CharClass _ => false
  | Seq r1 r2 => nullable r1 && nullable r2
  | Alt r1 r2 => nullable r1 || nullable r2
  | Star _ => true
  end.

Fixpoint deriv (u : N) (r : RegExp) : RegExp :=
  match r with
  | Never => Never
  | Epsilon => Never
  | CharClass p => if p u then Epsilon else Never
  | Seq r1 r2 =>
      if nullable r1 then Alt (Seq (deriv u r1) r2) (deriv u r2)
      else Seq (deriv u r1) r2
  | Alt r1 r2 => Alt (deriv u r1) (deriv u r2)
  | Star r1 => Seq (deriv u r1) (Star r1)
  end.

Fixpoint acceptsUnits (r : RegExp) (units : list N) : bool :=
  match units with
  | [] => nullable r
  | u :: rest => acceptsUnits (deriv u r) rest
  end.

(** [accepts r s]: the whole of [s] matches [r] (a pattern between [^] and
    [$]). *)
Definition accepts (r : RegExp) (s : string) : bool := acceptsUnits r (codeUnits s).

(** ** Data *)

(** [string | ILocalizedString] *)
Inductive LocalizableString : Type :=
| PlainString (s : string)
| LocalizedString (value original : string).

(** The [item] of a [MenuItemAction] ([ICommandAction]): the fields read
    here. *)
Record CommandAction : Type := {
  ca_id : string;
  ca_title : LocalizableString;
  ca_category : option LocalizableString
}.

Inductive MenuAction : Type :=
| MenuItemAction (item : CommandAction)
| SubmenuItemAction (title : string).

(** [type ActionGroup = [string, Array<MenuItemAction | SubmenuItemAction>]] *)
Definition ActionGroup : Type := string * list MenuAction.

(** [IQuickPickItem | IQuickPickSeparator] *)
Inductive QuickPickEntry : Type :=
| QuickPickSeparator (label : option string)
| QuickPickItem (id label : string) (alwaysShow : bool).

Inductive ConnectionState : Type :=
| initializing | connected | reconnecting | disconnected.

Global Instance ConnectionState_eq_dec : EqDecision ConnectionState.
Proof. solve_decision. Defined.

(** The string value of a connection state, as the context key stores it. *)
Definition stateName (c : ConnectionState) : string :=
  match c with
  | initializing => "initializing"
  | connected => "connected"
  | reconnecting => "reconnecting"
  | disconnected => "disconnected"
  end.

Inductive PersistentConnectionEventType : Type :=
| ConnectionLost
| ReconnectionWait
| ReconnectionRunning
| ReconnectionPermanentFailure
| ConnectionGain.

(** [IWindowIndicator]; its [onDidChange] is [Event.None] and never fires. *)
Record IWindowIndicator : Type := {
  wi_label : string;
  wi_tooltip : string;
  wi_command : option string
}.

(** A [MarkdownString] under construction: the pieces appended to it. *)
Inductive MarkdownPiece : Type :=
| appendMarkdown (value : string)
| appendText (value : string).

(** [string | IMarkdownString] *)
Inductive Tooltip : Type :=
| TooltipString (s : string)
| TooltipMarkdown (pieces : list MarkdownPiece).

(** [IStatusbarEntry]; the two theme colours are constants and left out. *)
Record IStatusbarEntry : Type := {
  se_name : string;
  se_ariaLabel : string;
  se_text : string;
  se_showProgress : option bool;
  se_tooltip : option Tooltip;
  se_command : option string
}.

Record Location : Type := { scheme : string; authority : string }.

(** Calls made to the services the component is given. *)
Inductive Effect : Type :=
| logService_warn (message : string)
| statusbar_addEntry (properties : IStatusbarEntry)
| statusbar_update (properties : IStatusbarEntry)
| statusbar_dispose
| contextKey_set (value : string).

(** What the platform and imported modules provide. *)
Record Host : Type := {
  (** [nls.localize(key, message, ...args)] *)
  nls_localize : string → string → list string → string;
  (** [truncate(value, maxLength)] of [vs/base/common/strings] *)
  truncate : string → nat → string;
  (** [getCodiconAriaLabel] of [vs/base/common/codicons] *)
  getCodiconAriaLabel : string → string;
  (** [getRemoteName] of [vs/platform/remote/common/remoteHosts], on a
      non-empty authority *)
  getRemoteName : string → string;
  (** [new RegExp(source)]: nothing when the constructor throws a
      [SyntaxError], else the [test] of the regular expression *)
  RegExp_new : string → option (string → bool);
  (** [a.localeCompare(b)] *)
  localeCompare : string → string → Z;
  (** [Schemas.vscodeRemote] *)
  Schemas_vscodeRemote : string;
  (** [ReloadWindowAction.ID] *)
  ReloadWindowAction_ID : string;
  LIST_WORKSPACE_UNSUPPORTED_EXTENSIONS_COMMAND_ID : string
}.

(** What the collaborating services answer at the moment. *)
Record World : Type := {
  (** [remoteIndicatorMenu.getActions()] *)
  remoteIndicatorMenu : list ActionGroup;
  (** [legacyIndicatorMenu.getActions()] *)
  legacyIndicatorMenu : list ActionGroup;
  (** [getVirtualWorkspaceLocation(workspaceContextService.getWorkspace())] *)
  getVirtualWorkspaceLocation : option Location;
  (** [labelService.getHostLabel(scheme, authority)] *)
  getHostLabel : string → string → string;
  (** [labelService.getHostTooltip(scheme, authority)] *)
  getHostTooltip : string → string → option string;
  (** [extensionGalleryService.isEnabled()] *)
  extensionGallery_isEnabled : bool;
  (** [remoteAgentService.getConnection()] is not null *)
  hasConnection : bool
}.

(** The fields of [RemoteStatusIndicator], and the trace of its calls. *)
Record RemoteStatusIndicator : Type := {
  (** the properties the status bar entry shows, when there is one *)
  remoteStatusEntry : option IStatusbarEntry;
  windowIndicator : option IWindowIndicator;
  remoteMenuActionsGroups : option (list ActionGroup);
  remoteAuthority : option string;
  virtualWorkspaceLocation : option Location;
  connectionState : option ConnectionState;
  connectionStateContextKey : string;
  loggedInvalidGroupNames : gmap string bool;
  trace : list Effect
}.

(** Field updates. *)
Definition set_remoteStatusEntry (v : option IStatusbarEntry)
    (s : RemoteStatusIndicator) : RemoteStatusIndicator :=
  {| remoteStatusEntry := v;
     windowIndicator := windowIndicator s;
     remoteMenuActionsGroups := remoteMenuActionsGroups s;
     remoteAuthority := remoteAuthority s;
     virtualWorkspaceLocation := virtualWorkspaceLocation s;
     connectionState := connectionState s;
     connectionStateContextKey := connectionStateContextKey s;
     loggedInvalidGroupNames := loggedInvalidGroupNames s;
     trace := trace s |}.

Definition set_remoteMenuActionsGroups (v : option (list ActionGroup))
    (s : RemoteStatusIndicator) : RemoteStatusIndicator :=
  {| remoteStatusEntry := remoteStatusEntry s;
     windowIndicator := windowIndicator s;
     remoteMenuActionsGroups := v;
     remoteAuthority := remoteAuthority s;
     virtualWorkspaceLocation := virtualWorkspaceLocation s;
     connectionState := connectionState s;
     connectionStateContextKey := connectionStateContextKey s;
     loggedInvalidGroupNames := loggedInvalidGroupNames s;
     trace := trace s |}.

Definition set_virtualWorkspaceLocation (v : option Location)
    (s : RemoteStatusIndicator) : RemoteStatusIndicator :=
  {| remoteStatusEntry := remoteStatusEntry s;
     windowIndicator := windowIndicator s;
     remoteMenuActionsGroups := remoteMenuActionsGroups s;
     remoteAuthority := remoteAuthority s;
     virtualWorkspaceLocation := v;
     connectionState := connectionState s;
     connectionStateContextKey := connectionStateContextKey s;
     loggedInvalidGroupNames := loggedInvalidGroupNames s;
     trace := trace s |}.

Definition set_connectionState (v : option ConnectionState)
    (s : RemoteStatusIndicator) : RemoteStatusIndicator :=
  {| remoteStatusEntry := remoteStatusEntry s;
     windowIndicator := windowIndicator s;
     remoteMenuActionsGroups := remoteMenuActionsGroups s;
     remoteAuthority := remoteAuthority s;
     virtualWorkspaceLocation := virtualWorkspaceLocation s;
     connectionState := v;
     connectionStateContextKey := connectionStateContextKey s;
     loggedInvalidGroupNames := loggedInvalidGroupNames s;
     trace := trace s |}.

(** [connectionStateContextKey.set(v)] *)
Definition connectionStateContextKey_set (v : string)
    (s : RemoteStatusIndicator) : RemoteStatusIndicator :=
  {| remoteStatusEntry := remoteStatusEntry s;
     windowIndicator := windowIndicator s;
     remoteMenuActionsGroups := remoteMenuActionsGroups s;
     remoteAuthority := remoteAuthority s;
     virtualWorkspaceLocation := virtualWorkspaceLocation s;
     connectionState := connectionState s;
     connectionStateContextKey := v;
     loggedInvalidGroupNames := loggedInvalidGroupNames s;
     trace := trace s ++ [contextKey_set v] |}.

Definition set_loggedInvalidGroupNames (v : gmap string bool)
    (s : RemoteStatusIndicator) : RemoteStatusIndicator :=
  {| remoteStatusEntry := remoteStatusEntry s;
     windowIndicator := windowIndicator s;
     remoteMenuActionsGroups := remoteMenuActionsGroups s;
     remoteAuthority := remoteAuthority s;
     virtualWorkspaceLocation := virtualWorkspaceLocation s;
     connectionState := connectionState s;
     connectionStateContextKey := connectionStateContextKey s;
     loggedInvalidGroupNames := v;
     trace := trace s |}.

(** A call to a service: one more entry of the trace. *)
Definition emit (e : Effect) (s : RemoteStatusIndicator) : RemoteStatusIndicator :=
  {| remoteStatusEntry := remoteStatusEntry s;
     windowIndicator := windowIndicator s;
     remoteMenuActionsGroups := remoteMenuActionsGroups s;
     remoteAuthority := remoteAuthority s;
     virtualWorkspaceLocation := virtualWorkspaceLocation s;
     connectionState := connectionState s;
     connectionStateContextKey := connectionStateContextKey s;
     loggedInvalidGroupNames := loggedInvalidGroupNames s;
     trace := trace s ++ [e] |}.

(** ** Constants of the class *)

(** [const isWeb = false] *)
Definition isWeb : bool := false.

Definition REMOTE_ACTIONS_COMMAND_ID : string := "workbench.action.remote.showMenu".
Definition CONNECT_REMOTE_COMMAND_ID : string := "workbench.action.remote.connect".
Definition CLOSE_REMOTE_COMMAND_ID : string := "workbench.action.remote.close".
Definition SHOW_CLOSE_REMOTE_COMMAND_ID : bool := negb isWeb.
Definition INSTALL_REMOTE_EXTENSIONS_ID : string := "workbench.action.remote.extensions".
Definition REMOTE_STATUS_LABEL_MAX_LENGTH : nat := 40.

(** The initial value of the field [windowIndicator]. *)
Definition initialWindowIndicator : IWindowIndicator :=
  {| wi_label := "$(remote) k0s: boring_wozniak";
     wi_tooltip := "Running in boring_wozniak";
     wi_command := Some REMOTE_ACTIONS_COMMAND_ID |}.

(** A string or [undefined] in a condition: [undefined] and the empty
    string are both false. *)
Definition truthy (v : option string) : option string :=
  match v with
  | Some EmptyString => None
  | Some a => Some a
  | None => None
  end.

(** ** Validation of group names *)

(** The pattern literal of [validatedGroup], read left to right between
    its [^] and [$]: [remote] or [virtualfs]; [_]; two digits [\d\d]; [_];
    one [[a-z]] and then any number of [[a-z0-9+.-]]; [_]; any number of
    [.] (so the last part may be empty). *)
Definition groupNamePattern : RegExp :=
  ((Lit "remote" ∣ Lit "virtualfs") ⋅ Chr "_" ⋅
   (CharClass isDigit ⋅ CharClass isDigit) ⋅ Chr "_" ⋅
   ((CharClass isLower ⋅ Star (CharClass isNameChar)) ⋅ Chr "_" ⋅
    Star (CharClass isDot)))%re.

Definition invalidGroupMessage (group : string) : string :=
  "Invalid group name used in " +:+ String "034" "statusBar/remoteIndicator"
  +:+ String "034" " menu contribution: " +:+ group +:+
  ". Entries ignored. Expected format: 'remote_$ORDER_$REMOTENAME_$GROUPING or 'virtualfs_$ORDER_$FILESCHEME_$GROUPING.".

Definition validatedGroup (group : string) (s : RemoteStatusIndicator)
    : bool * RemoteStatusIndicator :=
  if negb (accepts groupNamePattern group) then
    (false,
     match loggedInvalidGroupNames s !! group with
     | Some true => s
     | _ =>
         emit (logService_warn (invalidGroupMessage group))
           (set_loggedInvalidGroupNames
              (<[group := true]> (loggedInvalidGroupNames s)) s)
     end)
  else (true, s).

(** [groups.filter(a => this.validatedGroup(a[0]))]: the predicate is
    called on every element in order. *)
Fixpoint filterValidated (groups : list ActionGroup) (s : RemoteStatusIndicator)
    : list ActionGroup * RemoteStatusIndicator :=
  match groups with
  | [] => ([], s)
  | a :: rest =>
      let '(ok, s1) := validatedGroup (fst a) s in
      let '(kept, s2) := filterValidated rest s1 in
      (if ok then a :: kept else kept, s2)
  end.

(** [doNotUseCache] left out is [false]. *)
Definition getRemoteMenuActions (w : World) (doNotUseCache : bool)
    (s : RemoteStatusIndicator) : list ActionGroup * RemoteStatusIndicator :=
  match remoteMenuActionsGroups s, doNotUseCache with
  | Some cached, false => (cached, s)
  | _, _ =>
      let '(valid, s1) := filterValidated (remoteIndicatorMenu w) s in
      let groups := valid ++ legacyIndicatorMenu w in
      (groups, set_remoteMenuActionsGroups (Some groups) s1)
  end.

(** ** The status bar entry *)

Definition renderRemoteStatusIndicator (h : Host) (w : World) (text : string)
    (tooltip : option Tooltip) (command : option string)
    (showProgress : option bool) (s : RemoteStatusIndicator)
    : RemoteStatusIndicator :=
  let name := nls_localize h "remoteHost" "Remote Host" [] in
  let '(command, s) :=
    match command with
    | Some c => (Some c, s)
    | None =>
        let '(groups, s1) := getRemoteMenuActions w false s in
        if (0 <? length groups)%nat then (Some REMOTE_ACTIONS_COMMAND_ID, s1)
        else (None, s1)
    end in
  let ariaLabel := getCodiconAriaLabel h text in
  let properties :=
    {| se_name := name; se_ariaLabel := ariaLabel; se_text := text;
       se_showProgress := showProgress; se_tooltip := tooltip;
       se_command := command |} in
  match remoteStatusEntry s with
  | Some _ =>
      emit (statusbar_update properties)
        (set_remoteStatusEntry (Some properties) s)
  | None =>
      emit (statusbar_addEntry properties)
        (set_remoteStatusEntry (Some properties) s)
  end.

(** [dispose(this.remoteStatusEntry); this.remoteStatusEntry = undefined] *)
Definition disposeRemoteStatusEntry (s : RemoteStatusIndicator)
    : RemoteStatusIndicator :=
  match remoteStatusEntry s with
  | Some _ => emit statusbar_dispose (set_remoteStatusEntry None s)
  | None => s
  end.

(** Which [return] of [updateRemoteStatusIndicator] a run ends at, in the
    order of the source. *)
Inductive IndicatorBranch : Type :=
| WindowIndicatorBranch
| ConnectionStateBranch
| VirtualWorkspaceBranch
| MenuAffordanceBranch
| HideBranch.

(** The tooltip of a host or workspace label: the host's own, or the
    templated message. *)
Definition hostTooltipPieces (h : Host) (w : World) (key sch auth label : string)
    : list MarkdownPiece :=
  match truthy (getHostTooltip w sch auth) with
  | Some hostNameTooltip => [appendMarkdown hostNameTooltip]
  | None => [appendText (nls_localize h key "Editing on {0}" [label])]
  end.

Definition updateRemoteStatusIndicator (h : Host) (w : World)
    (s : RemoteStatusIndicator) : IndicatorBranch * RemoteStatusIndicator :=
  match windowIndicator s with
  | Some remoteIndicator =>
      (WindowIndicatorBranch,
       match truthy (remoteAuthority s) with
       | Some _ =>
           renderRemoteStatusIndicator h w
             (truncate h (wi_label remoteIndicator) REMOTE_STATUS_LABEL_MAX_LENGTH)
             (Some (TooltipString (wi_tooltip remoteIndicator)))
             (wi_command remoteIndicator) None s
       | None =>
           renderRemoteStatusIndicator h w "$(remote)"
             (Some (TooltipString (wi_tooltip remoteIndicator)))
             (wi_command remoteIndicator) None s
       end)
  | None =>
      match truthy (remoteAuthority s), negb isWeb with
      | Some remoteAuthority, true =>
          let hostLabel :=
            match truthy (Some (getHostLabel w (Schemas_vscodeRemote h) remoteAuthority)) with
            | Some l => l
            | None => remoteAuthority
            end in
          (ConnectionStateBranch,
           match connectionState s with
           | Some initializing =>
               renderRemoteStatusIndicator h w
                 (nls_localize h "host.open" "Opening Remote..." [])
                 (Some (TooltipString (nls_localize h "host.open" "Opening Remote..." [])))
                 None (Some true) s
           | Some reconnecting =>
               renderRemoteStatusIndicator h w
                 (nls_localize h "host.reconnecting" "Reconnecting to {0}..."
                    [truncate h hostLabel REMOTE_STATUS_LABEL_MAX_LENGTH])
                 None None (Some true) s
           | Some disconnected =>
               renderRemoteStatusIndicator h w
                 ("$(alert) " +:+
                  nls_localize h "disconnectedFrom" "Disconnected from {0}"
                    [truncate h hostLabel REMOTE_STATUS_LABEL_MAX_LENGTH])
                 None None None s
           | _ =>
               renderRemoteStatusIndicator h w
                 ("$(remote) " +:+ truncate h hostLabel REMOTE_STATUS_LABEL_MAX_LENGTH)
                 (Some (TooltipMarkdown
                    (hostTooltipPieces h w "host.tooltip" (Schemas_vscodeRemote h)
                       remoteAuthority hostLabel)))
                 None None s
           end)
      | _, _ =>
          let workspaceLabel :=
            match virtualWorkspaceLocation s with
            | Some loc =>
                match truthy (Some (getHostLabel w (scheme loc) (authority loc))) with
                | Some l => Some (loc, l)
                | None => None
                end
            | None => None
            end in
          match workspaceLabel with
          | Some (loc, workspaceLabel) =>
              let tooltip :=
                hostTooltipPieces h w "workspace.tooltip" (scheme loc) (authority loc)
                  workspaceLabel in
              let tooltip :=
                if negb isWeb || bool_decide (is_Some (truthy (remoteAuthority s))) then
                  tooltip ++
                  [appendMarkdown (String "010" (String "010" ""));
                   appendMarkdown
                     (nls_localize h "workspace.tooltip2"
                        "Some [features are not available]({0}) for resources located on a virtual file system."
                        ["command:" +:+ LIST_WORKSPACE_UNSUPPORTED_EXTENSIONS_COMMAND_ID h])]
                else tooltip in
              (VirtualWorkspaceBranch,
               renderRemoteStatusIndicator h w
                 ("$(remote) " +:+ truncate h workspaceLabel REMOTE_STATUS_LABEL_MAX_LENGTH)
                 (Some (TooltipMarkdown tooltip)) None None s)
          | None =>
              let '(groups, s1) := getRemoteMenuActions w false s in
              if (0 <? length groups)%nat then
                (MenuAffordanceBranch,
                 renderRemoteStatusIndicator h w "$(remote)"
                   (Some (TooltipString
                      (nls_localize h "noHost.tooltip" "Open a Remote Window" [])))
                   None None s1)
              else (HideBranch, disposeRemoteStatusEntry s1)
          end
      end
  end.

(** ** The connection state *)

(** [newState] is never [initializing] in the source (its type excludes
    it). *)
Definition setState (h : Host) (w : World) (newState : ConnectionState)
    (s : RemoteStatusIndicator) : RemoteStatusIndicator :=
  if bool_decide (connectionState s ≠ Some newState) then
    let s := set_connectionState (Some newState) s in
    let s :=
      if bool_decide (connectionState s = Some reconnecting) then
        connectionStateContextKey_set (stateName disconnected) s
      else
        connectionStateContextKey_set (stateName newState) s in
    snd (updateRemoteStatusIndicator h w s)
  else s.

Definition updateVirtualWorkspaceLocation (w : World)
    (s : RemoteStatusIndicator) : RemoteStatusIndicator :=
  set_virtualWorkspaceLocation (getVirtualWorkspaceLocation w) s.

(** The listener of [connection.onDidStateChange]. *)
Definition onDidStateChange (h : Host) (w : World)
    (e : PersistentConnectionEventType) (s : RemoteStatusIndicator)
    : RemoteStatusIndicator :=
  match e with
  | ConnectionLost | ReconnectionRunning | ReconnectionWait =>
      setState h w reconnecting s
  | ReconnectionPermanentFailure => setState h w disconnected s
  | ConnectionGain => setState h w connected s
  end.

(** ** The remote menu *)

Definition getCategoryLabel (action : CommandAction) : option string :=
  match ca_category action with
  | Some (PlainString EmptyString) => None
  | Some (PlainString c) => Some c
  | Some (LocalizedString value _) => Some value
  | None => None
  end.

Definition titleLabel (action : CommandAction) : string :=
  match ca_title action with
  | PlainString t => t
  | LocalizedString value _ => value
  end.

(** A call returns a value, or throws. *)
Inductive Outcome (A : Type) : Type :=
| Returns (a : A)
| Throws.
Arguments Returns {A} a.
Arguments Throws {A}.

(** [new RegExp(source)] in [matchCurrentRemote]: a matcher, or the
    [SyntaxError] of the constructor. *)
Definition newRegExp (h : Host) (source : string) : Outcome (option (string → bool)) :=
  match RegExp_new h source with
  | Some test => Returns (Some test)
  | None => Throws
  end.

(** The remote name or the scheme is spliced into the pattern as it is. *)
Definition matchCurrentRemote (h : Host) (s : RemoteStatusIndicator)
    : Outcome (option (string → bool)) :=
  match truthy (remoteAuthority s) with
  | Some remoteAuthority =>
      newRegExp h ("^remote_\d\d_" +:+ getRemoteName h remoteAuthority +:+ "_")
  | None =>
      match virtualWorkspaceLocation s with
      | Some loc => newRegExp h ("^virtualfs_\d\d_" +:+ scheme loc +:+ "_")
      | None => Returns None
      end
  end.

(** The comparator given to [sort]; [currentRemoteMatcher] is the [test] of
    the matcher. *)
Definition compareGroups (h : Host) (currentRemoteMatcher : string → bool)
    (g1 g2 : ActionGroup) : Z :=
  let isCurrentRemote1 := currentRemoteMatcher (fst g1) in
  let isCurrentRemote2 := currentRemoteMatcher (fst g2) in
  if negb (Bool.eqb isCurrentRemote1 isCurrentRemote2) then
    (if isCurrentRemote1 then -1 else 1)%Z
  else localeCompare h (fst g1) (fst g2).

(** [Array.prototype.sort(comparefn)]: a stable sort (ECMAScript 2019);
    written as an insertion that keeps an element before the ones it does
    not follow. *)
Fixpoint Array_insert {A} (comparefn : A → A → Z) (x : A) (l : list A) : list A :=
  match l with
  | [] => [x]
  | y :: l' =>
      if (comparefn x y <=? 0)%Z then x :: y :: l'
      else y :: Array_insert comparefn x l'
  end.

Fixpoint Array_sort {A} (comparefn : A → A → Z) (l : list A) : list A :=
  match l with
  | [] => []
  | x :: l' => Array_insert comparefn x (Array_sort comparefn l')
  end.

(** The groups in the order of the menu; [sort] works in place on the
    array [getRemoteMenuActions] returned, which is the cached one.  When
    the pattern does not compile the cache has been rebuilt already. *)
Definition orderedActionGroups (h : Host) (w : World)
    (s : RemoteStatusIndicator)
    : Outcome (list ActionGroup) * RemoteStatusIndicator :=
  let '(actionGroups, s1) := getRemoteMenuActions w true s in
  match matchCurrentRemote h s1 with
  | Returns (Some currentRemoteMatcher) =>
      let sorted := Array_sort (compareGroups h currentRemoteMatcher) actionGroups in
      (Returns sorted, set_remoteMenuActionsGroups (Some sorted) s1)
  | Returns None => (Returns actionGroups, s1)
  | Throws => (Throws, s1)
  end.

(** The variables of the two loops: [items], [lastCategoryName] and, inside
    a group, [hasGroupCategory]. *)
Definition emitAction (acc : list QuickPickEntry * option string * bool)
    (action : MenuAction) : list QuickPickEntry * option string * bool :=
  let '(items, lastCategoryName, hasGroupCategory) := acc in
  match action with
  | MenuItemAction item =>
      let '(items, lastCategoryName, hasGroupCategory) :=
        if negb hasGroupCategory then
          let category := getCategoryLabel item in
          let '(items, lastCategoryName) :=
            if bool_decide (category ≠ lastCategoryName) then
              (items ++ [QuickPickSeparator category], category)
            else (items, lastCategoryName) in
          (items, lastCategoryName, true)
        else (items, lastCategoryName, hasGroupCategory) in
      (items ++ [QuickPickItem (ca_id item) (titleLabel item) false],
       lastCategoryName, hasGroupCategory)
  | SubmenuItemAction _ => acc
  end.

Definition emitGroup (acc : list QuickPickEntry * option string)
    (actionGroup : ActionGroup) : list QuickPickEntry * option string :=
  let '(items, lastCategoryName) := acc in
  let '(items, lastCategoryName, _) :=
    fold_left emitAction (snd actionGroup) (items, lastCategoryName, false) in
  (items, lastCategoryName).

Definition emitGroups (actionGroups : list ActionGroup) : list QuickPickEntry :=
  fst (fold_left emitGroup actionGroups ([], None)).

(** What is pushed after [entriesBeforeConfig] is taken. *)
Definition configEntries (h : Host) (w : World) (s : RemoteStatusIndicator)
    : list QuickPickEntry :=
  let items := [] in
  let items :=
    if SHOW_CLOSE_REMOTE_COMMAND_ID then
      match truthy (remoteAuthority s) with
      | Some _ =>
          let items :=
            items ++ [QuickPickItem CLOSE_REMOTE_COMMAND_ID
                        (nls_localize h "closeRemoteConnection.title"
                           "Close Remote Connection" []) false] in
          if bool_decide (connectionState s = Some disconnected) then
            items ++ [QuickPickItem (ReloadWindowAction_ID h)
                        (nls_localize h "reloadWindow" "Reload Window" []) false]
          else items
      | None =>
          match virtualWorkspaceLocation s with
          | Some _ =>
              items ++ [QuickPickItem CLOSE_REMOTE_COMMAND_ID
                          (nls_localize h "closeVirtualWorkspace.title"
                             "Close Remote Workspace" []) false]
          | None => items
          end
      end
    else items in
  let items :=
    items ++ [QuickPickItem CONNECT_REMOTE_COMMAND_ID
                (nls_localize h "connectRemoteConnection.title"
                   "Connect Remote Connection" []) false] in
  let items := items ++ [QuickPickSeparator None] in
  let items :=
    items ++ [QuickPickItem "remote.logRemoteAuthority"
                (nls_localize h "remote.logRemoteAuthority" "Log Remote Authority" [])
                false] in
  let items :=
    items ++ [QuickPickItem "remote.logVirtualWorkspaceLocation"
                (nls_localize h "remote.logVirtualWorkspaceLocation"
                   "Log Virtual Workspace Location" []) false] in
  let items :=
    items ++ [QuickPickItem "remote.logExtensionGalleryService"
                (nls_localize h "remote.logExtensionGalleryService"
                   "Log Extension Gallery Service" []) false] in
  if bool_decide (truthy (remoteAuthority s) = None)
     && bool_decide (virtualWorkspaceLocation s = None)
     && extensionGallery_isEnabled w then
    items ++ [QuickPickItem INSTALL_REMOTE_EXTENSIONS_ID
                (nls_localize h "installRemotes"
                   "Install Additional Remote Extensions..." []) true]
  else items.

(** The end of [computeItems]: [if (items.length === entriesBeforeConfig)
    items.pop()]. *)
Definition popIfNothingFollows (entriesBeforeConfig : nat)
    (items : list QuickPickEntry) : list QuickPickEntry :=
  if (length items =? entriesBeforeConfig)%nat then removelast items else items.

Definition computeItems (h : Host) (w : World) (s : RemoteStatusIndicator)
    : Outcome (list QuickPickEntry) * RemoteStatusIndicator :=
  let '(actionGroups, s1) := orderedActionGroups h w s in
  match actionGroups with
  | Returns actionGroups =>
      let items := emitGroups actionGroups in
      let items := items ++ [QuickPickSeparator None] in
      let entriesBeforeConfig := length items in
      let items := items ++ configEntries h w s1 in
      (Returns (popIfNothingFollows entriesBeforeConfig items), s1)
  | Throws => (Throws, s1)
  end.

(** ** The component in its surroundings *)

(** Where the asynchronous [updateWhenInstalledExtensionsRegistered] stands:
    at its [await], at the [await] of the resolution it started, or done. *)
Inductive Continuation : Type :=
| AwaitingInstalledExtensions
| AwaitingResolution
| NothingPending.

Record System : Type := {
  world : World;
  self : RemoteStatusIndicator;
  pending : Continuation;
  (** the items of the quick picks that are shown *)
  quickPicks : list (list QuickPickEntry)
}.

(** What is delivered to the component, with what the world has become.
    The services are read when the component asks, and they may have
    changed without an event, or before their event is delivered:
    [services_changed] is such a change, of which the component is not
    told. *)
Inductive Event : Type :=
| remoteIndicatorMenu_onDidChange (actions : list ActionGroup)
| legacyIndicatorMenu_onDidChange (actions : list ActionGroup)
| labelService_onDidChangeFormatters
    (hostLabel : string → string → string)
    (hostTooltip : string → string → option string)
| connection_onDidStateChange (e : PersistentConnectionEventType)
| workspace_onDidChangeWorkbenchState (location : option Location)
| whenInstalledExtensionsRegistered_resolved
| resolveAuthority_settled (resolved : bool)
| command_showRemoteMenu
| quickPick_onDidHide (index : nat)
| services_changed (w : World).

Definition World_set_remoteIndicatorMenu (v : list ActionGroup) (w : World) : World :=
  {| remoteIndicatorMenu := v;
     legacyIndicatorMenu := legacyIndicatorMenu w;
     getVirtualWorkspaceLocation := getVirtualWorkspaceLocation w;
     getHostLabel := getHostLabel w;
     getHostTooltip := getHostTooltip w;
     extensionGallery_isEnabled := extensionGallery_isEnabled w;
     hasConnection := hasConnection w |}.

Definition World_set_legacyIndicatorMenu (v : list ActionGroup) (w : World) : World :=
  {| remoteIndicatorMenu := remoteIndicatorMenu w;
     legacyIndicatorMenu := v;
     getVirtualWorkspaceLocation := getVirtualWorkspaceLocation w;
     getHostLabel := getHostLabel w;
     getHostTooltip := getHostTooltip w;
     extensionGallery_isEnabled := extensionGallery_isEnabled w;
     hasConnection := hasConnection w |}.

Definition World_set_workspace (v : option Location) (w : World) : World :=
  {| remoteIndicatorMenu := remoteIndicatorMenu w;
     legacyIndicatorMenu := legacyIndicatorMenu w;
     getVirtualWorkspaceLocation := v;
     getHostLabel := getHostLabel w;
     getHostTooltip := getHostTooltip w;
     extensionGallery_isEnabled := extensionGallery_isEnabled w;
     hasConnection := hasConnection w |}.

Definition World_set_formatters (l : string → string → string)
    (t : string → string → option string) (w : World) : World :=
  {| remoteIndicatorMenu := remoteIndicatorMenu w;
     legacyIndicatorMenu := legacyIndicatorMenu w;
     getVirtualWorkspaceLocation := getVirtualWorkspaceLocation w;
     getHostLabel := l;
     getHostTooltip := t;
     extensionGallery_isEnabled := extensionGallery_isEnabled w;
     hasConnection := hasConnection w |}.

(** The services come to answer as [v] does.  Whether there is a
    connection was asked once, when the listeners were registered, and
    stays. *)
Definition World_set_services (v : World) (w : World) : World :=
  {| remoteIndicatorMenu := remoteIndicatorMenu v;
     legacyIndicatorMenu := legacyIndicatorMenu v;
     getVirtualWorkspaceLocation := getVirtualWorkspaceLocation v;
     getHostLabel := getHostLabel v;
     getHostTooltip := getHostTooltip v;
     extensionGallery_isEnabled := extensionGallery_isEnabled v;
     hasConnection := hasConnection w |}.

(** The listener [updateRemoteActions] of both menus. *)
Definition updateRemoteActions (h : Host) (w : World)
    (s : RemoteStatusIndicator) : RemoteStatusIndicator :=
  snd (updateRemoteStatusIndicator h w (set_remoteMenuActionsGroups None s)).

(** The listeners [() => quickPick.items = computeItems()] of the quick
    picks that are shown, one after the other; a listener that throws
    leaves the items of its quick pick, and the next ones still run. *)
Fixpoint refreshQuickPicks (h : Host) (w : World)
    (picks : list (list QuickPickEntry)) (s : RemoteStatusIndicator)
    : list (list QuickPickEntry) * RemoteStatusIndicator :=
  match picks with
  | [] => ([], s)
  | shown :: rest =>
      let '(items, s1) := computeItems h w s in
      let '(rest', s2) := refreshQuickPicks h w rest s1 in
      (match items with Returns items => items | Throws => shown end :: rest', s2)
  end.

Definition menuDidChange (h : Host) (w : World) (sys : System) : System :=
  let s1 := updateRemoteActions h w (self sys) in
  let '(picks, s2) := refreshQuickPicks h w (quickPicks sys) s1 in
  {| world := w; self := s2; pending := pending sys; quickPicks := picks |}.

(** The constructor, up to the first suspension of
    [updateWhenInstalledExtensionsRegistered]; [registerActions] and
    [registerListeners] only register. *)
Definition construct (h : Host) (w : World) (authority : option string) : System :=
  let s :=
    {| remoteStatusEntry := None;
       windowIndicator := Some initialWindowIndicator;
       remoteMenuActionsGroups := None;
       remoteAuthority := authority;
       virtualWorkspaceLocation := None;
       connectionState := None;
       connectionStateContextKey := "";
       loggedInvalidGroupNames := ∅;
       trace := [] |} in
  let s :=
    match truthy (remoteAuthority s) with
    | Some _ =>
        let s := set_connectionState (Some initializing) s in
        connectionStateContextKey_set (stateName initializing) s
    | None => updateVirtualWorkspaceLocation w s
    end in
  let s := snd (updateRemoteStatusIndicator h w s) in
  {| world := w; self := s; pending := AwaitingInstalledExtensions; quickPicks := [] |}.

Definition with_self (sys : System) (w : World) (s : RemoteStatusIndicator) : System :=
  {| world := w; self := s; pending := pending sys; quickPicks := quickPicks sys |}.

(** One delivery.  A listener that was not registered, or a continuation
    that is not awaited, leaves the component as it is. *)
Definition step (h : Host) (sys : System) (ev : Event) : System :=
  let s := self sys in
  match ev with
  | remoteIndicatorMenu_onDidChange actions =>
      menuDidChange h (World_set_remoteIndicatorMenu actions (world sys)) sys
  | legacyIndicatorMenu_onDidChange actions =>
      menuDidChange h (World_set_legacyIndicatorMenu actions (world sys)) sys
  | labelService_onDidChangeFormatters l t =>
      let w := World_set_formatters l t (world sys) in
      with_self sys w (snd (updateRemoteStatusIndicator h w s))
  | connection_onDidStateChange e =>
      match truthy (remoteAuthority s), hasConnection (world sys) with
      | Some _, true => with_self sys (world sys) (onDidStateChange h (world sys) e s)
      | _, _ => sys
      end
  | workspace_onDidChangeWorkbenchState location =>
      let w := World_set_workspace location (world sys) in
      match truthy (remoteAuthority s) with
      | Some _ => with_self sys w s
      | None =>
          with_self sys w
            (snd (updateRemoteStatusIndicator h w (updateVirtualWorkspaceLocation w s)))
      end
  | whenInstalledExtensionsRegistered_resolved =>
      match pending sys with
      | AwaitingInstalledExtensions =>
          {| world := world sys;
             self := snd (updateRemoteStatusIndicator h (world sys) s);
             pending :=
               match truthy (remoteAuthority s) with
               | Some _ => AwaitingResolution
               | None => NothingPending
               end;
             quickPicks := quickPicks sys |}
      | _ => sys
      end
  | resolveAuthority_settled resolved =>
      match pending sys with
      | AwaitingResolution =>
          {| world := world sys;
             self :=
               if resolved then setState h (world sys) connected s
               else setState h (world sys) disconnected s;
             pending := NothingPending;
             quickPicks := quickPicks sys |}
      | _ => sys
      end
  | command_showRemoteMenu =>
      let '(items, s1) := computeItems h (world sys) s in
      {| world := world sys; self := s1; pending := pending sys;
         quickPicks :=
           match items with
           | Returns items => quickPicks sys ++ [items]
           | Throws => quickPicks sys
           end |}
  | quickPick_onDidHide index =>
      {| world := world sys; self := s; pending := pending sys;
         quickPicks := delete index (quickPicks sys) |}
  | services_changed w => with_self sys (World_set_services w (world sys)) s
  end.

Definition run (h : Host) (sys : System) (events : list Event) : System :=
  fold_left (step h) events sys.

(** The systems a component can be in: constructed, then any deliveries. *)
Inductive Reachable (h : Host) : System → Prop :=
| Reachable_construct w authority : Reachable h (construct h w authority)
| Reachable_step sys ev : Reachable h sys → Reachable h (step h sys ev).

(** ** What the properties are stated with *)

(** The group key format as the specification gives it for the external
    interfaces: as [groupNamePattern] but for its last part, one or more
    of [.]. *)
Definition specGroupKeyPattern : RegExp :=
  ((Lit "remote" ∣ Lit "virtualfs") ⋅ Chr "_" ⋅
   (CharClass isDigit ⋅ CharClass isDigit) ⋅ Chr "_" ⋅
   (CharClass isLower ⋅ Star (CharClass isNameChar)) ⋅ Chr "_" ⋅
   (CharClass isDot ⋅ Star (CharClass isDot)))%re.

(** The transition table: the state a lifecycle event leads to, and the
    state an outcome of the resolution leads to. *)
Definition eventTarget (e : PersistentConnectionEventType) : ConnectionState :=
  match e with
  | ConnectionLost | ReconnectionRunning | ReconnectionWait => reconnecting
  | ReconnectionPermanentFailure => disconnected
  | ConnectionGain => connected
  end.

Definition resolutionTarget (resolved : bool) : ConnectionState :=
  if resolved then connected else disconnected.

(** The coarse projection of the connection state. *)
Definition coarseProjection (c : option ConnectionState) : string :=
  match c with
  | None => ""
  | Some reconnecting => "disconnected"
  | Some c => stateName c
  end.

(** The code units [units] are a group key made of these parts, joined by
    [_]: [remote] or [virtualfs]; an order of two digits [0] to [9] (48 to
    57); a name that starts with a letter [a] to [z] (97 to 122) and goes
    on with such letters, digits, [+] (43), [.] (46) and [-] (45); and a
    grouping in which there is no line feed (10), carriage return (13),
    U+2028 (8232) or U+2029 (8233). *)
Definition GroupKeyParts (kind : string) (d1 d2 c : N)
    (name grouping : list N) (units : list N) : Prop :=
  units = codeUnits kind ++ codeUnits "_" ++ [d1; d2] ++ codeUnits "_"
          ++ (c :: name) ++ codeUnits "_" ++ grouping
  ∧ (kind = "remote" ∨ kind = "virtualfs")
  ∧ (48 ≤ d1 ≤ 57)%N ∧ (48 ≤ d2 ≤ 57)%N
  ∧ (97 ≤ c ≤ 122)%N
  ∧ Forall (λ u, (97 ≤ u ≤ 122 ∨ 48 ≤ u ≤ 57 ∨ u = 43 ∨ u = 46 ∨ u = 45)%N) name
  ∧ Forall (λ u, u ≠ 10%N ∧ u ≠ 13%N ∧ u ≠ 8232%N ∧ u ≠ 8233%N) grouping.

(** The entry of the window indicator: its label cut to the maximal length
    when there is a remote authority, the bare icon otherwise, with its
    tooltip and its command. *)
Definition windowIndicatorText (h : Host) (authority : option string) : string :=
  match truthy authority with
  | Some _ => truncate h (wi_label initialWindowIndicator) REMOTE_STATUS_LABEL_MAX_LENGTH
  | None => "$(remote)"
  end.

Definition windowIndicatorEntry (h : Host) (authority : option string)
    : IStatusbarEntry :=
  {| se_name := nls_localize h "remoteHost" "Remote Host" [];
     se_ariaLabel := getCodiconAriaLabel h (windowIndicatorText h authority);
     se_text := windowIndicatorText h authority;
     se_showProgress := None;
     se_tooltip := Some (TooltipString (wi_tooltip initialWindowIndicator));
     se_command := wi_command initialWindowIndicator |}.

(** The messages given to [logService.warn], in order. *)
Definition warnings (tr : list Effect) : list string :=
  omap (λ e, match e with logService_warn m => Some m | _ => None end) tr.

(** What a trace may hold when only the window indicator is ever shown:
    no disposal, entries of the window indicator only, and context key
    values among the three coarse ones. *)
Definition windowIndicatorEffect (h : Host) (authority : option string)
    (e : Effect) : Prop :=
  match e with
  | logService_warn _ => True
  | statusbar_addEntry p | statusbar_update p => p = windowIndicatorEntry h authority
  | statusbar_dispose => False
  | contextKey_set v => v = "initializing" ∨ v = "connected" ∨ v = "disconnected"
  end.

(** ** Relations between states, and invariants *)

(** [s'] has the window indicator, the authority, the workspace location,
    the connection state and the context key of [s]. *)
Record sameCore (s s' : RemoteStatusIndicator) : Prop := {
  core_windowIndicator : windowIndicator s' = windowIndicator s;
  core_remoteAuthority : remoteAuthority s' = remoteAuthority s;
  core_virtualWorkspaceLocation :
    virtualWorkspaceLocation s' = virtualWorkspaceLocation s;
  core_connectionState : connectionState s' = connectionState s;
  core_contextKey : connectionStateContextKey s' = connectionStateContextKey s
}.

(** Every warning of the trace is the message of a rejected group that is
    recorded as logged, and no message occurs twice. *)
Record LogInv (s : RemoteStatusIndicator) : Prop := {
  log_nodup : NoDup (warnings (trace s));
  log_rejected : ∀ m, m ∈ warnings (trace s) →
    ∃ g, m = invalidGroupMessage g
         ∧ accepts groupNamePattern g = false
         ∧ loggedInvalidGroupNames s !! g = Some true
}.

(** The trace holds what the window indicator allows, and the status bar
    entry is [entry]. *)
Record TraceInv (h : Host) (a : option string) (entry : option IStatusbarEntry)
    (s : RemoteStatusIndicator) : Prop := {
  inv_log : LogInv s;
  inv_effects : Forall (windowIndicatorEffect h a) (trace s);
  inv_entry : remoteStatusEntry s = entry
}.

(** The invariant of a component of authority [a]. *)
Record Inv (h : Host) (a : option string) (entry : option IStatusbarEntry)
    (s : RemoteStatusIndicator) : Prop := {
  inv_windowIndicator : windowIndicator s = Some initialWindowIndicator;
  inv_remoteAuthority : remoteAuthority s = a;
  inv_contextKey :
    connectionStateContextKey s = coarseProjection (connectionState s);
  inv_trace : TraceInv h a entry s
}.

(** The invariant of a system: that of its component, with the entry of
    the window indicator in the status bar. *)
Definition SysInv (h : Host) (a : option string) (sys : System) : Prop :=
  Inv h a (Some (windowIndicatorEntry h a)) (self sys).

(** A comparison function that orders its arguments: any two are
    comparable, and "not after" is transitive.  [sort] asks this much of
    its [comparefn] for the result to be determined. *)
Record ConsistentComparator {A : Type} (comparefn : A → A → Z) : Prop := {
  comparator_total : ∀ x y, (comparefn x y ≤ 0)%Z ∨ (comparefn y x ≤ 0)%Z;
  comparator_trans : ∀ x y z,
    (comparefn x y ≤ 0)%Z → (comparefn y z ≤ 0)%Z → (comparefn x z ≤ 0)%Z
}.

(** [x] is not after [y] for a comparison function. *)
Definition notAfter {A : Type} (comparefn : A → A → Z) (x y : A) : Prop :=
  (comparefn x y ≤ 0)%Z.

(** What the ordering example takes from the platform: the remote name of
    the authority [ssh] is [ssh], the pattern made from it finds the two
    [ssh] keys and not the [virtualfs] key, and [remote_01_ssh_a] comes
    after [remote_00_ssh_c] for [localeCompare]. *)
Definition SshExampleHost (h : Host) : Prop :=
  getRemoteName h "ssh" = "ssh"
  ∧ (∃ test, RegExp_new h "^remote_\d\d_ssh_" = Some test
             ∧ test "remote_01_ssh_a" = true
             ∧ test "virtualfs_00_git_b" = false
             ∧ test "remote_00_ssh_c" = true)
  ∧ (0 < localeCompare h "remote_01_ssh_a" "remote_00_ssh_c")%Z.

(** The plain menu actions of a group, in order: the ones the loop emits
    an item for. *)
Definition plainActions (actions : list MenuAction) : list CommandAction :=
  omap (λ a, match a with MenuItemAction item => Some item | _ => None end) actions.

Definition itemOfAction (item : CommandAction) : QuickPickEntry :=
  QuickPickItem (ca_id item) (titleLabel item) false.

(** The labels of the separators of a list of entries, in order, and the
    label of the last of them: absent when it has no label and when there
    is no separator. *)
Definition separators (items : list QuickPickEntry) : list (option string) :=
  omap (λ e, match e with QuickPickSeparator l => Some l | _ => None end) items.

Definition lastSeparatorLabel (items : list QuickPickEntry) : option string :=
  match last (separators items) with
  | Some l => l
  | None => None
  end.

(** All the actions of a group are plain menu actions of this category. *)
Definition allOfCategory (category : string) (g : ActionGroup) : Prop :=
  Forall (λ a, ∃ item, a = MenuItemAction item
                       ∧ getCategoryLabel item = Some category) (snd g).

(** ** A host and a world to run the component in

    English messages with their arguments filled in, [truncate] with its
    ellipsis, the remote name up to the first [+], a pattern engine that
    knows [^], [\d] and plain characters and refuses any other pattern,
    and comparison by code units. *)

Fixpoint formatMessage (message : string) (args : list string) : string :=
  match message with
  | String "{" (String d (String "}" rest)) =>
      if isDigit (N_of_ascii d) then
        match args !! (N.to_nat (N_of_ascii d) - 48)%nat with
        | Some a => a +:+ formatMessage rest args
        | None => String "{" (String d (String "}" (formatMessage rest args)))
        end
      else String "{" (String d (String "}" (formatMessage rest args)))
  | String c rest => String c (formatMessage rest args)
  | EmptyString => EmptyString
  end.

Definition exampleTruncate (value : string) (maxLength : nat) : string :=
  if (String.length value <=? maxLength)%nat then value
  else substring 0 maxLength value +:+ "…".

Fixpoint upToPlus (s : string) : string :=
  match s with
  | EmptyString => EmptyString
  | String c rest => if Ascii.eqb c "+" then EmptyString else String c (upToPlus rest)
  end.

Definition isMetaChar (u : N) : bool :=
  existsb (N.eqb u) (codeUnits "\^$.*+?()[]{}|").

(** The patterns the example engine takes: code units that stand for
    themselves and [\d]. *)
Fixpoint compilePlain (source : list N) : option RegExp :=
  match source with
  | [] => Some Epsilon
  | u :: rest =>
      match rest with
      | u' :: rest' =>
          if N.eqb u (N_of_ascii "\") && N.eqb u' (N_of_ascii "d") then
            option_map (Seq (CharClass isDigit)) (compilePlain rest')
          else if isMetaChar u then None
          else option_map (Seq (CharClass (N.eqb u))) (compilePlain rest)
      | [] =>
          if isMetaChar u then None
          else option_map (Seq (CharClass (N.eqb u))) (compilePlain rest)
      end
  end.

Definition anyChar : RegExp := CharClass (λ _, true).

Definition exampleRegExp (source : string) : option (string → bool) :=
  match codeUnits source with
  | u :: rest =>
      if N.eqb u (N_of_ascii "^") then
        option_map (λ r, accepts (r ⋅ Star anyChar)) (compilePlain rest)
      else
        option_map (λ r, accepts (Star anyChar ⋅ r ⋅ Star anyChar))
          (compilePlain (u :: rest))
  | [] =>
      option_map (λ r, accepts (Star anyChar ⋅ r ⋅ Star anyChar)) (compilePlain [])
  end.

Definition codeUnitCompare (a b : string) : Z :=
  match String.compare a b with
  | Lt => (-1)%Z
  | Eq => 0%Z
  | Gt => 1%Z
  end.

Definition exampleHost : Host :=
  {| nls_localize := λ _ message args, formatMessage message args;
     truncate := exampleTruncate;
     getCodiconAriaLabel := λ text, text;
     getRemoteName := upToPlus;
     RegExp_new := exampleRegExp;
     localeCompare := codeUnitCompare;
     Schemas_vscodeRemote := "vscode-remote";
     ReloadWindowAction_ID := "workbench.action.reloadWindow";
     LIST_WORKSPACE_UNSUPPORTED_EXTENSIONS_COMMAND_ID :=
       "workbench.extensions.action.listWorkspaceUnsupportedExtensions" |}.

Definition exampleWorld : World :=
  {| remoteIndicatorMenu := [];
     legacyIndicatorMenu := [];
     getVirtualWorkspaceLocation := None;
     getHostLabel := λ _ _, "";
     getHostTooltip := λ _ _, None;
     extensionGallery_isEnabled := false;
     hasConnection := true |}.

Definition exampleAction (id title category : string) : MenuAction :=
  MenuItemAction
    {| ca_id := id; ca_title := PlainString title;
       ca_category := Some (PlainString category) |}.

(** ** The commands of the component

    [registerActions]: what is given to [registerAction2], in order, and
    the item appended to the File menu. *)

(** An [Action2] descriptor; the one precondition of this file is
    [ContextKeyExpr.or(RemoteNameContext, VirtualWorkspaceContext)]. *)
Record Action2 : Type := {
  a2_id : string;
  a2_category : LocalizableString;
  a2_title : LocalizableString;
  a2_f1 : bool;
  a2_precondition : bool
}.

(** An item of [MenuId.MenubarFileMenu]; [mi_order2] is twice its order
    (the order is 3.5). *)
Record MenubarItem : Type := {
  mi_group : string;
  mi_command : string;
  mi_title : string;
  mi_order2 : Z
}.

Definition registerActions (h : Host) (w : World) (authority : option string)
    : list Action2 * list MenubarItem :=
  let category := LocalizedString (nls_localize h "remote.category" "Remote" []) "Remote" in
  let actions :=
    [ {| a2_id := REMOTE_ACTIONS_COMMAND_ID; a2_category := category;
         a2_title := LocalizedString (nls_localize h "remote.showMenu" "Show Remote Menu" [])
                       "Show Remote Menu";
         a2_f1 := true; a2_precondition := false |};
      {| a2_id := "remote.logRemoteAuthority"; a2_category := category;
         a2_title := LocalizedString (nls_localize h "remote.authority" "Log Remote Authority" [])
                       "Log Remote Authority";
         a2_f1 := true; a2_precondition := true |};
      {| a2_id := "remote.logVirtualWorkspaceLocation"; a2_category := category;
         a2_title := LocalizedString
                       (nls_localize h "remote.virtualWorkspaceLocation"
                          "Log Virtual Workspace Location" [])
                       "Log Virtual Workspace Location";
         a2_f1 := true; a2_precondition := true |};
      {| a2_id := "remote.logExtensionGalleryService"; a2_category := category;
         a2_title := LocalizedString
                       (nls_localize h "remote.extensionGalleryService"
                          "Log Extension Gallery Service" [])
                       "Log Extension Gallery Service";
         a2_f1 := true; a2_precondition := true |};
      {| a2_id := CONNECT_REMOTE_COMMAND_ID; a2_category := category;
         a2_title := LocalizedString
                       (nls_localize h "remote.connect" "Connect Remote Authority" [])
                       "Open Remote Connection";
         a2_f1 := true; a2_precondition := true |} ] in
  let '(actions, menubar) :=
    if SHOW_CLOSE_REMOTE_COMMAND_ID then
      (actions ++
       [ {| a2_id := CLOSE_REMOTE_COMMAND_ID; a2_category := category;
            a2_title := LocalizedString
                          (nls_localize h "remote.close" "Close Remote Connection" [])
                          "Close Remote Connection";
            a2_f1 := true; a2_precondition := true |} ],
       match truthy authority with
       | Some _ =>
           [ {| mi_group := "6_close"; mi_command := CLOSE_REMOTE_COMMAND_ID;
                mi_title := nls_localize h "miCloseRemote" "Close Re&&mote Connection" [];
                mi_order2 := 7 |} ]
       | None => []
       end)
    else (actions, []) in
  let actions :=
    if extensionGallery_isEnabled w then
      actions ++
      [ {| a2_id := INSTALL_REMOTE_EXTENSIONS_ID; a2_category := category;
           a2_title := LocalizedString
                         (nls_localize h "remote.install"
                            "Install Remote Development Extensions" [])
                         "Install Remote Development Extensions";
           a2_f1 := true; a2_precondition := false |} ]
    else actions in
  (actions, menubar).

(** ** The commands to connect and to close

    Their [run] works on the page: its host, its local storage, and the
    calls it makes.  A call of the page may throw; what throws in a run is
    given by [Faults].  The [try] of each [run] ignores what is thrown. *)

Inductive BrowserCall : Type :=
| console_log (args : list (option string))
| hostService_openWindow (forceReuseWindow : bool) (remoteAuthority : option string)
| location_reload.

Record Browser : Type := {
  location_host : string;
  localStorage : gmap string string;
  browserCalls : list BrowserCall
}.

Record Faults : Type := {
  setItem_throws : bool;
  removeItem_throws : bool;
  getItem_throws : bool;
  openWindow_throws : bool;
  reload_throws : bool
}.

(** A statement of a [try] block: it runs on the page and returns or
    throws. *)
Definition Try (A : Type) : Type := Browser → Outcome A * Browser.

Global Instance Try_ret : MRet Try := λ A a b, (Returns a, b).

Global Instance Try_bind : MBind Try :=
  λ A B k m b, match m b with
               | (Returns a, b') => k a b'
               | (Throws, b') => (Throws, b')
               end.

(** [try { block } catch (error) { /* ignore */ }] *)
Definition tryIgnore {A} (block : Try A) (b : Browser) : Browser := snd (block b).

Definition store (m : gmap string string) (b : Browser) : Browser :=
  {| location_host := location_host b; localStorage := m;
     browserCalls := browserCalls b |}.

Definition call (c : BrowserCall) (b : Browser) : Browser :=
  {| location_host := location_host b; localStorage := localStorage b;
     browserCalls := browserCalls b ++ [c] |}.

Definition window_location_host : Try string := λ b, (Returns (location_host b), b).

Definition localStorage_setItem (f : Faults) (key value : string) : Try unit :=
  λ b, if setItem_throws f then (Throws, b)
       else (Returns tt, store (<[key := value]> (localStorage b)) b).

Definition localStorage_removeItem (f : Faults) (key : string) : Try unit :=
  λ b, if removeItem_throws f then (Throws, b)
       else (Returns tt, store (delete key (localStorage b)) b).

Definition localStorage_getItem (f : Faults) (key : string) : Try (option string) :=
  λ b, if getItem_throws f then (Throws, b)
       else (Returns (localStorage b !! key), b).

Definition console_log_ (args : list (option string)) : Try unit :=
  λ b, (Returns tt, call (console_log args) b).

Definition openWindow (f : Faults) (remoteAuthority : option string) : Try unit :=
  λ b, if openWindow_throws f then (Throws, b)
       else (Returns tt, call (hostService_openWindow true remoteAuthority) b).

Definition window_location_reload (f : Faults) : Try unit :=
  λ b, if reload_throws f then (Throws, b)
       else (Returns tt, call location_reload b).

(** The key of both commands: [window.location.host+'remoteAuthority']. *)
Definition remoteAuthorityKey (host : string) : string := host +:+ "remoteAuthority".

(** [run] of the command [CONNECT_REMOTE_COMMAND_ID]. *)
Definition connectRun (f : Faults) : Browser → Browser :=
  tryIgnore (
    host ← window_location_host;
    let rak := remoteAuthorityKey host in
    host' ← window_location_host;
    localStorage_setItem f rak host';;
    value ← localStorage_getItem f rak;
    console_log_ [Some "set"; Some rak; value];;
    host'' ← window_location_host;
    openWindow f (Some host'');;
    window_location_reload f).

(** [run] of the command [CLOSE_REMOTE_COMMAND_ID]. *)
Definition closeRun (f : Faults) : Browser → Browser :=
  tryIgnore (
    host ← window_location_host;
    let rak := remoteAuthorityKey host in
    openWindow f None;;
    localStorage_removeItem f rak;;
    value ← localStorage_getItem f rak;
    console_log_ [Some "clear"; Some rak; value];;
    window_location_reload f).

Definition noFaults : Faults :=
  {| setItem_throws := false; removeItem_throws := false;
     getItem_throws := false; openWindow_throws := false;
     reload_throws := false |}.

(** ** More to state properties with *)

(** The entry the status bar holds after the calls of a trace. *)
Definition entryOfTrace (tr : list Effect) : option IStatusbarEntry :=
  fold_left
    (λ entry e,
       match e with
       | statusbar_addEntry p | statusbar_update p => Some p
       | statusbar_dispose => None
       | _ => entry
       end) tr None.

(** [s'] is [s] after some warnings: the same status bar entry, and a
    trace longer by calls to [logService.warn] only. *)
Definition Logged (s s' : RemoteStatusIndicator) : Prop :=
  remoteStatusEntry s' = remoteStatusEntry s
  ∧ ∃ logged, trace s' = trace s ++ logged
              ∧ Forall (λ e, ∃ m, e = logService_warn m) logged.

(** The one call to the status bar that takes the entry [before] to the
    entry [after], if any. *)
Definition statusbarCall (before after : option IStatusbarEntry) : list Effect :=
  match before, after with
  | None, None => []
  | None, Some p => [statusbar_addEntry p]
  | Some _, Some p => [statusbar_update p]
  | Some _, None => [statusbar_dispose]
  end.

(** [s'] is [s] after some warnings and then that one call. *)
Definition Shown (s s' : RemoteStatusIndicator) : Prop :=
  ∃ logged, trace s' =
            trace s ++ logged
            ++ statusbarCall (remoteStatusEntry s) (remoteStatusEntry s')
            ∧ Forall (λ e, ∃ m, e = logService_warn m) logged.

(** What a rebuild of the cache gives in a world. *)
Definition rebuiltGroups (w : World) : list ActionGroup :=
  List.filter (λ a, accepts groupNamePattern (fst a)) (remoteIndicatorMenu w)
  ++ legacyIndicatorMenu w.

(** The groups [getRemoteMenuActions()] answers in a state: the cached
    ones, or without a cache the rebuilt ones. *)
Definition currentGroups (w : World) (s : RemoteStatusIndicator) : list ActionGroup :=
  match remoteMenuActionsGroups s with
  | Some cached => cached
  | None => rebuiltGroups w
  end.



(** The groups in the order of the menu: sorted when there is a matcher,
    as they are otherwise. *)
Definition orderedBy (h : Host) (matcher : option (string → bool))
    (groups : list ActionGroup) : list ActionGroup :=
  match matcher with
  | Some test => Array_sort (compareGroups h test) groups
  | None => groups
  end.


(** The entries of a list that are items. *)
Definition itemsOnly (entries : list QuickPickEntry) : list QuickPickEntry :=
  List.filter (λ e, match e with QuickPickItem _ _ _ => true | _ => false end) entries.

(** The ids of the items of a list of entries. *)
Definition itemIds (entries : list QuickPickEntry) : list string :=
  omap (λ e, match e with QuickPickItem id _ _ => Some id | _ => None end) entries.

(** From [s] to [s'] the trace grows, and not by a write of the context
    key. *)
Definition Quiet (s s' : RemoteStatusIndicator) : Prop :=
  ∃ more, trace s' = trace s ++ more
          ∧ Forall (λ e, ∀ v, e ≠ contextKey_set v) more.

(** What holds of a component without a remote authority: it has no
    connection state, its context key is empty and was never written, and
    no resolution is awaited. *)
Definition LocalWindow (sys : System) : Prop :=
  connectionState (self sys) = None
  ∧ connectionStateContextKey (self sys) = ""
  ∧ Forall (λ e, ∀ v, e ≠ contextKey_set v) (trace (self sys))
  ∧ pending sys ≠ AwaitingResolution.

(** What holds of a component with a remote authority: it has a connection
    state and no virtual workspace location; once the resolution has
    settled the state is not [initializing]; without a connection object
    the state is never [reconnecting], and is [initializing] until the
    resolution settles. *)
Definition RemoteWindow (sys : System) : Prop :=
  is_Some (connectionState (self sys))
  ∧ virtualWorkspaceLocation (self sys) = None
  ∧ (pending sys = NothingPending →
     connectionState (self sys) ≠ Some initializing)
  ∧ (hasConnection (world sys) = false →
     connectionState (self sys) ≠ Some reconnecting
     ∧ (pending sys ≠ NothingPending →
        connectionState (self sys) = Some initializing)).

(** ** Tactics for lists that are written out *)

(** [x ∈ l] and [x ∉ l] for a list of literals. *)
Ltac in_list :=
  solve [repeat first [apply list_elem_of_here | apply list_elem_of_further]].

Ltac not_in_list :=
  let Hin := fresh "Hin" in
  intros Hin;
  repeat (apply elem_of_cons in Hin as [Hin | Hin]; [discriminate Hin |]);
  apply elem_of_nil in Hin; exact Hin.

(* ================================================================== *)
(** * Part II: properties                                              *)
(* ================================================================== *)

(** ** The matcher decides the language of a pattern *)

Section RegExpTheory.

Local Arguments String.append !_ _ / : simpl nomatch.

Lemma append_nil_inv (s1 s2 : string) : s1 +:+ s2 = "" → s1 = "" ∧ s2 = "".
Proof. destruct s1; simpl; [auto | discriminate]. Qed.

Lemma append_cons_inv (s1 s2 : string) c s :
  s1 +:+ s2 = String c s →
  (s1 = "" ∧ s2 = String c s) ∨ (∃ s1', s1 = String c s1' ∧ s = s1' +:+ s2).
Proof.
  destruct s1 as [|c1 s1]; simpl; intros E.
  - left; auto.
  - right. injection E as -> <-. eauto.
Qed.

Lemma app_cons_inv {A} (l1 l2 : list A) x l :
  l1 ++ l2 = x :: l →
  (l1 = [] ∧ l2 = x :: l) ∨ (∃ l1', l1 = x :: l1' ∧ l = l1' ++ l2).
Proof.
  destruct l1 as [|y l1]; simpl; intros E.
  - left; auto.
  - right. injection E as -> <-. eauto.
Qed.

Lemma Matches_Never_inv s : Matches Never s → False.
Proof. inversion 1. Qed.

Lemma Matches_Epsilon_inv s : Matches Epsilon s → s = [].
Proof. inversion 1; reflexivity. Qed.

Lemma Matches_CharClass_inv p s :
  Matches (CharClass p) s → ∃ u, s = [u] ∧ p u = true.
Proof. inversion 1; subst; eauto. Qed.

Lemma Matches_Seq_inv r1 r2 s :
  Matches (Seq r1 r2) s →
  ∃ s1 s2, s = s1 ++ s2 ∧ Matches r1 s1 ∧ Matches r2 s2.
Proof. inversion 1; subst; eauto. Qed.

Lemma Matches_Alt_inv r1 r2 s :
  Matches (Alt r1 r2) s → Matches r1 s ∨ Matches r2 s.
Proof. inversion 1; subst; auto. Qed.

(** A non-empty match of a star starts with a non-empty match of its
    body. *)
Lemma Matches_Star_cons_inv r u s :
  Matches (Star r) (u :: s) →
  ∃ s1 s2, s = s1 ++ s2 ∧ Matches r (u :: s1) ∧ Matches (Star r) s2.
Proof.
  intros H. remember (Star r) as r' eqn:Er. remember (u :: s) as t eqn:Et.
  revert s Et. induction H; intros s' Et; try discriminate.
  injection Er as ->.
  apply app_cons_inv in Et as [[-> ->] | (s1' & -> & ->)].
  - apply IHMatches2; reflexivity.
  - eauto.
Qed.

Lemma nullable_Matches r : nullable r = true ↔ Matches r [].
Proof.
  induction r as [| | p | r1 IH1 r2 IH2 | r1 IH1 r2 IH2 | r IH]; simpl.
  - split; [discriminate | intros H; destruct (Matches_Never_inv _ H)].
  - split; [intros _; constructor | reflexivity].
  - split; [discriminate |].
    intros H. apply Matches_CharClass_inv in H as (c & E & _). discriminate.
  - rewrite andb_true_iff, IH1, IH2. split.
    + intros [H1 H2]. exact (MSeq _ _ [] [] H1 H2).
    + intros H. apply Matches_Seq_inv in H as (s1 & s2 & E & H1 & H2).
      symmetry in E. apply app_eq_nil in E as [-> ->]. auto.
  - rewrite orb_true_iff, IH1, IH2. split.
    + intros [H | H]; [apply MAltL | apply MAltR]; exact H.
    + apply Matches_Alt_inv.
  - split; [intros _; constructor | reflexivity].
Qed.

Lemma deriv_Matches u r : ∀ s, Matches (deriv u r) s ↔ Matches r (u :: s).
Proof.
  induction r as [| | p | r1 IH1 r2 IH2 | r1 IH1 r2 IH2 | r IH]; intros s; simpl.
  - split; intros H; destruct (Matches_Never_inv _ H).
  - split; intros H; [destruct (Matches_Never_inv _ H) |].
    apply Matches_Epsilon_inv in H. discriminate.
  - destruct (p u) eqn:Ep; split; intros H.
    + apply Matches_Epsilon_inv in H as ->. constructor; exact Ep.
    + apply Matches_CharClass_inv in H as (u' & E & _).
      injection E as _ ->. constructor.
    + destruct (Matches_Never_inv _ H).
    + apply Matches_CharClass_inv in H as (u' & E & Hp).
      injection E as <- _. congruence.
  - assert (Hfwd : Matches (Seq (deriv u r1) r2) s → Matches (Seq r1 r2) (u :: s)).
    { intros H. apply Matches_Seq_inv in H as (s1 & s2 & -> & H1 & H2).
      apply IH1 in H1. exact (MSeq _ _ (u :: s1) s2 H1 H2). }
    assert (Hbwd : Matches (Seq r1 r2) (u :: s) →
                   Matches (Seq (deriv u r1) r2) s
                   ∨ (Matches r1 [] ∧ Matches r2 (u :: s))).
    { intros H. apply Matches_Seq_inv in H as (s1 & s2 & E & H1 & H2).
      symmetry in E. apply app_cons_inv in E as [[-> ->] | (s1' & -> & ->)].
      - right; auto.
      - left. apply IH1 in H1. constructor; assumption. }
    destruct (nullable r1) eqn:En; split; intros H.
    + apply Matches_Alt_inv in H as [H | H]; [auto |].
      apply IH2 in H. apply nullable_Matches in En.
      exact (MSeq _ _ [] (u :: s) En H).
    + apply Hbwd in H as [H | [_ H]]; [apply MAltL; exact H |].
      apply MAltR, IH2, H.
    + auto.
    + apply Hbwd in H as [H | [H _]]; [exact H |].
      apply nullable_Matches in H. congruence.
  - split; intros H.
    + apply Matches_Alt_inv in H as [H | H];
        [apply MAltL, IH1, H | apply MAltR, IH2, H].
    + apply Matches_Alt_inv in H as [H | H];
        [apply MAltL, IH1, H | apply MAltR, IH2, H].
  - split; intros H.
    + apply Matches_Seq_inv in H as (s1 & s2 & -> & H1 & H2).
      apply IH in H1. exact (MStarCons _ (u :: s1) s2 H1 H2).
    + apply Matches_Star_cons_inv in H as (s1 & s2 & -> & H1 & H2).
      apply IH in H1. constructor; assumption.
Qed.

Lemma acceptsUnits_Matches units : ∀ r, acceptsUnits r units = true ↔ Matches r units.
Proof.
  induction units as [|u units IH]; intros r; simpl.
  - apply nullable_Matches.
  - rewrite IH. apply deriv_Matches.
Qed.

Lemma accepts_Matches s r : accepts r s = true ↔ Matches r (codeUnits s).
Proof. apply acceptsUnits_Matches. Qed.

Lemma Matches_Lit s : Matches (Lit s) (bytesOf s).
Proof.
  induction s as [|c s IH]; simpl; [constructor |].
  apply (MSeq (Chr c) (Lit s) [N_of_ascii c] (bytesOf s)); [| exact IH].
  constructor. apply N.eqb_refl.
Qed.

Lemma Matches_Lit_inv s t : Matches (Lit s) t → t = bytesOf s.
Proof.
  revert t. induction s as [|c s IH]; simpl; intros t H.
  - apply Matches_Epsilon_inv in H. exact H.
  - apply Matches_Seq_inv in H as (s1 & s2 & -> & H1 & H2).
    apply Matches_CharClass_inv in H1 as (u & -> & Hu).
    apply N.eqb_eq in Hu as <-. unfold bytesOf. simpl. f_equal. apply IH, H2.
Qed.

Lemma Matches_Chr_inv c t : Matches (Chr c) t → t = [N_of_ascii c].
Proof.
  intros H. apply Matches_CharClass_inv in H as (u & -> & Hu).
  apply N.eqb_eq in Hu as <-. reflexivity.
Qed.

(** A star of a class matches exactly the sequences of that class. *)
Lemma Matches_Star_class p s :
  Matches (Star (CharClass p)) s ↔ Forall (λ x, p x = true) s.
Proof.
  split.
  - intros H. remember (Star (CharClass p)) as r eqn:Er.
    induction H; try discriminate; simpl.
    + constructor.
    + injection Er as ->.
      apply Matches_CharClass_inv in H as (u & -> & Hu). simpl.
      constructor; auto.
  - induction s as [|u s IH]; simpl; intros H.
    + constructor.
    + inversion H as [|? ? Hu Hs]; subst.
      apply (MStarCons _ [u] s); [constructor; exact Hu | auto].
Qed.

(** An ASCII string has its bytes for code units. *)
Lemma decodeUtf8_ascii bytes :
  Forall (λ b, (b < 128)%N) bytes → decodeUtf8 bytes = bytes.
Proof.
  induction 1 as [|b bytes Hb _ IH]; [reflexivity |].
  apply N.ltb_lt in Hb. cbn [decodeUtf8]. rewrite Hb, IH. reflexivity.
Qed.

(** The classes of the pattern, by the numbers of their code units. *)
Lemma isDigit_spec u : isDigit u = true ↔ (48 ≤ u ≤ 57)%N.
Proof.
  unfold isDigit, inRange. rewrite andb_true_iff, !N.leb_le. reflexivity.
Qed.

Lemma isLower_spec u : isLower u = true ↔ (97 ≤ u ≤ 122)%N.
Proof.
  unfold isLower, inRange. rewrite andb_true_iff, !N.leb_le. reflexivity.
Qed.

Lemma isNameChar_spec u :
  isNameChar u = true ↔
  (97 ≤ u ≤ 122 ∨ 48 ≤ u ≤ 57 ∨ u = 43 ∨ u = 46 ∨ u = 45)%N.
Proof.
  unfold isNameChar. rewrite !orb_true_iff, isLower_spec, isDigit_spec, !N.eqb_eq.
  simpl. tauto.
Qed.

Lemma isDot_spec u :
  isDot u = true ↔ u ≠ 10%N ∧ u ≠ 13%N ∧ u ≠ 8232%N ∧ u ≠ 8233%N.
Proof.
  unfold isDot, isLineTerminator.
  rewrite negb_true_iff, !orb_false_iff, !N.eqb_neq. tauto.
Qed.

End RegExpTheory.

(** ** Validation of group names *)

Section Validation.

Local Arguments String.append !_ _ / : simpl nomatch.

Lemma validatedGroup_fst group st :
  fst (validatedGroup group st) = accepts groupNamePattern group.
Proof.
  unfold validatedGroup. destruct (accepts groupNamePattern group); reflexivity.
Qed.

(** The first four parts of both patterns. *)
Lemma Matches_key_prefix tail s :
  Matches ((Lit "remote" ∣ Lit "virtualfs") ⋅ Chr "_" ⋅
           (CharClass isDigit ⋅ CharClass isDigit) ⋅ Chr "_" ⋅
           (CharClass isLower ⋅ Star (CharClass isNameChar)) ⋅ Chr "_" ⋅
           tail)%re s ↔
  ∃ kind d1 d2 c name grouping,
    s = codeUnits kind ++ codeUnits "_" ++ [d1; d2] ++ codeUnits "_"
        ++ (c :: name) ++ codeUnits "_" ++ grouping
    ∧ (kind = "remote" ∨ kind = "virtualfs")
    ∧ isDigit d1 = true ∧ isDigit d2 = true ∧ isLower c = true
    ∧ Forall (λ x, isNameChar x = true) name
    ∧ Matches tail grouping.
Proof.
  split.
  - intros H.
    apply Matches_Seq_inv in H as (kind & t1 & -> & Hkind & H).
    apply Matches_Seq_inv in H as (u1 & t2 & -> & Hu1 & H).
    apply Matches_Chr_inv in Hu1 as ->.
    apply Matches_Seq_inv in H as (dd & t3 & -> & Hdd & H).
    apply Matches_Seq_inv in Hdd as (x1 & x2 & -> & Hd1 & Hd2).
    apply Matches_CharClass_inv in Hd1 as (d1 & -> & Hd1).
    apply Matches_CharClass_inv in Hd2 as (d2 & -> & Hd2).
    apply Matches_Seq_inv in H as (u2 & t4 & -> & Hu2 & H).
    apply Matches_Chr_inv in Hu2 as ->.
    apply Matches_Seq_inv in H as (nm & t5 & -> & Hnm & H).
    apply Matches_Seq_inv in Hnm as (y1 & name & -> & Hc & Hname).
    apply Matches_CharClass_inv in Hc as (c & -> & Hc).
    apply Matches_Star_class in Hname.
    apply Matches_Seq_inv in H as (u3 & grouping & -> & Hu3 & H).
    apply Matches_Chr_inv in Hu3 as ->.
    apply Matches_Alt_inv in Hkind as [Hk | Hk];
      apply Matches_Lit_inv in Hk as ->;
      [exists "remote" | exists "virtualfs"];
      exists d1, d2, c, name, grouping; repeat split; auto.
  - intros (kind & d1 & d2 & c & name & grouping & -> & Hkind & Hd1 & Hd2 & Hc & Hname & Hg).
    apply MSeq.
    { destruct Hkind as [-> | ->]; [apply MAltL | apply MAltR];
        apply Matches_Lit. }
    apply (MSeq (Chr "_") _ (codeUnits "_")); [constructor; reflexivity |].
    apply (MSeq _ _ [d1; d2]).
    { apply (MSeq _ _ [d1] [d2]); constructor; assumption. }
    apply (MSeq (Chr "_") _ (codeUnits "_")); [constructor; reflexivity |].
    apply (MSeq _ _ (c :: name)).
    { apply (MSeq _ _ [c] name); [constructor; assumption |].
      apply Matches_Star_class; assumption. }
    apply (MSeq (Chr "_") _ (codeUnits "_")); [constructor; reflexivity |].
    exact Hg.
Qed.

Lemma GroupKeyParts_classes kind d1 d2 c name grouping units :
  GroupKeyParts kind d1 d2 c name grouping units ↔
  units = codeUnits kind ++ codeUnits "_" ++ [d1; d2] ++ codeUnits "_"
          ++ (c :: name) ++ codeUnits "_" ++ grouping
  ∧ (kind = "remote" ∨ kind = "virtualfs")
  ∧ isDigit d1 = true ∧ isDigit d2 = true ∧ isLower c = true
  ∧ Forall (λ x, isNameChar x = true) name
  ∧ Forall (λ x, isDot x = true) grouping.
Proof.
  unfold GroupKeyParts.
  rewrite !isDigit_spec, isLower_spec.
  assert (Hn : Forall (λ x, isNameChar x = true) name ↔
               Forall (λ u, (97 ≤ u ≤ 122 ∨ 48 ≤ u ≤ 57 ∨ u = 43 ∨ u = 46 ∨ u = 45)%N)
                 name)
    by (apply Forall_iff; intros u; apply isNameChar_spec).
  assert (Hg : Forall (λ x, isDot x = true) grouping ↔
               Forall (λ u, u ≠ 10%N ∧ u ≠ 13%N ∧ u ≠ 8232%N ∧ u ≠ 8233%N) grouping)
    by (apply Forall_iff; intros u; apply isDot_spec).
  rewrite Hn, Hg. reflexivity.
Qed.

Lemma groupNamePattern_parts units :
  Matches groupNamePattern units ↔
  ∃ kind d1 d2 c name grouping, GroupKeyParts kind d1 d2 c name grouping units.
Proof.
  unfold groupNamePattern. rewrite Matches_key_prefix.
  split; intros (kind & d1 & d2 & c & name & grouping & H);
    exists kind, d1, d2, c, name, grouping;
    [apply GroupKeyParts_classes | apply GroupKeyParts_classes in H];
    rewrite Matches_Star_class in *; exact H.
Qed.

Lemma specGroupKeyPattern_parts units :
  Matches specGroupKeyPattern units ↔
  ∃ kind d1 d2 c name grouping,
    GroupKeyParts kind d1 d2 c name grouping units ∧ grouping ≠ [].
Proof.
  unfold specGroupKeyPattern. rewrite Matches_key_prefix.
  split.
  - intros (kind & d1 & d2 & c & name & grouping & E & Hk & H1 & H2 & Hc & Hn & Hg).
    exists kind, d1, d2, c, name, grouping.
    apply Matches_Seq_inv in Hg as (g1 & g2 & -> & Hg1 & Hg2).
    apply Matches_CharClass_inv in Hg1 as (x & -> & Hx).
    apply Matches_Star_class in Hg2.
    split; [| discriminate].
    apply GroupKeyParts_classes. repeat split; try assumption.
    simpl. constructor; assumption.
  - intros (kind & d1 & d2 & c & name & grouping & Hparts & Hne).
    apply GroupKeyParts_classes in Hparts
      as (E & Hk & H1 & H2 & Hc & Hn & Hg).
    exists kind, d1, d2, c, name, grouping.
    repeat split; try assumption.
    destruct grouping as [|x g]; [congruence |].
    inversion Hg; subst.
    apply (MSeq _ _ [x] g); [constructor; assumption |].
    apply Matches_Star_class; assumption.
Qed.

End Validation.

(** Claim C5, as amended.  For every string, [validatedGroup] answers true
    exactly when the code units of the string match the pattern of the
    source, that is when they are [remote] or [virtualfs], [_], two
    digits, [_], a name [[a-z][a-z0-9+.-]*], [_] and a grouping that may be
    empty and has no line terminator, of which there are four: line feed,
    carriage return, U+2028 and U+2029.  This holds of every sequence of
    code units, and the pattern of the specification is the same with a
    grouping that is not empty.  The code units of an ASCII string are its
    bytes.  [remote_00_ssh_auth] and
    [virtualfs_12_github_browse] are accepted, [foo_00_bar_baz] and
    [remote_1_ssh_x] are rejected; a grouping of other than ASCII
    characters is accepted, and one with any of the four line terminators
    is rejected. *)
Theorem validatedGroup_accepts_source_pattern
    (group : string) (st : RemoteStatusIndicator) :
  (fst (validatedGroup group st) = true ↔
   Matches groupNamePattern (codeUnits group))
  ∧ (fst (validatedGroup group st) = true ↔
     ∃ kind d1 d2 c name grouping,
       GroupKeyParts kind d1 d2 c name grouping (codeUnits group))
  ∧ (∀ units,
       acceptsUnits groupNamePattern units = true ↔
       ∃ kind d1 d2 c name grouping, GroupKeyParts kind d1 d2 c name grouping units)
  ∧ (∀ units,
       Matches specGroupKeyPattern units ↔
       ∃ kind d1 d2 c name grouping,
         GroupKeyParts kind d1 d2 c name grouping units ∧ grouping ≠ [])
  ∧ (Forall (λ b, (b < 128)%N) (bytesOf group) → codeUnits group = bytesOf group)
  ∧ fst (validatedGroup "remote_00_ssh_auth" st) = true
  ∧ fst (validatedGroup "virtualfs_12_github_browse" st) = true
  ∧ fst (validatedGroup "foo_00_bar_baz" st) = false
  ∧ fst (validatedGroup "remote_1_ssh_x" st) = false
  ∧ fst (validatedGroup "remote_00_ssh_héllo wörld €" st) = true
  ∧ fst (validatedGroup ("remote_00_ssh_a" +:+ String "010" "b") st) = false
  ∧ fst (validatedGroup ("remote_00_ssh_a" +:+ String "013" "b") st) = false
  ∧ codeUnits (String "226" (String "128" (String "168" ""))) = [8232%N]
  ∧ codeUnits (String "226" (String "128" (String "169" ""))) = [8233%N]
  ∧ fst (validatedGroup
           ("remote_00_ssh_a" +:+ String "226" (String "128" (String "168" "b")))
           st) = false
  ∧ fst (validatedGroup
           ("remote_00_ssh_a" +:+ String "226" (String "128" (String "169" "b")))
           st) = false.
Proof.
  rewrite !validatedGroup_fst, accepts_Matches.
  split; [reflexivity |].
  split; [apply groupNamePattern_parts |].
  split; [intros units; rewrite acceptsUnits_Matches; apply groupNamePattern_parts |].
  split; [apply specGroupKeyPattern_parts |].
  split; [apply decodeUtf8_ascii |].
  repeat split; vm_compute; reflexivity.
Qed.

(** Claim C5 as it is stated fails: a key whose grouping is empty is
    accepted by [validatedGroup] and does not match the pattern of the
    specification. *)
Lemma validatedGroup_accepts_empty_grouping :
  fst (validatedGroup "remote_00_ssh_"
         (self (construct exampleHost exampleWorld None))) = true
  ∧ ¬ Matches specGroupKeyPattern (codeUnits "remote_00_ssh_").
Proof.
  split; [vm_compute; reflexivity |].
  intros H. apply acceptsUnits_Matches in H. vm_compute in H. discriminate.
Qed.

(** ** The cache of menu contributions *)

Section Aggregation.

Lemma filterValidated_fst groups : ∀ st,
  fst (filterValidated groups st) =
  List.filter (λ a, accepts groupNamePattern (fst a)) groups.
Proof.
  induction groups as [|a rest IH]; intros st; simpl; [reflexivity |].
  pose proof (validatedGroup_fst (fst a) st) as Hv.
  destruct (validatedGroup (fst a) st) as [ok s1]. simpl in Hv. subst ok.
  specialize (IH s1). destruct (filterValidated rest s1) as [kept s2].
  simpl in *. subst kept. reflexivity.
Qed.

End Aggregation.

(** Claim C7.  With the cache set and no forced refresh,
    [getRemoteMenuActions] returns the cached sequence and changes nothing,
    so a second call returns the sequence of the first, whatever the menus
    have become; with the cache unset or a forced refresh, the result and
    the new cache are the groups of the current menu whose key is valid, in
    their order, followed by all the groups of the legacy menu, in their
    order. *)
Theorem getRemoteMenuActions_cache
    (w w' : World) (doNotUseCache : bool) (st : RemoteStatusIndicator) :
  (∀ cached, remoteMenuActionsGroups st = Some cached →
     getRemoteMenuActions w false st = (cached, st))
  ∧ (remoteMenuActionsGroups st = None ∨ doNotUseCache = true →
     let rebuilt :=
       List.filter (λ a, accepts groupNamePattern (fst a)) (remoteIndicatorMenu w)
       ++ legacyIndicatorMenu w in
     fst (getRemoteMenuActions w doNotUseCache st) = rebuilt
     ∧ remoteMenuActionsGroups (snd (getRemoteMenuActions w doNotUseCache st))
       = Some rebuilt)
  ∧ (let first := getRemoteMenuActions w doNotUseCache st in
     getRemoteMenuActions w' false (snd first) = (fst first, snd first)).
Proof.
  assert (Hrebuild : ∀ b,
    remoteMenuActionsGroups st = None ∨ b = true →
    getRemoteMenuActions w b st =
    (fst (filterValidated (remoteIndicatorMenu w) st) ++ legacyIndicatorMenu w,
     set_remoteMenuActionsGroups
       (Some (fst (filterValidated (remoteIndicatorMenu w) st) ++ legacyIndicatorMenu w))
       (snd (filterValidated (remoteIndicatorMenu w) st)))).
  { intros b Hb. unfold getRemoteMenuActions.
    destruct (filterValidated (remoteIndicatorMenu w) st) as [valid s1]; simpl.
    destruct (remoteMenuActionsGroups st) as [c|], b; try reflexivity.
    destruct Hb; discriminate. }
  split; [| split].
  - intros cached Hc. unfold getRemoteMenuActions. rewrite Hc. reflexivity.
  - intros Hb. rewrite (Hrebuild _ Hb). simpl.
    rewrite filterValidated_fst. split; reflexivity.
  - simpl. destruct (remoteMenuActionsGroups st) as [c|] eqn:Ec.
    + destruct doNotUseCache.
      * rewrite (Hrebuild true) by auto. reflexivity.
      * unfold getRemoteMenuActions at 2 3 4. rewrite Ec. simpl.
        unfold getRemoteMenuActions. rewrite Ec. reflexivity.
    + rewrite (Hrebuild doNotUseCache) by auto. reflexivity.
Qed.

(** Claim C7 at a run: a forced rebuild over one valid, one invalid and one
    legacy group, then a read of the cache. *)
Lemma getRemoteMenuActions_cache_witness :
  let w :=
    World_set_legacyIndicatorMenu [("legacy", [])]
      (World_set_remoteIndicatorMenu [("remote_00_ssh_a", []); ("bad", [])]
         exampleWorld) in
  let st := self (construct exampleHost exampleWorld None) in
  fst (getRemoteMenuActions w true st) = [("remote_00_ssh_a", []); ("legacy", [])]
  ∧ getRemoteMenuActions exampleWorld false (snd (getRemoteMenuActions w true st))
    = (fst (getRemoteMenuActions w true st), snd (getRemoteMenuActions w true st)).
Proof.
  intros w st.
  destruct (getRemoteMenuActions_cache w exampleWorld true st) as (_ & Hrebuilt & Hagain).
  split.
  - apply Hrebuilt. right. reflexivity.
  - exact Hagain.
Defined.

(** ** What the methods leave alone

    But for the constructor, [setState] and [updateVirtualWorkspaceLocation],
    no method assigns the window indicator, the authority, the workspace
    location, the connection state or the context key. *)

Section Frame.

Context (h : Host).

Lemma sameCore_refl s : sameCore s s.
Proof. split; reflexivity. Qed.

Lemma sameCore_trans s1 s2 s3 : sameCore s1 s2 → sameCore s2 s3 → sameCore s1 s3.
Proof. intros [] []. split; congruence. Qed.

Lemma validatedGroup_core group s : sameCore s (snd (validatedGroup group s)).
Proof.
  unfold validatedGroup. repeat case_match; simpl; split; reflexivity.
Qed.

Lemma filterValidated_core groups : ∀ s, sameCore s (snd (filterValidated groups s)).
Proof.
  induction groups as [|a rest IH]; intros s; simpl; [apply sameCore_refl |].
  pose proof (validatedGroup_core (fst a) s) as H1.
  destruct (validatedGroup (fst a) s) as [ok s1].
  specialize (IH s1). destruct (filterValidated rest s1) as [kept s2].
  simpl in *. eapply sameCore_trans; eassumption.
Qed.

Lemma getRemoteMenuActions_core w b s :
  sameCore s (snd (getRemoteMenuActions w b s)).
Proof.
  unfold getRemoteMenuActions.
  pose proof (filterValidated_core (remoteIndicatorMenu w) s) as H1.
  destruct (filterValidated (remoteIndicatorMenu w) s) as [valid s1].
  destruct (remoteMenuActionsGroups s), b; simpl in *;
    try apply sameCore_refl; destruct H1; split; assumption.
Qed.

Lemma renderRemoteStatusIndicator_core w text tooltip command progress s :
  sameCore s (renderRemoteStatusIndicator h w text tooltip command progress s).
Proof.
  unfold renderRemoteStatusIndicator.
  pose proof (getRemoteMenuActions_core w false s) as H1.
  destruct (getRemoteMenuActions w false s) as [groups s1].
  destruct command; repeat case_match; simplify_eq; simpl in *;
    try (split; reflexivity); destruct H1; split; assumption.
Qed.

Lemma disposeRemoteStatusEntry_core s : sameCore s (disposeRemoteStatusEntry s).
Proof. unfold disposeRemoteStatusEntry. case_match; split; reflexivity. Qed.

Lemma updateRemoteStatusIndicator_core w s :
  sameCore s (snd (updateRemoteStatusIndicator h w s)).
Proof.
  unfold updateRemoteStatusIndicator.
  pose proof (getRemoteMenuActions_core w false s) as H1.
  destruct (getRemoteMenuActions w false s) as [groups s1].
  repeat case_match; simplify_eq; simpl in *;
    try apply renderRemoteStatusIndicator_core;
    try (eapply sameCore_trans;
         [exact H1 | first [apply renderRemoteStatusIndicator_core
                           | apply disposeRemoteStatusEntry_core]]).
Qed.

Lemma orderedActionGroups_core w s :
  sameCore s (snd (orderedActionGroups h w s)).
Proof.
  unfold orderedActionGroups.
  pose proof (getRemoteMenuActions_core w true s) as H1.
  destruct (getRemoteMenuActions w true s) as [groups s1].
  destruct (matchCurrentRemote h s1) as [[test|]|]; simpl in *; try exact H1.
  destruct H1; split; assumption.
Qed.

Lemma computeItems_core w s : sameCore s (snd (computeItems h w s)).
Proof.
  unfold computeItems.
  pose proof (orderedActionGroups_core w s) as H1.
  destruct (orderedActionGroups h w s) as [[groups|] s1]; exact H1.
Qed.

Lemma refreshQuickPicks_core w picks : ∀ s,
  sameCore s (snd (refreshQuickPicks h w picks s)).
Proof.
  induction picks as [|p rest IH]; intros s; simpl; [apply sameCore_refl |].
  pose proof (computeItems_core w s) as H1.
  destruct (computeItems h w s) as [items s1].
  specialize (IH s1). destruct (refreshQuickPicks h w rest s1) as [rest' s2].
  simpl in *. eapply sameCore_trans; eassumption.
Qed.

Lemma updateRemoteActions_core w s : sameCore s (updateRemoteActions h w s).
Proof.
  unfold updateRemoteActions.
  eapply sameCore_trans; [| apply updateRemoteStatusIndicator_core].
  split; reflexivity.
Qed.

(** [setState] assigns the state it is given. *)
Lemma setState_connectionState w newState s :
  connectionState (setState h w newState s) = Some newState.
Proof.
  unfold setState. case_bool_decide as Hne.
  - rewrite (core_connectionState _ _ (updateRemoteStatusIndicator_core w _)).
    case_bool_decide; reflexivity.
  - destruct (decide (connectionState s = Some newState)); [assumption | contradiction].
Qed.

Lemma setState_frame w newState s :
  windowIndicator (setState h w newState s) = windowIndicator s
  ∧ remoteAuthority (setState h w newState s) = remoteAuthority s
  ∧ virtualWorkspaceLocation (setState h w newState s) = virtualWorkspaceLocation s.
Proof.
  unfold setState. case_bool_decide; [| auto].
  match goal with |- context [updateRemoteStatusIndicator h w ?x] =>
    destruct (updateRemoteStatusIndicator_core w x) as [-> -> -> _ _] end.
  case_bool_decide; auto.
Qed.

End Frame.

(** ** What holds of every state of a component *)

Section Strings.

Local Arguments String.append !_ _ / : simpl nomatch.

Lemma length_append (a b : string) :
  String.length (a +:+ b) = (String.length a + String.length b)%nat.
Proof. induction a; simpl; congruence. Qed.

Lemma append_inj_r (t s1 s2 : string) : s1 +:+ t = s2 +:+ t → s1 = s2.
Proof.
  revert s2. induction s1 as [|c1 s1 IH]; intros [|c2 s2] E; simpl in E.
  - reflexivity.
  - apply (f_equal String.length) in E. simpl in E.
    rewrite length_append in E. lia.
  - apply (f_equal String.length) in E. simpl in E.
    rewrite length_append in E. lia.
  - injection E as -> E. f_equal. auto.
Qed.

(** The message names its group: two groups, two messages. *)
Lemma invalidGroupMessage_inj g1 g2 :
  invalidGroupMessage g1 = invalidGroupMessage g2 → g1 = g2.
Proof.
  unfold invalidGroupMessage. intros E.
  do 3 apply String.app_inj in E.
  exact (append_inj_r _ _ _ E).
Qed.

End Strings.

Section Invariants.

Context (h : Host) (a : option string) (e0 : option IStatusbarEntry).

Lemma warnings_snoc tr e :
  warnings (tr ++ [e]) =
  warnings tr ++ match e with logService_warn m => [m] | _ => [] end.
Proof. unfold warnings. rewrite omap_app. destruct e; reflexivity. Qed.

Lemma TraceInv_set_remoteMenuActionsGroups v s :
  TraceInv h a e0 s → TraceInv h a e0 (set_remoteMenuActionsGroups v s).
Proof. intros [[] ? ?]. repeat split; assumption. Qed.

Lemma validatedGroup_TraceInv group s :
  TraceInv h a e0 s → TraceInv h a e0 (snd (validatedGroup group s)).
Proof.
  intros [[Hnd Hrej] Heff Hentry]. unfold validatedGroup.
  destruct (accepts groupNamePattern group) eqn:Eacc; simpl;
    [repeat split; assumption |].
  destruct (loggedInvalidGroupNames s !! group) as [[|]|] eqn:Elog;
    [repeat split; assumption | |].
  all: assert (Hfresh : invalidGroupMessage group ∉ warnings (trace s))
    by (intros Hin; apply Hrej in Hin as (g & Eg & _ & Hg);
        apply invalidGroupMessage_inj in Eg as <-; congruence).
  all: split; [split | |]; simpl.
  all: try rewrite warnings_snoc.
  all: try (apply NoDup_app; repeat split;
            [assumption | | apply NoDup_singleton];
            intros x Hx Hx'; apply list_elem_of_singleton in Hx' as ->;
            contradiction).
  all: try (intros m Hm; apply elem_of_app in Hm as [Hm | Hm];
            [apply Hrej in Hm as (g & Eg & Hacc & Hg); exists g;
             repeat split; try assumption;
             destruct (decide (group = g)) as [-> | Hne];
             [apply lookup_insert_eq | rewrite lookup_insert_ne; assumption]
            | apply list_elem_of_singleton in Hm as ->; exists group;
              repeat split; [assumption | apply lookup_insert_eq]]).
  all: try (apply Forall_app; split; [assumption |];
            constructor; [exact I | constructor]).
  all: assumption.
Qed.

Lemma filterValidated_TraceInv groups : ∀ s,
  TraceInv h a e0 s → TraceInv h a e0 (snd (filterValidated groups s)).
Proof.
  induction groups as [|g rest IH]; intros s Hs; simpl; [assumption |].
  pose proof (validatedGroup_TraceInv (fst g) s Hs) as H1.
  destruct (validatedGroup (fst g) s) as [ok s1].
  specialize (IH s1 H1). destruct (filterValidated rest s1) as [kept s2].
  exact IH.
Qed.

Lemma getRemoteMenuActions_TraceInv w b s :
  TraceInv h a e0 s → TraceInv h a e0 (snd (getRemoteMenuActions w b s)).
Proof.
  intros Hs. unfold getRemoteMenuActions.
  pose proof (filterValidated_TraceInv (remoteIndicatorMenu w) s Hs) as H1.
  destruct (filterValidated (remoteIndicatorMenu w) s) as [valid s1].
  destruct (remoteMenuActionsGroups s), b; simpl in *;
    try assumption; apply TraceInv_set_remoteMenuActionsGroups; assumption.
Qed.

Lemma orderedActionGroups_TraceInv w s :
  TraceInv h a e0 s → TraceInv h a e0 (snd (orderedActionGroups h w s)).
Proof.
  intros Hs. unfold orderedActionGroups.
  pose proof (getRemoteMenuActions_TraceInv w true s Hs) as H1.
  destruct (getRemoteMenuActions w true s) as [groups s1].
  destruct (matchCurrentRemote h s1) as [[test|]|]; simpl in *; try exact H1.
  apply TraceInv_set_remoteMenuActionsGroups; assumption.
Qed.

Lemma computeItems_TraceInv w s :
  TraceInv h a e0 s → TraceInv h a e0 (snd (computeItems h w s)).
Proof.
  intros Hs. unfold computeItems.
  pose proof (orderedActionGroups_TraceInv w s Hs) as H1.
  destruct (orderedActionGroups h w s) as [[groups|] s1]; exact H1.
Qed.

Lemma refreshQuickPicks_TraceInv w picks : ∀ s,
  TraceInv h a e0 s → TraceInv h a e0 (snd (refreshQuickPicks h w picks s)).
Proof.
  induction picks as [|p rest IH]; intros s Hs; simpl; [assumption |].
  pose proof (computeItems_TraceInv w s Hs) as H1.
  destruct (computeItems h w s) as [items s1].
  specialize (IH s1 H1). destruct (refreshQuickPicks h w rest s1) as [rest' s2].
  exact IH.
Qed.

(** With the window indicator set, a run of
    [updateRemoteStatusIndicator] ends at its first [return]. *)
Lemma updateRemoteStatusIndicator_windowIndicator w s :
  windowIndicator s = Some initialWindowIndicator →
  updateRemoteStatusIndicator h w s =
  (WindowIndicatorBranch,
   renderRemoteStatusIndicator h w
     (windowIndicatorText h (remoteAuthority s))
     (Some (TooltipString (wi_tooltip initialWindowIndicator)))
     (wi_command initialWindowIndicator) None s).
Proof.
  intros E. unfold updateRemoteStatusIndicator, windowIndicatorText.
  rewrite E. destruct (truthy (remoteAuthority s)); reflexivity.
Qed.

(** The entry of the window indicator comes with a command, so showing it
    does not read the menus. *)
Lemma renderRemoteStatusIndicator_windowIndicator w s :
  renderRemoteStatusIndicator h w (windowIndicatorText h a)
    (Some (TooltipString (wi_tooltip initialWindowIndicator)))
    (wi_command initialWindowIndicator) None s =
  emit (match remoteStatusEntry s with
        | Some _ => statusbar_update (windowIndicatorEntry h a)
        | None => statusbar_addEntry (windowIndicatorEntry h a)
        end)
    (set_remoteStatusEntry (Some (windowIndicatorEntry h a)) s).
Proof.
  unfold renderRemoteStatusIndicator. simpl.
  destruct (remoteStatusEntry s); reflexivity.
Qed.

Lemma updateRemoteStatusIndicator_Inv w s :
  Inv h a e0 s →
  Inv h a (Some (windowIndicatorEntry h a)) (snd (updateRemoteStatusIndicator h w s)).
Proof.
  intros [Hwi Ha Hck [[Hnd Hrej] Heff Hentry]].
  rewrite (updateRemoteStatusIndicator_windowIndicator w s Hwi), Ha. simpl.
  rewrite renderRemoteStatusIndicator_windowIndicator.
  split; [assumption .. |]. split; [split | |]; simpl.
  - rewrite warnings_snoc. destruct (remoteStatusEntry s);
      rewrite app_nil_r; assumption.
  - rewrite warnings_snoc. destruct (remoteStatusEntry s);
      rewrite app_nil_r; assumption.
  - apply Forall_app; split; [assumption |].
    constructor; [| constructor]. destruct (remoteStatusEntry s); reflexivity.
  - reflexivity.
Qed.

Lemma Inv_core s s' :
  sameCore s s' → TraceInv h a e0 s' → Inv h a e0 s → Inv h a e0 s'.
Proof.
  intros [Hwi Ha _ Hcs Hck] Ht [Hwi' Ha' Hck' _].
  split; [congruence .. | assumption].
Qed.

Lemma computeItems_Inv w s : Inv h a e0 s → Inv h a e0 (snd (computeItems h w s)).
Proof.
  intros Hs. eapply Inv_core; [apply computeItems_core | | exact Hs].
  apply computeItems_TraceInv, Hs.
Qed.

Lemma refreshQuickPicks_Inv w picks s :
  Inv h a e0 s → Inv h a e0 (snd (refreshQuickPicks h w picks s)).
Proof.
  intros Hs. eapply Inv_core; [apply refreshQuickPicks_core | | exact Hs].
  apply refreshQuickPicks_TraceInv, Hs.
Qed.

End Invariants.

Section Transitions.

Context (h : Host) (a : option string).

Lemma setState_Inv w newState s :
  Inv h a (Some (windowIndicatorEntry h a)) s →
  Inv h a (Some (windowIndicatorEntry h a)) (setState h w newState s).
Proof.
  intros Hs. unfold setState. case_bool_decide as Hne; [| assumption].
  apply updateRemoteStatusIndicator_Inv with (e0 := Some (windowIndicatorEntry h a)).
  destruct Hs as [Hwi Ha Hck [[Hnd Hrej] Heff Hentry]].
  assert (Hset : ∀ v, v = "initializing" ∨ v = "connected" ∨ v = "disconnected" →
    Inv h a (Some (windowIndicatorEntry h a))
      (connectionStateContextKey_set v (set_connectionState (Some newState) s))
    ∨ v ≠ coarseProjection (Some newState)).
  { intros v Hv. destruct (decide (v = coarseProjection (Some newState))) as [-> | Hd];
      [left | right; assumption].
    split; [assumption | assumption | reflexivity |].
    split; [split | |]; simpl.
    - rewrite warnings_snoc, app_nil_r. assumption.
    - rewrite warnings_snoc, app_nil_r. assumption.
    - apply Forall_app; split; [assumption |]. constructor; [exact Hv | constructor].
    - assumption. }
  simpl. destruct newState; simpl;
    match goal with |- Inv _ _ _ (connectionStateContextKey_set ?v _) =>
      destruct (Hset v) as [H | H]; [tauto | exact H | contradiction H; reflexivity]
    end.
Qed.

Lemma onDidStateChange_Inv w e s :
  Inv h a (Some (windowIndicatorEntry h a)) s →
  Inv h a (Some (windowIndicatorEntry h a)) (onDidStateChange h w e s).
Proof. intros Hs. destruct e; apply setState_Inv; assumption. Qed.

Lemma updateRemoteActions_Inv w s :
  ∀ e0, Inv h a e0 s →
  Inv h a (Some (windowIndicatorEntry h a)) (updateRemoteActions h w s).
Proof.
  intros e0 [Hwi Ha Hck Ht]. unfold updateRemoteActions.
  apply updateRemoteStatusIndicator_Inv with (e0 := e0).
  split; [assumption .. |]. apply TraceInv_set_remoteMenuActionsGroups, Ht.
Qed.

Lemma construct_SysInv w : SysInv h a (construct h w a).
Proof.
  unfold SysInv, construct. simpl.
  apply updateRemoteStatusIndicator_Inv with (e0 := None).
  destruct (truthy a); simpl.
  - split; [reflexivity .. |]. split; simpl.
    + split; simpl; [constructor |]. intros m Hm. inversion Hm.
    + repeat constructor.
    + reflexivity.
  - split; [reflexivity .. |]. split; simpl.
    + split; simpl; [constructor |]. intros m Hm. inversion Hm.
    + constructor.
    + reflexivity.
Qed.

Lemma step_SysInv sys ev : SysInv h a sys → SysInv h a (step h sys ev).
Proof.
  unfold SysInv. intros Hs.
  assert (Hmenu : ∀ w, Inv h a (Some (windowIndicatorEntry h a))
                         (self (menuDidChange h w sys))).
  { intros w. unfold menuDidChange.
    pose proof (refreshQuickPicks_Inv h a _ w (quickPicks sys) _
                  (updateRemoteActions_Inv w _ _ Hs)) as H1.
    destruct (refreshQuickPicks h w (quickPicks sys)
                (updateRemoteActions h w (self sys))) as [picks s2].
    exact H1. }
  destruct ev; simpl.
  - apply Hmenu.
  - apply Hmenu.
  - eapply updateRemoteStatusIndicator_Inv; eassumption.
  - destruct (truthy (remoteAuthority (self sys))), (hasConnection (world sys));
      simpl; try assumption. apply onDidStateChange_Inv; assumption.
  - destruct (truthy (remoteAuthority (self sys))); simpl; [assumption |].
    apply updateRemoteStatusIndicator_Inv
      with (e0 := Some (windowIndicatorEntry h a)).
    destruct Hs as [? ? ? [[] ? ?]]. repeat split; assumption.
  - destruct (pending sys); simpl; try assumption.
    eapply updateRemoteStatusIndicator_Inv; eassumption.
  - destruct (pending sys); simpl; try assumption.
    destruct resolved; apply setState_Inv; assumption.
  - pose proof (computeItems_Inv h a _ (world sys) _ Hs) as H1.
    destruct (computeItems h (world sys) (self sys)) as [items s1]. exact H1.
  - assumption.
  - assumption.
Qed.

Lemma run_SysInv events : ∀ sys, SysInv h a sys → SysInv h a (run h sys events).
Proof.
  induction events as [|ev events IH]; intros sys Hs; simpl; [assumption |].
  apply IH, step_SysInv, Hs.
Qed.

End Transitions.

Lemma Reachable_SysInv h sys :
  Reachable h sys → SysInv h (remoteAuthority (self sys)) sys.
Proof.
  induction 1 as [w a | sys ev Hr IH].
  - pose proof (construct_SysInv h a w) as H.
    rewrite (inv_remoteAuthority _ _ _ _ H). exact H.
  - pose proof (step_SysInv h _ sys ev IH) as H.
    rewrite (inv_remoteAuthority _ _ _ _ H). exact H.
Qed.

(** ** The connection state machine *)

Section StateMachine.

Context (h : Host).

Lemma menuDidChange_frame w sys :
  sameCore (self sys) (self (menuDidChange h w sys))
  ∧ world (menuDidChange h w sys) = w
  ∧ pending (menuDidChange h w sys) = pending sys.
Proof.
  unfold menuDidChange.
  pose proof (refreshQuickPicks_core h w (quickPicks sys)
                (updateRemoteActions h w (self sys))) as H1.
  destruct (refreshQuickPicks h w (quickPicks sys)
              (updateRemoteActions h w (self sys))) as [picks s2].
  simpl in *. repeat split; try reflexivity;
    destruct H1, (updateRemoteActions_core h w (self sys)); congruence.
Qed.

(** No delivery changes the authority or whether there is a connection. *)
Lemma step_frame sys ev :
  remoteAuthority (self (step h sys ev)) = remoteAuthority (self sys)
  ∧ hasConnection (world (step h sys ev)) = hasConnection (world sys).
Proof.
  destruct ev; simpl.
  - destruct (menuDidChange_frame
                (World_set_remoteIndicatorMenu actions (world sys)) sys)
      as ([] & -> & _). auto.
  - destruct (menuDidChange_frame
                (World_set_legacyIndicatorMenu actions (world sys)) sys)
      as ([] & -> & _). auto.
  - split; [| reflexivity]. apply updateRemoteStatusIndicator_core.
  - destruct (truthy (remoteAuthority (self sys))),
      (hasConnection (world sys)) eqn:Hc; simpl; rewrite ?Hc; auto.
    destruct e; simpl; split; try reflexivity; apply setState_frame.
  - destruct (truthy (remoteAuthority (self sys))); simpl; auto.
    split; [| reflexivity].
    rewrite (core_remoteAuthority _ _ (updateRemoteStatusIndicator_core h _ _)).
    reflexivity.
  - destruct (pending sys); simpl; auto.
    split; [| reflexivity]. apply updateRemoteStatusIndicator_core.
  - destruct (pending sys); simpl; auto.
    split; [| reflexivity]. destruct resolved; apply setState_frame.
  - pose proof (computeItems_core h (world sys) (self sys)) as H1.
    destruct (computeItems h (world sys) (self sys)) as [items s1].
    simpl in *. split; [apply H1 | reflexivity].
  - auto.
  - auto.
Qed.

Lemma construct_state w a :
  remoteAuthority (self (construct h w a)) = a
  ∧ world (construct h w a) = w
  ∧ pending (construct h w a) = AwaitingInstalledExtensions
  ∧ connectionState (self (construct h w a)) =
    match truthy a with Some _ => Some initializing | None => None end
  ∧ connectionStateContextKey (self (construct h w a)) =
    match truthy a with Some _ => "initializing" | None => "" end.
Proof.
  unfold construct. simpl.
  match goal with |- context [updateRemoteStatusIndicator h w ?x] =>
    destruct (updateRemoteStatusIndicator_core h w x) as [_ -> _ -> ->] end.
  destruct (truthy a); simpl; auto.
Qed.

(** A lifecycle event that is listened to sets the state of the table,
    whatever the state was. *)
Lemma step_connection sys e a :
  truthy (remoteAuthority (self sys)) = Some a →
  hasConnection (world sys) = true →
  connectionState (self (step h sys (connection_onDidStateChange e)))
    = Some (eventTarget e)
  ∧ pending (step h sys (connection_onDidStateChange e)) = pending sys.
Proof.
  intros Ha Hc. simpl. rewrite Ha, Hc. simpl. split; [| reflexivity].
  destruct e; apply setState_connectionState.
Qed.

(** The outcome of the resolution, when it arrives, sets the state as
    well, whatever the state was. *)
Lemma step_resolution sys resolved :
  pending sys = AwaitingResolution →
  connectionState (self (step h sys (resolveAuthority_settled resolved)))
    = Some (resolutionTarget resolved)
  ∧ pending (step h sys (resolveAuthority_settled resolved)) = NothingPending.
Proof.
  intros Hp. simpl. rewrite Hp. simpl. split; [| reflexivity].
  destruct resolved; apply setState_connectionState.
Qed.

Lemma step_installedExtensions sys a :
  truthy (remoteAuthority (self sys)) = Some a →
  pending sys = AwaitingInstalledExtensions →
  pending (step h sys whenInstalledExtensionsRegistered_resolved)
    = AwaitingResolution
  ∧ connectionState (self (step h sys whenInstalledExtensionsRegistered_resolved))
    = connectionState (self sys).
Proof.
  intros Ha Hp. simpl. rewrite Hp, Ha. simpl. split; [reflexivity |].
  apply updateRemoteStatusIndicator_core.
Qed.

End StateMachine.

(** Claim C3, as amended.  With a remote authority and a connection, the
    state starts at [initializing]; a [ConnectionGain] sets it to
    [connected] and the failure of the resolution that arrives afterwards
    sets it to [disconnected]; a successful resolution sets it to
    [connected] and a [ReconnectionPermanentFailure] that arrives afterwards
    sets it to [disconnected].  In both orders the last arrival decides:
    in any system a lifecycle event that is listened to leaves the state of
    the transition table, and so does the outcome of the resolution when
    it is awaited. *)
Theorem last_arrival_decides_connectionState (h : Host) (w : World) (a : string) :
  a ≠ "" → hasConnection w = true →
  let started :=
    step h (construct h w (Some a)) whenInstalledExtensionsRegistered_resolved in
  connectionState (self (construct h w (Some a))) = Some initializing
  ∧ connectionState (self started) = Some initializing
  ∧ connectionState
      (self (run h started [connection_onDidStateChange ConnectionGain]))
    = Some connected
  ∧ connectionState
      (self (run h started [connection_onDidStateChange ConnectionGain;
                            resolveAuthority_settled false]))
    = Some disconnected
  ∧ connectionState (self (run h started [resolveAuthority_settled true]))
    = Some connected
  ∧ connectionState
      (self (run h started [resolveAuthority_settled true;
                            connection_onDidStateChange ReconnectionPermanentFailure]))
    = Some disconnected
  ∧ (∀ sys e,
       remoteAuthority (self sys) = Some a → hasConnection (world sys) = true →
       connectionState (self (step h sys (connection_onDidStateChange e)))
       = Some (eventTarget e))
  ∧ (∀ sys resolved,
       pending sys = AwaitingResolution →
       connectionState (self (step h sys (resolveAuthority_settled resolved)))
       = Some (resolutionTarget resolved)).
Proof.
  intros Ha Hc started.
  assert (Ht : truthy (Some a) = Some a) by (destruct a; [contradiction | reflexivity]).
  destruct (construct_state h w (Some a)) as (Hauth0 & Hw0 & Hp0 & Hst0 & _).
  rewrite Ht in Hst0.
  assert (Htr0 : truthy (remoteAuthority (self (construct h w (Some a)))) = Some a)
    by (rewrite Hauth0; exact Ht).
  destruct (step_installedExtensions h _ a Htr0 Hp0) as [Hp1 Hst1].
  fold started in Hp1, Hst1.
  assert (Htr1 : truthy (remoteAuthority (self started)) = Some a).
  { unfold started. rewrite (proj1 (step_frame h _ _)). exact Htr0. }
  assert (Hc1 : hasConnection (world started) = true).
  { unfold started. rewrite (proj2 (step_frame h _ _)), Hw0. exact Hc. }
  destruct (step_connection h started ConnectionGain a Htr1 Hc1) as [Hst2 Hp2].
  destruct (step_resolution h started true Hp1) as [Hst2' Hp2'].
  split; [exact Hst0 |]. split; [congruence |].
  split; [exact Hst2 |]. split.
  - unfold run; cbn [fold_left]. rewrite Hp1 in Hp2.
    exact (proj1 (step_resolution h _ false Hp2)).
  - split; [exact Hst2' |]. split; [| split].
    + unfold run; cbn [fold_left].
      refine (proj1 (step_connection h _ ReconnectionPermanentFailure a _ _)).
      * rewrite (proj1 (step_frame h _ _)). exact Htr1.
      * rewrite (proj2 (step_frame h _ _)). exact Hc1.
    + intros sys e Hauth Hconn.
      refine (proj1 (step_connection h sys e a _ Hconn)).
      rewrite Hauth. exact Ht.
    + intros sys resolved Hp. exact (proj1 (step_resolution h sys resolved Hp)).
Qed.

(** Claim C3 at a run: [ConnectionGain], then the failure of the
    resolution. *)
Lemma last_arrival_decides_connectionState_witness :
  connectionState
    (self (run exampleHost
             (step exampleHost (construct exampleHost exampleWorld (Some "myhost"))
                whenInstalledExtensionsRegistered_resolved)
             [connection_onDidStateChange ConnectionGain;
              resolveAuthority_settled false]))
  = Some disconnected.
Proof.
  refine (proj1 (proj2 (proj2 (proj2
    (last_arrival_decides_connectionState exampleHost exampleWorld "myhost" _ _))))).
  - discriminate.
  - reflexivity.
Defined.

(** Claim C3 as it is stated fails: after [ConnectionGain] and then the
    failure of the resolution, the state is [disconnected], not
    [connected]. *)
Lemma resolution_failure_after_gain_disconnects :
  let sys :=
    run exampleHost (construct exampleHost exampleWorld (Some "myhost"))
      [whenInstalledExtensionsRegistered_resolved;
       connection_onDidStateChange ConnectionGain;
       resolveAuthority_settled false] in
  connectionState (self sys) = Some disconnected
  ∧ connectionState (self sys) ≠ Some connected.
Proof. vm_compute. split; [reflexivity | discriminate]. Qed.

(** Claim C4.  In every state a component reaches the context key is the
    coarse projection of the connection state: the empty string without a
    state, [disconnected] for [reconnecting], the name of the state
    otherwise; it is never [reconnecting], and was never set to it.  At
    construction it is empty without an authority and [initializing] with
    one. *)
Theorem contextKey_is_coarseProjection (h : Host) (sys : System) :
  Reachable h sys →
  connectionStateContextKey (self sys)
    = coarseProjection (connectionState (self sys))
  ∧ connectionStateContextKey (self sys) ≠ "reconnecting"
  ∧ (connectionState (self sys) = Some reconnecting →
     connectionStateContextKey (self sys) = "disconnected")
  ∧ (contextKey_set "reconnecting" ∉ trace (self sys))
  ∧ (∀ w, connectionStateContextKey (self (construct h w None)) = "")
  ∧ (∀ w a, a ≠ "" →
       connectionStateContextKey (self (construct h w (Some a))) = "initializing").
Proof.
  intros Hr. apply Reachable_SysInv in Hr as [_ _ Hck [_ Heff _]].
  split; [exact Hck |]. split; [| split; [| split; [| split]]].
  - rewrite Hck. destruct (connectionState (self sys)) as [[]|]; discriminate.
  - intros E. rewrite Hck, E. reflexivity.
  - intros Hin. rewrite Forall_forall in Heff. apply Heff in Hin.
    simpl in Hin. destruct Hin as [H | [H | H]]; discriminate.
  - intros w. apply (construct_state h w None).
  - intros w a Ha. destruct (construct_state h w (Some a)) as (_ & _ & _ & _ & ->).
    destruct a; [contradiction | reflexivity].
Qed.

(** Claim C4 at a run: after [ConnectionLost] the state is [reconnecting]
    and the context key [disconnected]. *)
Lemma contextKey_is_coarseProjection_witness :
  let sys :=
    run exampleHost (construct exampleHost exampleWorld (Some "myhost"))
      [connection_onDidStateChange ConnectionLost] in
  connectionState (self sys) = Some reconnecting
  ∧ connectionStateContextKey (self sys) = "disconnected".
Proof.
  intros sys.
  assert (Hr : Reachable exampleHost sys) by (apply Reachable_step, Reachable_construct).
  split; [reflexivity |].
  exact (proj1 (proj2 (proj2 (contextKey_is_coarseProjection exampleHost sys Hr)))
           eq_refl).
Defined.

(** ** The calls to the status bar *)

Section StatusBar.

Context (h : Host).

Lemma Logged_refl s : Logged s s.
Proof. split; [reflexivity |]. exists []. rewrite app_nil_r. auto. Qed.

Lemma Logged_trans s1 s2 s3 : Logged s1 s2 → Logged s2 s3 → Logged s1 s3.
Proof.
  intros [E1 (l1 & T1 & F1)] [E2 (l2 & T2 & F2)]. split; [congruence |].
  exists (l1 ++ l2). rewrite T2, T1, app_assoc. split; [reflexivity |].
  apply Forall_app; auto.
Qed.

Lemma validatedGroup_Logged group s : Logged s (snd (validatedGroup group s)).
Proof.
  unfold validatedGroup. repeat case_match; simpl; try apply Logged_refl.
  all: split; [reflexivity |]; eexists; split; [reflexivity |];
    repeat constructor; eexists; reflexivity.
Qed.

Lemma filterValidated_Logged groups : ∀ s, Logged s (snd (filterValidated groups s)).
Proof.
  induction groups as [|a rest IH]; intros s; simpl; [apply Logged_refl |].
  pose proof (validatedGroup_Logged (fst a) s) as H1.
  destruct (validatedGroup (fst a) s) as [ok s1].
  specialize (IH s1). destruct (filterValidated rest s1) as [kept s2].
  simpl in *. eapply Logged_trans; eassumption.
Qed.

Lemma getRemoteMenuActions_Logged w b s :
  Logged s (snd (getRemoteMenuActions w b s)).
Proof.
  unfold getRemoteMenuActions.
  pose proof (filterValidated_Logged (remoteIndicatorMenu w) s) as H1.
  destruct (filterValidated (remoteIndicatorMenu w) s) as [valid s1].
  destruct (remoteMenuActionsGroups s), b; simpl in *;
    try apply Logged_refl; exact H1.
Qed.

(** The groups [getRemoteMenuActions()] answers, and the cache it
    leaves. *)
Lemma getRemoteMenuActions_currentGroups w s :
  fst (getRemoteMenuActions w false s) = currentGroups w s
  ∧ remoteMenuActionsGroups (snd (getRemoteMenuActions w false s))
    = Some (currentGroups w s).
Proof.
  unfold getRemoteMenuActions, currentGroups, rebuiltGroups.
  pose proof (filterValidated_fst (remoteIndicatorMenu w) s) as H1.
  destruct (filterValidated (remoteIndicatorMenu w) s) as [valid s1].
  simpl in H1. subst valid.
  destruct (remoteMenuActionsGroups s) eqn:E; simpl; auto.
Qed.

Lemma renderRemoteStatusIndicator_Shown w text tooltip command progress s :
  Shown s (renderRemoteStatusIndicator h w text tooltip command progress s)
  ∧ is_Some (remoteStatusEntry
               (renderRemoteStatusIndicator h w text tooltip command progress s)).
Proof.
  unfold renderRemoteStatusIndicator, Shown.
  pose proof (getRemoteMenuActions_Logged w false s) as [He (logged & Ht & Hf)].
  destruct (getRemoteMenuActions w false s) as [groups s1]. simpl in *.
  destruct command as [c|].
  - destruct (remoteStatusEntry s) eqn:E; simpl; rewrite ?E; simpl;
      (split; [exists []; simpl; auto | eexists; reflexivity]).
  - destruct (0 <? length groups)%nat; simpl; rewrite He;
      destruct (remoteStatusEntry s) eqn:E; simpl;
      (split; [exists logged; rewrite Ht, <- app_assoc; auto
              | eexists; reflexivity]).
Qed.

Lemma disposeRemoteStatusEntry_Shown s :
  Shown s (disposeRemoteStatusEntry s)
  ∧ remoteStatusEntry (disposeRemoteStatusEntry s) = None.
Proof.
  unfold disposeRemoteStatusEntry, Shown.
  destruct (remoteStatusEntry s) eqn:E; simpl; rewrite ?E;
    (split; [exists []; simpl; rewrite ?app_nil_r; auto | reflexivity]).
Qed.

Lemma Logged_Shown s1 s2 s3 : Logged s1 s2 → Shown s2 s3 → Shown s1 s3.
Proof.
  intros [E1 (l1 & T1 & F1)] (l2 & T2 & F2). exists (l1 ++ l2).
  rewrite T2, T1, E1, <- !app_assoc. split; [reflexivity |].
  apply Forall_app; auto.
Qed.

Lemma updateRemoteStatusIndicator_Shown w s :
  Shown s (snd (updateRemoteStatusIndicator h w s)).
Proof.
  unfold updateRemoteStatusIndicator.
  pose proof (getRemoteMenuActions_Logged w false s) as H1.
  destruct (getRemoteMenuActions w false s) as [groups s1].
  repeat case_match; simplify_eq; simpl in *;
    try apply renderRemoteStatusIndicator_Shown;
    (eapply Logged_Shown; [exact H1 |]);
    first [apply renderRemoteStatusIndicator_Shown
          | apply disposeRemoteStatusEntry_Shown].
Qed.

Lemma entryOfTrace_app tr1 tr2 :
  entryOfTrace (tr1 ++ tr2) =
  fold_left
    (λ entry e,
       match e with
       | statusbar_addEntry p | statusbar_update p => Some p
       | statusbar_dispose => None
       | _ => entry
       end) tr2 (entryOfTrace tr1).
Proof. unfold entryOfTrace. apply fold_left_app. Qed.

Lemma entryOfTrace_logged tr logged :
  Forall (λ e, ∃ m, e = logService_warn m) logged →
  entryOfTrace (tr ++ logged) = entryOfTrace tr.
Proof.
  intros Hf. rewrite entryOfTrace_app. generalize (entryOfTrace tr).
  induction Hf as [|e l (m & ->) _ IH]; intros entry; simpl; auto.
Qed.

End StatusBar.

(** The status bar holds the entry that the component holds. *)
Lemma Logged_mirror s s' :
  Logged s s' →
  remoteStatusEntry s = entryOfTrace (trace s) →
  remoteStatusEntry s' = entryOfTrace (trace s').
Proof.
  intros [He (logged & Ht & Hf)] Hm.
  rewrite He, Ht, (entryOfTrace_logged _ _ Hf). exact Hm.
Qed.

Lemma Shown_mirror s s' :
  Shown s s' →
  remoteStatusEntry s = entryOfTrace (trace s) →
  remoteStatusEntry s' = entryOfTrace (trace s').
Proof.
  intros (logged & Ht & Hf) Hm.
  rewrite Ht, app_assoc, entryOfTrace_app, (entryOfTrace_logged _ _ Hf), <- Hm.
  destruct (remoteStatusEntry s), (remoteStatusEntry s'); reflexivity.
Qed.

Section Mirror.

Context (h : Host).

Lemma computeItems_Logged w s : Logged s (snd (computeItems h w s)).
Proof.
  unfold computeItems, orderedActionGroups.
  pose proof (getRemoteMenuActions_Logged w true s) as H1.
  destruct (getRemoteMenuActions w true s) as [groups s1]. simpl in H1.
  destruct (matchCurrentRemote h s1) as [[test|]|]; exact H1.
Qed.

Lemma refreshQuickPicks_Logged w picks : ∀ s,
  Logged s (snd (refreshQuickPicks h w picks s)).
Proof.
  induction picks as [|p rest IH]; intros s; simpl; [apply Logged_refl |].
  pose proof (computeItems_Logged w s) as H1.
  destruct (computeItems h w s) as [items s1].
  specialize (IH s1). destruct (refreshQuickPicks h w rest s1) as [rest' s2].
  simpl in *. eapply Logged_trans; [exact H1 | exact IH].
Qed.

Lemma setState_mirror w newState s :
  remoteStatusEntry s = entryOfTrace (trace s) →
  remoteStatusEntry (setState h w newState s)
  = entryOfTrace (trace (setState h w newState s)).
Proof.
  intros Hm. unfold setState. case_bool_decide; [| exact Hm].
  eapply Shown_mirror; [apply updateRemoteStatusIndicator_Shown |].
  case_bool_decide; simpl; rewrite entryOfTrace_app; exact Hm.
Qed.

Lemma menuDidChange_mirror w sys :
  remoteStatusEntry (self sys) = entryOfTrace (trace (self sys)) →
  remoteStatusEntry (self (menuDidChange h w sys))
  = entryOfTrace (trace (self (menuDidChange h w sys))).
Proof.
  intros Hm. unfold menuDidChange, updateRemoteActions.
  pose proof (refreshQuickPicks_Logged w (quickPicks sys)
                (snd (updateRemoteStatusIndicator h w
                        (set_remoteMenuActionsGroups None (self sys))))) as H2.
  destruct (refreshQuickPicks h w (quickPicks sys) _) as [picks s2]. simpl in *.
  eapply Logged_mirror; [exact H2 |].
  eapply Shown_mirror; [apply updateRemoteStatusIndicator_Shown | exact Hm].
Qed.

Lemma step_mirror sys ev :
  remoteStatusEntry (self sys) = entryOfTrace (trace (self sys)) →
  remoteStatusEntry (self (step h sys ev))
  = entryOfTrace (trace (self (step h sys ev))).
Proof.
  intros Hm. destruct ev; simpl.
  - apply menuDidChange_mirror, Hm.
  - apply menuDidChange_mirror, Hm.
  - eapply Shown_mirror; [apply updateRemoteStatusIndicator_Shown | exact Hm].
  - destruct (truthy (remoteAuthority (self sys))), (hasConnection (world sys));
      simpl; try exact Hm.
    destruct e; apply setState_mirror, Hm.
  - destruct (truthy (remoteAuthority (self sys))); simpl; [exact Hm |].
    eapply Shown_mirror; [apply updateRemoteStatusIndicator_Shown | exact Hm].
  - destruct (pending sys); simpl; try exact Hm.
    eapply Shown_mirror; [apply updateRemoteStatusIndicator_Shown | exact Hm].
  - destruct (pending sys); simpl; try exact Hm.
    destruct resolved; apply setState_mirror, Hm.
  - pose proof (computeItems_Logged (world sys) (self sys)) as H1.
    destruct (computeItems h (world sys) (self sys)) as [items s1]. simpl in *.
    eapply Logged_mirror; [exact H1 | exact Hm].
  - exact Hm.
  - exact Hm.
Qed.

Lemma Reachable_mirror sys :
  Reachable h sys →
  remoteStatusEntry (self sys) = entryOfTrace (trace (self sys)).
Proof.
  induction 1 as [w authority | sys ev _ IH].
  - unfold construct. cbn [self].
    eapply Shown_mirror; [apply updateRemoteStatusIndicator_Shown |].
    cbn [remoteAuthority]. destruct (truthy authority); reflexivity.
  - apply step_mirror, IH.
Qed.

End Mirror.

(** ** The window indicator *)

Lemma renderRemoteStatusIndicator_text h w text tooltip command progress s :
  se_text <$> remoteStatusEntry
                (renderRemoteStatusIndicator h w text tooltip command progress s)
  = Some text.
Proof.
  unfold renderRemoteStatusIndicator.
  destruct (getRemoteMenuActions w false s) as [groups s1].
  destruct command; repeat case_match; simplify_eq; reflexivity.
Qed.

(** Claim C2.  In every state a component reaches the field
    [windowIndicator] holds its initial value, so a run of
    [updateRemoteStatusIndicator], in that state or in any other with the
    same field, ends at the first [return]: it shows the label of the window
    indicator cut to 40 characters when there is a remote authority and the
    bare icon otherwise.  The status bar entry is always the one of the
    window indicator, every call made to the status bar added or updated
    that entry, and the entry was never disposed.  The calls are made: the
    constructor adds the entry to the status bar, every run after it makes
    one call, an update with this entry, and the entry the status bar was
    last given is this one, whose text is the label cut to 40 characters
    or the bare icon. *)
Theorem windowIndicator_branch_always_taken (h : Host) (sys : System) (w : World) :
  Reachable h sys →
  let s := self sys in
  windowIndicator s = Some initialWindowIndicator
  ∧ (∀ events, windowIndicator (self (run h sys events)) = windowIndicator s)
  ∧ updateRemoteStatusIndicator h w s =
    (WindowIndicatorBranch,
     renderRemoteStatusIndicator h w
       (match truthy (remoteAuthority s) with
        | Some _ => truncate h (wi_label initialWindowIndicator) 40
        | None => "$(remote)"
        end)
       (Some (TooltipString (wi_tooltip initialWindowIndicator)))
       (wi_command initialWindowIndicator) None s)
  ∧ (∀ s', windowIndicator s' = windowIndicator s →
       fst (updateRemoteStatusIndicator h w s') = WindowIndicatorBranch)
  ∧ se_text <$> remoteStatusEntry (snd (updateRemoteStatusIndicator h w s))
    = Some (windowIndicatorText h (remoteAuthority s))
  ∧ remoteStatusEntry s = Some (windowIndicatorEntry h (remoteAuthority s))
  ∧ Forall (windowIndicatorEffect h (remoteAuthority s)) (trace s)
  ∧ (statusbar_dispose ∉ trace s)
  ∧ entryOfTrace (trace s) = Some (windowIndicatorEntry h (remoteAuthority s))
  ∧ trace (snd (updateRemoteStatusIndicator h w s))
    = trace s ++ [statusbar_update (windowIndicatorEntry h (remoteAuthority s))]
  ∧ (∀ w0 a,
       trace (self (construct h w0 a)) =
       match truthy a with
       | Some _ => [contextKey_set "initializing"]
       | None => []
       end ++ [statusbar_addEntry (windowIndicatorEntry h a)])
  ∧ se_text (windowIndicatorEntry h (remoteAuthority s))
    = match truthy (remoteAuthority s) with
      | Some _ => truncate h "$(remote) k0s: boring_wozniak" 40
      | None => "$(remote)"
      end.
Proof.
  intros Hr s. apply Reachable_SysInv in Hr as Hinv.
  pose proof (Reachable_mirror h sys Hr) as Hmirror.
  pose proof Hinv as [Hwi _ _ [_ Heff Hentry]].
  fold s in Hwi, Heff, Hentry, Hmirror.
  split; [exact Hwi |].
  split; [| split; [| split; [| split; [| split; [| split;
    [| split; [| split; [| split; [| split]]]]]]]]].
  - intros events. rewrite Hwi.
    apply (inv_windowIndicator _ _ _ _ (run_SysInv h _ events sys Hinv)).
  - apply (updateRemoteStatusIndicator_windowIndicator h w s Hwi).
  - intros s' Hs'. rewrite Hwi in Hs'.
    rewrite (updateRemoteStatusIndicator_windowIndicator h w s' Hs'). reflexivity.
  - rewrite (updateRemoteStatusIndicator_windowIndicator h w s Hwi). simpl.
    apply renderRemoteStatusIndicator_text.
  - exact Hentry.
  - exact Heff.
  - intros Hin. rewrite Forall_forall in Heff. exact (Heff _ Hin).
  - rewrite <- Hmirror. exact Hentry.
  - rewrite (updateRemoteStatusIndicator_windowIndicator h w s Hwi). cbn [snd].
    rewrite renderRemoteStatusIndicator_windowIndicator, Hentry. reflexivity.
  - intros w0 a. unfold construct. cbn [self remoteAuthority].
    destruct (truthy a) as [x|] eqn:Ea;
      rewrite updateRemoteStatusIndicator_windowIndicator by reflexivity;
      cbn [snd]; rewrite renderRemoteStatusIndicator_windowIndicator;
      reflexivity.
  - reflexivity.
Qed.

(** Claim C2 at a run: disconnected, and still the first branch, with the
    label of the window indicator in the status bar. *)
Lemma windowIndicator_branch_always_taken_witness :
  let sys :=
    run exampleHost (construct exampleHost exampleWorld (Some "myhost"))
      [whenInstalledExtensionsRegistered_resolved;
       resolveAuthority_settled false] in
  fst (updateRemoteStatusIndicator exampleHost exampleWorld (self sys))
  = WindowIndicatorBranch
  ∧ se_text <$> entryOfTrace (trace (self sys))
    = Some "$(remote) k0s: boring_wozniak"
  ∧ ∃ entry,
      se_text entry = "$(remote) k0s: boring_wozniak"
      ∧ trace (snd (updateRemoteStatusIndicator exampleHost exampleWorld (self sys)))
        = trace (self sys) ++ [statusbar_update entry].
Proof.
  intros sys.
  assert (Hr : Reachable exampleHost sys)
    by (do 2 apply Reachable_step; apply Reachable_construct).
  destruct (windowIndicator_branch_always_taken exampleHost sys exampleWorld Hr)
    as (_ & _ & _ & Hbranch & _ & _ & _ & _ & Hshown & Hrun & _).
  split; [apply Hbranch; reflexivity |]. split.
  - rewrite Hshown. reflexivity.
  - eexists. split; [| exact Hrun]. reflexivity.
Defined.

(** Claim C1, as amended.  With the remote authority [myhost] and the state
    [disconnected], the text of the status bar entry of a component is the
    label of the window indicator cut to the maximal length of 40, since
    the window indicator is shown first.  Only a state without a window
    indicator gets to the branch on the connection state, and the text is
    then the alert icon, a space, and the localized pattern "Disconnected
    from {0}" applied to the host label (the authority when the label
    service has none) cut to 40. *)
Theorem disconnected_indicator_text (h : Host) (sys : System) (w : World) :
  Reachable h sys →
  remoteAuthority (self sys) = Some "myhost" →
  connectionState (self sys) = Some disconnected →
  se_text <$> remoteStatusEntry (self sys)
    = Some (truncate h (wi_label initialWindowIndicator)
              REMOTE_STATUS_LABEL_MAX_LENGTH)
  ∧ se_text <$> remoteStatusEntry (snd (updateRemoteStatusIndicator h w (self sys)))
    = Some (truncate h (wi_label initialWindowIndicator)
              REMOTE_STATUS_LABEL_MAX_LENGTH)
  ∧ (∀ s, windowIndicator s = None →
       remoteAuthority s = Some "myhost" →
       connectionState s = Some disconnected →
       let hostLabel :=
         match truthy (Some (getHostLabel w (Schemas_vscodeRemote h) "myhost")) with
         | Some l => l
         | None => "myhost"
         end in
       fst (updateRemoteStatusIndicator h w s) = ConnectionStateBranch
       ∧ se_text <$> remoteStatusEntry (snd (updateRemoteStatusIndicator h w s))
         = Some ("$(alert) " +:+
                 nls_localize h "disconnectedFrom" "Disconnected from {0}"
                   [truncate h hostLabel REMOTE_STATUS_LABEL_MAX_LENGTH])).
Proof.
  intros Hr Ha Hst.
  pose proof (Reachable_SysInv h sys Hr) as [Hwi _ _ [_ _ Hentry]].
  split; [| split].
  - rewrite Hentry, Ha. reflexivity.
  - rewrite (updateRemoteStatusIndicator_windowIndicator h w _ Hwi), Ha. simpl.
    apply renderRemoteStatusIndicator_text.
  - intros s Hnone Hauth Hdis hostLabel.
    unfold updateRemoteStatusIndicator. rewrite Hnone, Hauth, Hdis. simpl.
    split; [reflexivity |]. apply renderRemoteStatusIndicator_text.
Qed.

(** Claim C1 at a run: the resolution of [myhost] fails, and the text is
    the label of the window indicator. *)
Lemma disconnected_indicator_text_witness :
  let sys :=
    run exampleHost (construct exampleHost exampleWorld (Some "myhost"))
      [whenInstalledExtensionsRegistered_resolved;
       resolveAuthority_settled false] in
  se_text <$> remoteStatusEntry (self sys) = Some "$(remote) k0s: boring_wozniak".
Proof.
  intros sys.
  assert (Hr : Reachable exampleHost sys)
    by (do 2 apply Reachable_step; apply Reachable_construct).
  exact (proj1 (disconnected_indicator_text exampleHost sys exampleWorld Hr
                  eq_refl eq_refl)).
Defined.

(** Claim C1 as it is stated fails: with the authority [myhost] and the
    state [disconnected], the text shown is the label of the window
    indicator and not "Disconnected from myhost". *)
Lemma disconnected_text_is_not_the_disconnected_message :
  let sys :=
    run exampleHost (construct exampleHost exampleWorld (Some "myhost"))
      [whenInstalledExtensionsRegistered_resolved;
       resolveAuthority_settled false] in
  remoteAuthority (self sys) = Some "myhost"
  ∧ connectionState (self sys) = Some disconnected
  ∧ nls_localize exampleHost "disconnectedFrom" "Disconnected from {0}"
      [truncate exampleHost "myhost" REMOTE_STATUS_LABEL_MAX_LENGTH]
    = "Disconnected from myhost"
  ∧ se_text <$> remoteStatusEntry (self sys) = Some "$(remote) k0s: boring_wozniak"
  ∧ se_text <$> remoteStatusEntry (self sys) ≠ Some "Disconnected from myhost"
  ∧ se_text <$> remoteStatusEntry (self sys)
    ≠ Some "$(alert) Disconnected from myhost".
Proof. vm_compute. repeat split; discriminate. Qed.

(** ** Warnings for invalid group names *)

Lemma NoDup_filter_eq_length (x : string) (l : list string) :
  NoDup l → (length (filter (λ m, m = x) l) ≤ 1)%nat.
Proof.
  induction 1 as [|y l Hy Hnd IH]; simpl; [lia |].
  rewrite filter_cons. destruct (decide (y = x)) as [-> | Hne]; [| exact IH].
  simpl. assert (filter (λ m, m = x) l = []) as ->; [| simpl; lia].
  clear IH Hnd. induction l as [|z l IH]; [reflexivity |].
  rewrite filter_cons. destruct (decide (z = x)) as [-> | Hz].
  - exfalso. apply Hy. left.
  - apply IH. intros Hin. apply Hy. right. exact Hin.
Qed.

(** Claim C6.  A group whose name is accepted is validated without any
    effect; one whose name is rejected is recorded as logged, with a
    warning unless it was recorded already.  Every warning in the trace of
    a component is the message of a rejected group name; and whatever was
    delivered to the component, no message occurs twice, so that each
    invalid name, which its message determines, was logged at most once. *)
Theorem invalid_group_logged_at_most_once (h : Host) (sys : System) :
  Reachable h sys →
  (∀ group st, accepts groupNamePattern group = true →
     validatedGroup group st = (true, st))
  ∧ (∀ group st, accepts groupNamePattern group = false →
       fst (validatedGroup group st) = false
       ∧ trace (snd (validatedGroup group st)) =
         trace st ++
         (if bool_decide (loggedInvalidGroupNames st !! group = Some true)
          then [] else [logService_warn (invalidGroupMessage group)])
       ∧ loggedInvalidGroupNames (snd (validatedGroup group st)) !! group
         = Some true)
  ∧ (∀ message, message ∈ warnings (trace (self sys)) →
       ∃ group, message = invalidGroupMessage group
                ∧ accepts groupNamePattern group = false)
  ∧ NoDup (warnings (trace (self sys)))
  ∧ (∀ group,
       length (filter (λ m, m = invalidGroupMessage group)
                 (warnings (trace (self sys)))) ≤ 1)%nat
  ∧ (∀ g1 g2, invalidGroupMessage g1 = invalidGroupMessage g2 → g1 = g2).
Proof.
  intros Hr. apply Reachable_SysInv in Hr as [_ _ _ [[Hnd Hrej] _ _]].
  split; [| split; [| split; [| split; [| split]]]].
  - intros group st Hacc. unfold validatedGroup. rewrite Hacc. reflexivity.
  - intros group st Hacc. unfold validatedGroup. rewrite Hacc. simpl.
    split; [reflexivity |].
    destruct (loggedInvalidGroupNames st !! group) as [[|]|] eqn:E; simpl;
      rewrite ?app_nil_r, ?lookup_insert_eq; auto.
  - intros m Hm. apply Hrej in Hm as (g & Eg & Hacc & _). eauto.
  - exact Hnd.
  - intros group. apply NoDup_filter_eq_length, Hnd.
  - apply invalidGroupMessage_inj.
Qed.

(** Claim C6 at a run: the invalid name [bad] is validated when the menu
    is shown, when the menu changes with the quick pick open, and when the
    menu is shown again; it is logged once. *)
Lemma invalid_group_logged_at_most_once_witness :
  let bad : list ActionGroup := [("bad", [])] in
  let sys :=
    run exampleHost
      (construct exampleHost (World_set_remoteIndicatorMenu bad exampleWorld) None)
      [command_showRemoteMenu;
       remoteIndicatorMenu_onDidChange bad;
       command_showRemoteMenu] in
  warnings (trace (self sys)) = [invalidGroupMessage "bad"]
  ∧ NoDup (warnings (trace (self sys))).
Proof.
  intros bad sys.
  assert (Hr : Reachable exampleHost sys)
    by (do 3 apply Reachable_step; apply Reachable_construct).
  split; [vm_compute; reflexivity |].
  exact (proj1 (proj2 (proj2 (proj2
           (invalid_group_logged_at_most_once exampleHost sys Hr))))).
Defined.

(** ** The order of the groups in the menu *)

Section Sorting.

Context {A : Type} (comparefn : A → A → Z).

Lemma Array_insert_Permutation x l : Array_insert comparefn x l ≡ₚ x :: l.
Proof.
  induction l as [|y l IH]; simpl; [reflexivity |].
  destruct (comparefn x y <=? 0)%Z; [reflexivity |].
  rewrite IH. apply perm_swap.
Qed.

Lemma Array_sort_Permutation l : Array_sort comparefn l ≡ₚ l.
Proof.
  induction l as [|x l IH]; simpl; [reflexivity |].
  rewrite Array_insert_Permutation, IH. reflexivity.
Qed.

Context (Hcmp : ConsistentComparator comparefn).

Lemma Array_insert_StronglySorted x l :
  StronglySorted (notAfter comparefn) l →
  StronglySorted (notAfter comparefn) (Array_insert comparefn x l).
Proof.
  induction 1 as [|y l Hs IH Hy]; simpl.
  - repeat constructor.
  - destruct (comparefn x y <=? 0)%Z eqn:E.
    + apply Z.leb_le in E. constructor; [constructor; assumption |].
      constructor; [exact E |].
      eapply Forall_impl; [exact Hy |]. intros z Hz.
      exact (comparator_trans _ Hcmp x y z E Hz).
    + apply Z.leb_gt in E. constructor; [exact IH |].
      rewrite Array_insert_Permutation. constructor; [| exact Hy].
      destruct (comparator_total _ Hcmp x y) as [H | H]; [unfold notAfter in *; lia | exact H].
Qed.

Lemma Array_sort_StronglySorted l :
  StronglySorted (notAfter comparefn) (Array_sort comparefn l).
Proof.
  induction l as [|x l IH]; simpl; [constructor |].
  apply Array_insert_StronglySorted, IH.
Qed.

(** In a sorted array an element is not after the ones that follow. *)
Lemma StronglySorted_lookup_lt (l : list A) :
  StronglySorted (notAfter comparefn) l →
  ∀ i j x y, (i < j)%nat → l !! i = Some x → l !! j = Some y →
             notAfter comparefn x y.
Proof.
  induction 1 as [|z l Hs IH Hz]; intros i j x y Hij Hi Hj; [discriminate |].
  destruct j as [|j]; [lia |]. simpl in Hj.
  destruct i as [|i]; simpl in Hi.
  - injection Hi as ->. rewrite Forall_forall in Hz. apply Hz.
    eapply list_elem_of_lookup_2. exact Hj.
  - apply (IH i j); [lia | assumption | assumption].
Qed.

End Sorting.

Section MenuOrder.

Context (h : Host).

Lemma compareGroups_consistent (test : string → bool) :
  ConsistentComparator (localeCompare h) →
  ConsistentComparator (compareGroups h test).
Proof.
  intros [Htotal Htrans]. split; unfold compareGroups.
  - intros x y.
    destruct (test (fst x)), (test (fst y)); simpl; try apply Htotal; lia.
  - intros x y z.
    destruct (test (fst x)), (test (fst y)), (test (fst z)); simpl;
      try apply Htrans; lia.
Qed.

(** What [compareGroups] says of two groups when the first is not after
    the second. *)
Lemma compareGroups_notAfter (test : string → bool) g1 g2 :
  (compareGroups h test g1 g2 ≤ 0)%Z →
  (test (fst g2) = true → test (fst g1) = true)
  ∧ (test (fst g1) = test (fst g2) → (localeCompare h (fst g1) (fst g2) ≤ 0)%Z).
Proof.
  unfold compareGroups.
  destruct (test (fst g1)), (test (fst g2));
    simpl; intros H; split; intros; try assumption; try reflexivity;
    try discriminate; lia.
Qed.

Lemma matchCurrentRemote_core s s' :
  sameCore s s' → matchCurrentRemote h s' = matchCurrentRemote h s.
Proof.
  intros [_ Ha Hv _ _]. unfold matchCurrentRemote. rewrite Ha, Hv. reflexivity.
Qed.

(** There is no matcher exactly when there is neither an authority nor a
    virtual workspace location. *)
Lemma matchCurrentRemote_None s :
  matchCurrentRemote h s = Returns None ↔
  truthy (remoteAuthority s) = None ∧ virtualWorkspaceLocation s = None.
Proof.
  unfold matchCurrentRemote, newRegExp.
  destruct (truthy (remoteAuthority s)) as [a|];
    [| destruct (virtualWorkspaceLocation s) as [loc|]];
    repeat match goal with |- context [RegExp_new h ?src] =>
             destruct (RegExp_new h src) end;
    split; intros Hx; try discriminate; try tauto;
    destruct Hx; discriminate.
Qed.

Lemma getRemoteMenuActions_refresh w s :
  fst (getRemoteMenuActions w true s) =
  List.filter (λ a, accepts groupNamePattern (fst a)) (remoteIndicatorMenu w)
  ++ legacyIndicatorMenu w.
Proof.
  unfold getRemoteMenuActions.
  pose proof (filterValidated_fst (remoteIndicatorMenu w) s) as H1.
  destruct (filterValidated (remoteIndicatorMenu w) s) as [valid s1].
  simpl in H1. subst valid.
  destruct (remoteMenuActionsGroups s); reflexivity.
Qed.

(** What [orderedActionGroups] returns, by the outcome of
    [matchCurrentRemote]: with a matcher the sorted aggregated groups,
    which the cache then holds; without one the aggregated groups; and it
    throws when the pattern does not compile. *)
Lemma orderedActionGroups_eq w s :
  fst (orderedActionGroups h w s) =
  match matchCurrentRemote h s with
  | Returns (Some test) =>
      Returns (Array_sort (compareGroups h test) (fst (getRemoteMenuActions w true s)))
  | Returns None => Returns (fst (getRemoteMenuActions w true s))
  | Throws => Throws
  end
  ∧ (∀ test, matchCurrentRemote h s = Returns (Some test) →
       remoteMenuActionsGroups (snd (orderedActionGroups h w s)) =
       Some (Array_sort (compareGroups h test) (fst (getRemoteMenuActions w true s)))).
Proof.
  unfold orderedActionGroups.
  pose proof (getRemoteMenuActions_core w true s) as Hcore.
  destruct (getRemoteMenuActions w true s) as [groups s1]. simpl in *.
  rewrite (matchCurrentRemote_core _ _ Hcore).
  destruct (matchCurrentRemote h s) as [[test|]|]; simpl; split;
    try reflexivity; intros test' E; try discriminate.
  injection E as <-. reflexivity.
Qed.

End MenuOrder.

(** Comparison by code units is a consistent comparison function. *)
Section CodeUnitOrder.

Lemma Ascii_compare_N a b :
  Ascii.compare a b = (N_of_ascii a ?= N_of_ascii b)%N.
Proof. reflexivity. Qed.

Lemma String_compare_trans_notGt x : ∀ y z,
  String.compare x y ≠ Gt → String.compare y z ≠ Gt → String.compare x z ≠ Gt.
Proof.
  induction x as [|a x IH]; intros [|b y] [|c z]; simpl;
    try congruence.
  rewrite !Ascii_compare_N.
  destruct (N.compare_spec (N_of_ascii a) (N_of_ascii b)),
    (N.compare_spec (N_of_ascii b) (N_of_ascii c)),
    (N.compare_spec (N_of_ascii a) (N_of_ascii c));
    try congruence; try lia.
  apply IH.
Qed.

Lemma codeUnitCompare_notGt x y :
  (codeUnitCompare x y ≤ 0)%Z ↔ String.compare x y ≠ Gt.
Proof.
  unfold codeUnitCompare. destruct (String.compare x y); split;
    intros; try lia; congruence.
Qed.

Lemma codeUnitCompare_consistent : ConsistentComparator codeUnitCompare.
Proof.
  split.
  - intros x y. rewrite !codeUnitCompare_notGt.
    rewrite (String.compare_antisym x y).
    destruct (String.compare y x); simpl; [left | right | left]; congruence.
  - intros x y z. rewrite !codeUnitCompare_notGt.
    apply String_compare_trans_notGt.
Qed.

End CodeUnitOrder.

(** Claim C8.  There is no matcher exactly when neither a remote authority
    nor a virtual workspace location is set.  With a matcher, and a
    [localeCompare] that orders the keys, the groups of the menu are the
    aggregated groups in another order, in which a group whose key the
    matcher finds is never after one whose key it does not find, and of two
    groups on the same side the earlier is not after the later for
    [localeCompare]; the cache holds the groups in that order.  On a host
    that takes [ssh] for the remote name of [ssh] and puts
    [remote_00_ssh_c] before [remote_01_ssh_a], the keys [remote_01_ssh_a],
    [virtualfs_00_git_b], [remote_00_ssh_c] come out as [remote_00_ssh_c],
    [remote_01_ssh_a], [virtualfs_00_git_b]. *)
Theorem current_remote_groups_first
    (h : Host) (w : World) (s : RemoteStatusIndicator) (test : string → bool) :
  ConsistentComparator (localeCompare h) →
  matchCurrentRemote h s = Returns (Some test) →
  let aggregated := fst (getRemoteMenuActions w true s) in
  let ordered := Array_sort (compareGroups h test) aggregated in
  (∀ s', matchCurrentRemote h s' = Returns None ↔
         truthy (remoteAuthority s') = None ∧ virtualWorkspaceLocation s' = None)
  ∧ fst (orderedActionGroups h w s) = Returns ordered
  ∧ ordered ≡ₚ aggregated
  ∧ (∀ i j gi gj, (i < j)%nat →
       ordered !! i = Some gi → ordered !! j = Some gj →
       (test (fst gj) = true → test (fst gi) = true)
       ∧ (test (fst gi) = test (fst gj) →
          (localeCompare h (fst gi) (fst gj) ≤ 0)%Z))
  ∧ remoteMenuActionsGroups (snd (orderedActionGroups h w s)) = Some ordered
  ∧ (SshExampleHost h →
     remoteAuthority s = Some "ssh" →
     ∀ actions_a actions_b actions_c,
       remoteIndicatorMenu w =
         [("remote_01_ssh_a", actions_a); ("virtualfs_00_git_b", actions_b);
          ("remote_00_ssh_c", actions_c)] →
       legacyIndicatorMenu w = [] →
       ordered =
         [("remote_00_ssh_c", actions_c); ("remote_01_ssh_a", actions_a);
          ("virtualfs_00_git_b", actions_b)]).
Proof.
  intros Hlc Hm aggregated ordered.
  destruct (orderedActionGroups_eq h w s) as [Hfst Hcache].
  rewrite Hm in Hfst. specialize (Hcache test Hm).
  split; [apply matchCurrentRemote_None |].
  split; [exact Hfst |].
  split; [apply Array_sort_Permutation |].
  split; [| split; [exact Hcache |]].
  - intros i j gi gj Hij Hi Hj. apply compareGroups_notAfter.
    pose proof (Array_sort_StronglySorted _
                  (compareGroups_consistent h test Hlc) aggregated) as Hs.
    exact (StronglySorted_lookup_lt _ _ Hs i j gi gj Hij Hi Hj).
  - intros (Hname & (test' & Hnew & Hta & Htb & Htc) & Hcmp) Hauth
      actions_a actions_b actions_c Hmenu Hlegacy.
    assert (test' = test) as ->.
    { unfold matchCurrentRemote, newRegExp in Hm. rewrite Hauth in Hm.
      cbn [truthy] in Hm. rewrite Hname in Hm.
      change ("^remote_\d\d_" +:+ "ssh" +:+ "_") with "^remote_\d\d_ssh_" in Hm.
      rewrite Hnew in Hm. injection Hm as <-. reflexivity. }
    unfold ordered, aggregated.
    rewrite getRemoteMenuActions_refresh, Hmenu, Hlegacy.
    change (List.filter _ _ ++ [])
      with [("remote_01_ssh_a", actions_a); ("virtualfs_00_git_b", actions_b);
            ("remote_00_ssh_c", actions_c)].
    assert (Hbc : compareGroups h test
                    ("virtualfs_00_git_b", actions_b) ("remote_00_ssh_c", actions_c)
                  = 1%Z)
      by (unfold compareGroups; simpl; rewrite Htb, Htc; reflexivity).
    assert (Hac : compareGroups h test
                    ("remote_01_ssh_a", actions_a) ("remote_00_ssh_c", actions_c)
                  = localeCompare h "remote_01_ssh_a" "remote_00_ssh_c")
      by (unfold compareGroups; simpl; rewrite Hta, Htc; reflexivity).
    assert (Hab : compareGroups h test
                    ("remote_01_ssh_a", actions_a) ("virtualfs_00_git_b", actions_b)
                  = (-1)%Z)
      by (unfold compareGroups; simpl; rewrite Hta, Htb; reflexivity).
    set (cmp := compareGroups h test) in *.
    cbn [Array_sort Array_insert]. rewrite Hbc. simpl. rewrite Hac.
    destruct (Z.leb_spec (localeCompare h "remote_01_ssh_a" "remote_00_ssh_c") 0);
      [lia |].
    rewrite Hab. reflexivity.
Qed.

(** Claim C8 at a run: the three keys of the example, with the authority
    [ssh]. *)
Lemma current_remote_groups_first_witness :
  let w :=
    World_set_remoteIndicatorMenu
      [("remote_01_ssh_a", []); ("virtualfs_00_git_b", []); ("remote_00_ssh_c", [])]
      exampleWorld in
  let s := self (construct exampleHost w (Some "ssh")) in
  fst (orderedActionGroups exampleHost w s) =
    Returns [("remote_00_ssh_c", []); ("remote_01_ssh_a", []);
             ("virtualfs_00_git_b", [])].
Proof.
  intros w s.
  destruct (current_remote_groups_first exampleHost w s _
              codeUnitCompare_consistent eq_refl)
    as (_ & Hordered & _ & _ & _ & Hexample).
  rewrite Hordered. apply (f_equal Returns). apply Hexample; try reflexivity.
  split; [reflexivity |]. split; [| reflexivity].
  eexists. split; [reflexivity |]. repeat split.
Defined.

(** ** Separators between categories *)

Section Separators.

Lemma fold_emitAction_started actions : ∀ items lastCategoryName,
  fold_left emitAction actions (items, lastCategoryName, true) =
  (items ++ map itemOfAction (plainActions actions), lastCategoryName, true).
Proof.
  induction actions as [|a actions IH]; intros items lastCategoryName; simpl.
  - rewrite app_nil_r. reflexivity.
  - destruct a as [item | title]; simpl; [| apply IH].
    rewrite IH, <- app_assoc. reflexivity.
Qed.

(** One group: nothing without a plain action; otherwise a separator when
    the category of the first plain action is not [lastCategoryName],
    then the items, and that category becomes [lastCategoryName]. *)
Lemma emitGroup_eq items lastCategoryName (g : ActionGroup) :
  emitGroup (items, lastCategoryName) g =
  match plainActions (snd g) with
  | [] => (items, lastCategoryName)
  | first :: _ =>
      (items
       ++ (if bool_decide (getCategoryLabel first ≠ lastCategoryName)
           then [QuickPickSeparator (getCategoryLabel first)] else [])
       ++ map itemOfAction (plainActions (snd g)),
       getCategoryLabel first)
  end.
Proof.
  unfold emitGroup. destruct g as [key actions]. simpl.
  induction actions as [|a actions IH]; simpl; [reflexivity |].
  destruct a as [item | title]; simpl; [| exact IH].
  case_bool_decide as Hc.
  - rewrite fold_emitAction_started, <- !app_assoc. reflexivity.
  - rewrite fold_emitAction_started, <- !app_assoc. simpl.
    rewrite Hc. reflexivity.
Qed.

Lemma separators_app a b : separators (a ++ b) = separators a ++ separators b.
Proof. apply omap_app. Qed.

Lemma separators_separator label items :
  separators (QuickPickSeparator label :: items) = label :: separators items.
Proof. reflexivity. Qed.

Lemma separators_items actions : separators (map itemOfAction actions) = [].
Proof. induction actions; simpl; auto. Qed.

(** [lastCategoryName] is the label of the last separator emitted. *)
Lemma emitGroups_lastCategoryName (groups : list ActionGroup) :
  snd (fold_left emitGroup groups ([], None)) =
  lastSeparatorLabel (fst (fold_left emitGroup groups ([], None))).
Proof.
  induction groups as [|g groups IH] using rev_ind; [reflexivity |].
  rewrite fold_left_app. simpl.
  destruct (fold_left emitGroup groups ([], None)) as [items lastCategoryName].
  simpl in IH. rewrite emitGroup_eq.
  destruct (plainActions (snd g)) as [|first rest] eqn:Ep; [exact IH |].
  cbn [fst snd]. unfold lastSeparatorLabel.
  rewrite !separators_app, separators_items, app_nil_r.
  case_bool_decide as Hc; simpl.
  - rewrite last_snoc. reflexivity.
  - rewrite app_nil_r, Hc. exact IH.
Qed.

Lemma emitGroups_snoc (groups : list ActionGroup) (g : ActionGroup) :
  emitGroups (groups ++ [g]) =
  emitGroups groups ++
  match plainActions (snd g) with
  | [] => []
  | first :: _ =>
      (if bool_decide (getCategoryLabel first ≠ lastSeparatorLabel (emitGroups groups))
       then [QuickPickSeparator (getCategoryLabel first)] else [])
      ++ map itemOfAction (plainActions (snd g))
  end.
Proof.
  unfold emitGroups. rewrite fold_left_app. cbn [fold_left].
  pose proof (emitGroups_lastCategoryName groups) as Hlast.
  destruct (fold_left emitGroup groups ([], None)) as [items lastCategoryName].
  cbn [fst snd] in *. subst lastCategoryName. rewrite emitGroup_eq.
  destruct (plainActions (snd g)); cbn [fst]; [rewrite app_nil_r |]; reflexivity.
Qed.

Lemma allOfCategory_plainActions category (g : ActionGroup) :
  allOfCategory category g →
  length (plainActions (snd g)) = length (snd g)
  ∧ Forall (λ item, getCategoryLabel item = Some category) (plainActions (snd g)).
Proof.
  unfold allOfCategory. induction 1 as [|a actions (item & -> & Hc) _ [IH1 IH2]];
    simpl; [split; [reflexivity | constructor] |].
  split; [f_equal; exact IH1 | constructor; assumption].
Qed.

End Separators.

Section DockerGroups.

Lemma lastSeparatorLabel_snoc (groups : list ActionGroup) (g : ActionGroup) first rest :
  plainActions (snd g) = first :: rest →
  lastSeparatorLabel (emitGroups (groups ++ [g])) = getCategoryLabel first.
Proof.
  intros Ep. unfold emitGroups. rewrite <- emitGroups_lastCategoryName.
  rewrite fold_left_app. cbn [fold_left].
  destruct (fold_left emitGroup groups ([], None)) as [items lastCategoryName].
  rewrite emitGroup_eq, Ep. reflexivity.
Qed.

(** Two groups of one category after any others: one separator at most,
    and none when the last separator has that category already. *)
Lemma emitGroups_same_category category (groups : list ActionGroup)
    (g1 g2 : ActionGroup) :
  allOfCategory category g1 → allOfCategory category g2 →
  snd g1 ≠ [] ∨ snd g2 ≠ [] →
  emitGroups (groups ++ [g1; g2]) =
  emitGroups groups
  ++ (if bool_decide (Some category ≠ lastSeparatorLabel (emitGroups groups))
      then [QuickPickSeparator (Some category)] else [])
  ++ map itemOfAction (plainActions (snd g1))
  ++ map itemOfAction (plainActions (snd g2)).
Proof.
  intros H1 H2 Hne.
  apply allOfCategory_plainActions in H1 as [Hl1 Hc1].
  apply allOfCategory_plainActions in H2 as [Hl2 Hc2].
  change (groups ++ [g1; g2]) with (groups ++ [g1] ++ [g2]).
  rewrite app_assoc, emitGroups_snoc.
  destruct (plainActions (snd g1)) as [|f1 r1] eqn:E1.
  - (* the first group is empty *)
    rewrite emitGroups_snoc, E1, !app_nil_r.
    destruct (plainActions (snd g2)) as [|f2 r2] eqn:E2.
    + destruct Hne as [Hne | Hne]; exfalso; apply Hne;
        [destruct (snd g1) | destruct (snd g2)]; simpl in *; congruence.
    + inversion Hc2 as [|? ? Hf2 _]; subst. rewrite Hf2. reflexivity.
  - rewrite (lastSeparatorLabel_snoc groups g1 f1 r1 E1).
    rewrite emitGroups_snoc, E1.
    inversion Hc1 as [|? ? Hf1 _]; subst. rewrite Hf1.
    destruct (plainActions (snd g2)) as [|f2 r2] eqn:E2.
    + rewrite !app_nil_r. reflexivity.
    + inversion Hc2 as [|? ? Hf2 _]; subst. rewrite Hf2.
      rewrite (bool_decide_eq_false_2 (Some category ≠ Some category))
        by (intros Hn; apply Hn; reflexivity).
      rewrite <- !app_assoc. reflexivity.
Qed.

End DockerGroups.

(** Claim C9.  The entries of a group follow those of the groups before
    it; a group without a plain menu action adds nothing, and another adds
    its items, preceded by a separator labelled with the category of its
    first plain menu action exactly when that category (or its absence) is
    not the label of the last separator emitted so far (absent when there
    is none).  Hence two consecutive groups whose actions all have the
    category [Docker], not both empty, add one [Docker] separator or none
    after other groups, and give exactly one when they are the whole
    menu. *)
Theorem separator_only_when_category_changes
    (groups : list ActionGroup) (g g1 g2 : ActionGroup) :
  emitGroups (groups ++ [g]) =
    emitGroups groups ++
    match plainActions (snd g) with
    | [] => []
    | first :: _ =>
        (if bool_decide (getCategoryLabel first ≠ lastSeparatorLabel (emitGroups groups))
         then [QuickPickSeparator (getCategoryLabel first)] else [])
        ++ map itemOfAction (plainActions (snd g))
    end
  ∧ (allOfCategory "Docker" g1 → allOfCategory "Docker" g2 →
     snd g1 ≠ [] ∨ snd g2 ≠ [] →
     separators (emitGroups (groups ++ [g1; g2])) =
       separators (emitGroups groups)
       ++ (if bool_decide (Some "Docker" ≠ lastSeparatorLabel (emitGroups groups))
           then [Some "Docker"] else [])
     ∧ emitGroups [g1; g2] =
       QuickPickSeparator (Some "Docker")
       :: map itemOfAction (plainActions (snd g1))
       ++ map itemOfAction (plainActions (snd g2))
     ∧ separators (emitGroups [g1; g2]) = [Some "Docker"]).
Proof.
  split; [apply emitGroups_snoc |].
  intros H1 H2 Hne.
  pose proof (emitGroups_same_category "Docker" groups g1 g2 H1 H2 Hne) as Hany.
  pose proof (emitGroups_same_category "Docker" [] g1 g2 H1 H2 Hne) as Hwhole.
  cbn [app] in Hwhole. change (emitGroups []) with (@nil QuickPickEntry) in Hwhole.
  change (lastSeparatorLabel []) with (@None string) in Hwhole.
  rewrite bool_decide_eq_true_2 in Hwhole by discriminate.
  cbn [app] in Hwhole.
  split; [| split].
  - rewrite Hany, !separators_app, !separators_items, !app_nil_r.
    case_bool_decide; reflexivity.
  - exact Hwhole.
  - rewrite Hwhole, separators_separator, separators_app, !separators_items.
    reflexivity.
Qed.

(** Claim C9 at a run: two [Docker] groups, one separator. *)
Lemma separator_only_when_category_changes_witness :
  let g1 : ActionGroup :=
    ("remote_00_docker_a", [exampleAction "docker.attach" "Attach" "Docker"]) in
  let g2 : ActionGroup :=
    ("remote_01_docker_b", [exampleAction "docker.build" "Build" "Docker";
                            exampleAction "docker.run" "Run" "Docker"]) in
  emitGroups [g1; g2] =
    [QuickPickSeparator (Some "Docker");
     QuickPickItem "docker.attach" "Attach" false;
     QuickPickItem "docker.build" "Build" false;
     QuickPickItem "docker.run" "Run" false].
Proof.
  intros g1 g2.
  refine (proj1 (proj2 (proj2 (separator_only_when_category_changes [] g1 g1 g2) _ _ _))).
  - repeat constructor; eexists; split; reflexivity.
  - repeat constructor; eexists; split; reflexivity.
  - left. discriminate.
Defined.

(** ** The fixed entries of the menu *)

Section FixedEntries.

Context (h : Host).

(** The entry to connect, the second separator and the three entries that
    log are pushed whatever the state. *)
Lemma configEntries_shape w s :
  ∃ before after,
    configEntries h w s =
    before
    ++ [QuickPickItem CONNECT_REMOTE_COMMAND_ID
          (nls_localize h "connectRemoteConnection.title"
             "Connect Remote Connection" []) false;
        QuickPickSeparator None;
        QuickPickItem "remote.logRemoteAuthority"
          (nls_localize h "remote.logRemoteAuthority" "Log Remote Authority" [])
          false;
        QuickPickItem "remote.logVirtualWorkspaceLocation"
          (nls_localize h "remote.logVirtualWorkspaceLocation"
             "Log Virtual Workspace Location" []) false;
        QuickPickItem "remote.logExtensionGalleryService"
          (nls_localize h "remote.logExtensionGalleryService"
             "Log Extension Gallery Service" []) false]
    ++ after
    ∧ (after = [] ∨ ∃ label, after = [QuickPickItem INSTALL_REMOTE_EXTENSIONS_ID label true]).
Proof.
  exists
    (match truthy (remoteAuthority s) with
     | Some _ =>
         QuickPickItem CLOSE_REMOTE_COMMAND_ID
           (nls_localize h "closeRemoteConnection.title"
              "Close Remote Connection" []) false
         :: (if bool_decide (connectionState s = Some disconnected) then
               [QuickPickItem (ReloadWindowAction_ID h)
                  (nls_localize h "reloadWindow" "Reload Window" []) false]
             else [])
     | None =>
         match virtualWorkspaceLocation s with
         | Some _ =>
             [QuickPickItem CLOSE_REMOTE_COMMAND_ID
                (nls_localize h "closeVirtualWorkspace.title"
                   "Close Remote Workspace" []) false]
         | None => []
         end
     end),
    (if bool_decide (truthy (remoteAuthority s) = None)
        && bool_decide (virtualWorkspaceLocation s = None)
        && extensionGallery_isEnabled w
     then [QuickPickItem INSTALL_REMOTE_EXTENSIONS_ID
             (nls_localize h "installRemotes"
                "Install Additional Remote Extensions..." []) true]
     else []).
  unfold configEntries, SHOW_CLOSE_REMOTE_COMMAND_ID, isWeb. cbn [negb].
  destruct (truthy (remoteAuthority s)), (virtualWorkspaceLocation s),
    (extensionGallery_isEnabled w),
    (bool_decide (connectionState s = Some disconnected));
    simpl; split; try reflexivity; eauto.
Qed.

(** The end of [computeItems] on a list that ends with the plain
    separator and what was pushed after it. *)
Lemma popIfNothingFollows_eq (contributed fixed : list QuickPickEntry) :
  popIfNothingFollows (length (contributed ++ [QuickPickSeparator None]))
    ((contributed ++ [QuickPickSeparator None]) ++ fixed) =
  match fixed with
  | [] => contributed
  | _ :: _ => contributed ++ [QuickPickSeparator None] ++ fixed
  end.
Proof.
  unfold popIfNothingFollows. destruct fixed as [|e fixed].
  - rewrite app_nil_r, Nat.eqb_refl. apply removelast_last.
  - rewrite <- app_assoc.
    destruct (Nat.eqb_spec
                (length (contributed ++ [QuickPickSeparator None] ++ e :: fixed))
                (length (contributed ++ [QuickPickSeparator None]))) as [E | _];
      [| reflexivity].
    rewrite !length_app in E. simpl in E. lia.
Qed.

End FixedEntries.

Lemma configEntries_ends h w s :
  (∃ id label alwaysShow rest,
     configEntries h w s = QuickPickItem id label alwaysShow :: rest)
  ∧ (∃ id label alwaysShow,
       last (configEntries h w s) = Some (QuickPickItem id label alwaysShow)).
Proof.
  unfold configEntries, SHOW_CLOSE_REMOTE_COMMAND_ID, isWeb. cbn [negb].
  destruct (truthy (remoteAuthority s)), (virtualWorkspaceLocation s),
    (extensionGallery_isEnabled w),
    (bool_decide (connectionState s = Some disconnected));
    simpl; split; repeat eexists.
Qed.

(** [computeItems] returns unless the pattern of the matcher does not
    compile. *)
Lemma computeItems_Throws h w s :
  fst (computeItems h w s) = Throws ↔ matchCurrentRemote h s = Throws.
Proof.
  unfold computeItems.
  pose proof (proj1 (orderedActionGroups_eq h w s)) as Hfst.
  destruct (orderedActionGroups h w s) as [[groups|] s1]; simpl in *;
    destruct (matchCurrentRemote h s) as [[test|]|]; split; intros E;
    try discriminate; reflexivity.
Qed.

(** Claim C10.  The end of [computeItems] removes the plain separator when
    nothing was pushed after it and keeps the list otherwise.  Something is
    always pushed after it: a list handed to the quick pick is the
    contributed entries, the plain separator, and the fixed entries, of
    which there are at least the entry to connect, the second separator and
    the three entries that log; so the plain separator is followed by an
    item, and the list ends with an item, never with that separator.
    [computeItems] hands a list over unless the pattern of the matcher does
    not compile. *)
Theorem plain_separator_is_followed
    (h : Host) (w : World) (s : RemoteStatusIndicator) (items : list QuickPickEntry) :
  fst (computeItems h w s) = Returns items →
  let fixed := configEntries h w (snd (orderedActionGroups h w s)) in
  (∀ before pushed,
     popIfNothingFollows (length (before ++ [QuickPickSeparator None]))
       ((before ++ [QuickPickSeparator None]) ++ pushed) =
     match pushed with
     | [] => before
     | _ :: _ => before ++ [QuickPickSeparator None] ++ pushed
     end)
  ∧ (fst (computeItems h w s) = Throws ↔ matchCurrentRemote h s = Throws)
  ∧ ∃ ordered,
      fst (orderedActionGroups h w s) = Returns ordered
      ∧ items = emitGroups ordered ++ [QuickPickSeparator None] ++ fixed
      ∧ (∃ before after,
           fixed =
           before
           ++ [QuickPickItem CONNECT_REMOTE_COMMAND_ID
                 (nls_localize h "connectRemoteConnection.title"
                    "Connect Remote Connection" []) false;
               QuickPickSeparator None;
               QuickPickItem "remote.logRemoteAuthority"
                 (nls_localize h "remote.logRemoteAuthority"
                    "Log Remote Authority" []) false;
               QuickPickItem "remote.logVirtualWorkspaceLocation"
                 (nls_localize h "remote.logVirtualWorkspaceLocation"
                    "Log Virtual Workspace Location" []) false;
               QuickPickItem "remote.logExtensionGalleryService"
                 (nls_localize h "remote.logExtensionGalleryService"
                    "Log Extension Gallery Service" []) false]
           ++ after)
      ∧ items !! length (emitGroups ordered) = Some (QuickPickSeparator None)
      ∧ (∃ id label alwaysShow,
           items !! S (length (emitGroups ordered))
           = Some (QuickPickItem id label alwaysShow))
      ∧ (∃ id label alwaysShow,
           last items = Some (QuickPickItem id label alwaysShow)).
Proof.
  intros Hret fixed.
  split; [apply popIfNothingFollows_eq |].
  split; [apply computeItems_Throws |].
  unfold computeItems in Hret. unfold fixed. clear fixed.
  destruct (orderedActionGroups h w s) as [[ordered|] s1]; [| discriminate].
  cbn [fst snd] in *. exists ordered. split; [reflexivity |].
  destruct (configEntries_ends h w s1)
    as [(id & label & a & rest & Hhead) (id' & label' & a' & Hlast)].
  assert (Hitems : items =
            emitGroups ordered ++ [QuickPickSeparator None] ++ configEntries h w s1).
  { injection Hret as <-. rewrite popIfNothingFollows_eq, Hhead. reflexivity. }
  split; [exact Hitems |]. split; [| split; [| split]].
  - destruct (configEntries_shape h w s1) as (before & after & E & _).
    exists before, after. exact E.
  - rewrite Hitems, lookup_app_r, Nat.sub_diag by lia. reflexivity.
  - exists id, label, a. rewrite Hitems, Hhead, lookup_app_r by lia.
    replace (S (length (emitGroups ordered)) - length (emitGroups ordered))%nat
      with 1%nat by lia.
    reflexivity.
  - exists id', label', a'. rewrite Hitems, Hhead, app_assoc, last_app.
    rewrite <- Hhead, Hlast. reflexivity.
Qed.

(** Claim C10 at a run: without an authority, a virtual workspace or the
    extension gallery, and without contributions, the plain separator
    comes first and the entry to connect follows it. *)
Lemma plain_separator_is_followed_witness :
  let s := self (construct exampleHost exampleWorld None) in
  ∃ items,
    fst (computeItems exampleHost exampleWorld s) = Returns items
    ∧ items !! 0%nat = Some (QuickPickSeparator None)
    ∧ ∃ id label alwaysShow, last items = Some (QuickPickItem id label alwaysShow).
Proof.
  intros s. eexists. split; [reflexivity |].
  destruct (plain_separator_is_followed exampleHost exampleWorld s _ eq_refl)
    as (_ & _ & ordered & Hordered & _ & _ & Hsep & _ & Hlast).
  injection Hordered as <-. split; [exact Hsep | exact Hlast].
Defined.

(* ================================================================== *)
(** * Part III: more of the component                                  *)
(* ================================================================== *)

(** ** The commands to connect and to close *)

Section PageCommands.

Lemma connectRun_host f b : location_host (connectRun f b) = location_host b.
Proof. destruct f as [[] ? [] [] []]; reflexivity. Qed.

Lemma closeRun_host f b : location_host (closeRun f b) = location_host b.
Proof. destruct f as [? [] [] [] []]; reflexivity. Qed.

(** The storage after [connectRun]: the key holds the host unless
    [setItem] threw. *)
Lemma connectRun_storage f b :
  localStorage (connectRun f b) =
  if setItem_throws f then localStorage b
  else <[remoteAuthorityKey (location_host b) := location_host b]> (localStorage b).
Proof. destruct f as [[] ? [] [] []]; reflexivity. Qed.

(** The storage after [closeRun]: the key is gone unless [openWindow] or
    [removeItem] threw. *)
Lemma closeRun_storage f b :
  localStorage (closeRun f b) =
  if openWindow_throws f || removeItem_throws f then localStorage b
  else delete (remoteAuthorityKey (location_host b)) (localStorage b).
Proof. destruct f as [? [] [] [] []]; reflexivity. Qed.

(** What [connectRun] calls: nothing when the key cannot be stored or read
    back, and then as far as nothing throws. *)
Lemma connectRun_calls f b :
  let host := location_host b in
  let key := remoteAuthorityKey host in
  browserCalls (connectRun f b) =
  browserCalls b ++
  (if setItem_throws f || getItem_throws f then []
   else console_log [Some "set"; Some key; Some host]
        :: (if openWindow_throws f then []
            else hostService_openWindow true (Some host)
                 :: (if reload_throws f then [] else [location_reload]))).
Proof.
  destruct f as [[] rm [] [] []]; unfold connectRun, tryIgnore; simpl;
    rewrite ?lookup_insert_eq, ?app_nil_r, <- ?app_assoc; reflexivity.
Qed.

Lemma closeRun_calls f b :
  let host := location_host b in
  let key := remoteAuthorityKey host in
  browserCalls (closeRun f b) =
  browserCalls b ++
  (if openWindow_throws f then []
   else hostService_openWindow true None
        :: (if removeItem_throws f || getItem_throws f then []
            else console_log [Some "clear"; Some key; None]
                 :: (if reload_throws f then [] else [location_reload]))).
Proof.
  destruct f as [st [] [] [] []]; unfold closeRun, tryIgnore; simpl;
    rewrite ?lookup_delete_eq, ?app_nil_r, <- ?app_assoc; reflexivity.
Qed.

End PageCommands.

(** Extra X1.  To close after connecting gives back the storage without
    the key of the page, whatever threw while connecting, provided the
    window could be opened and the key removed; it is the storage from
    before when the key was not in it.  After connecting the key holds the
    host, unless [setItem] threw. *)
Theorem close_after_connect_storage (f1 f2 : Faults) (b : Browser) :
  openWindow_throws f2 = false → removeItem_throws f2 = false →
  let key := remoteAuthorityKey (location_host b) in
  localStorage (closeRun f2 (connectRun f1 b)) = delete key (localStorage b)
  ∧ (localStorage b !! key = None →
     localStorage (closeRun f2 (connectRun f1 b)) = localStorage b)
  ∧ (setItem_throws f1 = false →
     localStorage (connectRun f1 b) !! key = Some (location_host b)).
Proof.
  intros Ho Hr key.
  assert (E : localStorage (closeRun f2 (connectRun f1 b)) = delete key (localStorage b)).
  { rewrite closeRun_storage, Ho, Hr, connectRun_host, connectRun_storage. simpl.
    destruct (setItem_throws f1); [reflexivity |]. apply delete_insert_eq. }
  split; [exact E |]. split.
  - intros Hnone. rewrite E. apply delete_id. exact Hnone.
  - intros Hs. rewrite connectRun_storage, Hs. apply lookup_insert_eq.
Qed.

(** Extra X1 at a run: a page at [localhost:8080] with another key in its
    storage. *)
Lemma close_after_connect_storage_witness :
  let b :=
    {| location_host := "localhost:8080";
       localStorage := {[ "theme" := "dark" ]};
       browserCalls := [] |} in
  localStorage (closeRun noFaults (connectRun noFaults b)) = localStorage b.
Proof.
  intros b.
  refine (proj1 (proj2 (close_after_connect_storage noFaults noFaults b eq_refl eq_refl)) _).
  vm_compute. reflexivity.
Defined.

(** Extra X2.  Both commands leave the host of the page and every other
    key of the storage, whatever throws; and what they call is a beginning
    of their full sequence of calls, in which the page is reloaded last:
    when it is reloaded after connecting the key holds the host and that
    value was logged, and when it is reloaded after closing the key is
    gone and its absence was logged. *)
Theorem page_commands_effects (f : Faults) (b : Browser) :
  let host := location_host b in
  let key := remoteAuthorityKey host in
  (∀ k, k ≠ key →
     localStorage (connectRun f b) !! k = localStorage b !! k
     ∧ localStorage (closeRun f b) !! k = localStorage b !! k)
  ∧ location_host (connectRun f b) = host
  ∧ location_host (closeRun f b) = host
  ∧ (∃ calls,
       browserCalls (connectRun f b) = browserCalls b ++ calls
       ∧ calls `prefix_of`
           [console_log [Some "set"; Some key; Some host];
            hostService_openWindow true (Some host); location_reload]
       ∧ (location_reload ∈ calls →
          localStorage (connectRun f b) !! key = Some host))
  ∧ (∃ calls,
       browserCalls (closeRun f b) = browserCalls b ++ calls
       ∧ calls `prefix_of`
           [hostService_openWindow true None;
            console_log [Some "clear"; Some key; None]; location_reload]
       ∧ (location_reload ∈ calls → localStorage (closeRun f b) !! key = None)).
Proof.
  intros host key. split; [| split; [| split; [| split]]].
  - intros k Hk. rewrite connectRun_storage, closeRun_storage. split.
    + destruct (setItem_throws f); [reflexivity |]. apply lookup_insert_ne. auto.
    + destruct (openWindow_throws f || removeItem_throws f); [reflexivity |].
      apply lookup_delete_ne. auto.
  - apply connectRun_host.
  - apply closeRun_host.
  - eexists. split; [apply connectRun_calls |]. split.
    + destruct (setItem_throws f || getItem_throws f); [apply prefix_nil |].
      apply prefix_cons.
      destruct (openWindow_throws f); [apply prefix_nil |]. apply prefix_cons.
      destruct (reload_throws f); [apply prefix_nil | reflexivity].
    + rewrite connectRun_storage.
      destruct (setItem_throws f); simpl; [intros Hin; inversion Hin |].
      intros _. apply lookup_insert_eq.
  - eexists. split; [apply closeRun_calls |]. split.
    + destruct (openWindow_throws f); [apply prefix_nil |]. apply prefix_cons.
      destruct (removeItem_throws f || getItem_throws f); [apply prefix_nil |].
      apply prefix_cons.
      destruct (reload_throws f); [apply prefix_nil | reflexivity].
    + rewrite closeRun_storage.
      destruct (openWindow_throws f); simpl; [intros Hin; inversion Hin |].
      destruct (removeItem_throws f); simpl.
      * intros Hin. apply list_elem_of_singleton in Hin. discriminate.
      * intros _. apply lookup_delete_eq.
Qed.

(** ** The status bar entry, in any state *)

(** Extra X3.  A run of [updateRemoteStatusIndicator], in any state and
    through any of its branches, logs warnings at most and then makes at
    most one call to the status bar: it adds an entry only when there was
    none, and updates or disposes one only when there was one.  So the
    entry the component holds stays the entry the status bar was left
    with. *)
Theorem statusbar_one_call_per_run (h : Host) (w : World) (s : RemoteStatusIndicator) :
  remoteStatusEntry s = entryOfTrace (trace s) →
  let s' := snd (updateRemoteStatusIndicator h w s) in
  remoteStatusEntry s' = entryOfTrace (trace s')
  ∧ ∃ logged,
      trace s' =
      trace s ++ logged ++ statusbarCall (remoteStatusEntry s) (remoteStatusEntry s')
      ∧ Forall (λ e, ∃ m, e = logService_warn m) logged.
Proof.
  intros Hm s'.
  destruct (updateRemoteStatusIndicator_Shown h w s) as (logged & Ht & Hf).
  fold s' in Ht. split; [| exists logged; auto].
  rewrite Ht, app_assoc, entryOfTrace_app, (entryOfTrace_logged _ _ Hf), <- Hm.
  destruct (remoteStatusEntry s), (remoteStatusEntry s'); reflexivity.
Qed.

(** Extra X3 at a run: a component just constructed, run again. *)
Lemma statusbar_one_call_per_run_witness :
  let s := self (construct exampleHost exampleWorld None) in
  let s' := snd (updateRemoteStatusIndicator exampleHost exampleWorld s) in
  remoteStatusEntry s' = entryOfTrace (trace s').
Proof.
  intros s s'.
  exact (proj1 (statusbar_one_call_per_run exampleHost exampleWorld s eq_refl)).
Defined.

Section EntryCommand.

Context (h : Host) (w : World).

(** What [renderRemoteStatusIndicator] leaves as the entry. *)
Lemma renderRemoteStatusIndicator_entry text tooltip command progress s :
  ∃ p,
    remoteStatusEntry
      (renderRemoteStatusIndicator h w text tooltip command progress s) = Some p
    ∧ se_text p = text ∧ se_tooltip p = tooltip ∧ se_showProgress p = progress
    ∧ se_command p =
      match command with
      | Some c => Some c
      | None =>
          match currentGroups w s with
          | [] => None
          | _ :: _ => Some REMOTE_ACTIONS_COMMAND_ID
          end
      end.
Proof.
  unfold renderRemoteStatusIndicator.
  destruct (getRemoteMenuActions_currentGroups w s) as [Hg _].
  destruct (getRemoteMenuActions w false s) as [groups s1]. simpl in Hg.
  rewrite <- Hg.
  destruct command as [c|]; [| destruct groups; simpl ];
    match goal with
    | |- context [match remoteStatusEntry ?x with _ => _ end] =>
        destruct (remoteStatusEntry x)
    end; simpl; eexists; repeat split; reflexivity.
Qed.

Lemma currentGroups_getRemoteMenuActions s :
  currentGroups w (snd (getRemoteMenuActions w false s)) = currentGroups w s.
Proof.
  destruct (getRemoteMenuActions_currentGroups w s) as [_ Hc].
  unfold currentGroups at 1. rewrite Hc. reflexivity.
Qed.

End EntryCommand.

(** Extra X4.  Whatever the state, after a run of
    [updateRemoteStatusIndicator] the entry is absent exactly when the
    run ended in the hiding branch, and that branch is taken only with no
    group to show.  An entry that is there carries the window indicator's
    own command if it has one, and otherwise the command that opens the
    remote menu exactly when there is a group to show: no entry opens an
    empty menu, and no entry with a non-empty menu is left without a
    command. *)
Theorem entry_command_follows_groups (h : Host) (w : World) (s : RemoteStatusIndicator) :
  let r := updateRemoteStatusIndicator h w s in
  (remoteStatusEntry (snd r) = None ↔ fst r = HideBranch)
  ∧ (fst r = HideBranch →
     currentGroups w s = [] ∧ windowIndicator s = None
     ∧ truthy (remoteAuthority s) = None)
  ∧ (fst r = MenuAffordanceBranch → currentGroups w s ≠ [])
  ∧ ∀ p, remoteStatusEntry (snd r) = Some p →
      se_command p =
      match windowIndicator s ≫= wi_command with
      | Some c => Some c
      | None =>
          match currentGroups w s with
          | [] => None
          | _ :: _ => Some REMOTE_ACTIONS_COMMAND_ID
          end
      end.
Proof.
  unfold updateRemoteStatusIndicator. cbv zeta.
  pose proof (getRemoteMenuActions_currentGroups w s) as [Hg _].
  pose proof (currentGroups_getRemoteMenuActions w s) as Hc.
  pose proof (disposeRemoteStatusEntry_Shown (snd (getRemoteMenuActions w false s)))
    as [_ Hd].
  destruct (getRemoteMenuActions w false s) as [groups s1]. simpl in Hg, Hc, Hd.
  subst groups.
  assert (Hrender : ∀ text tooltip command progress branch s0 expected,
    branch ≠ HideBranch → branch ≠ MenuAffordanceBranch ∨ currentGroups w s ≠ [] →
    currentGroups w s0 = currentGroups w s →
    expected =
      match command with
      | Some c => Some c
      | None =>
          match currentGroups w s with
          | [] => None
          | _ :: _ => Some REMOTE_ACTIONS_COMMAND_ID
          end
      end →
    (remoteStatusEntry
       (renderRemoteStatusIndicator h w text tooltip command progress s0) = None
     ↔ branch = HideBranch)
    ∧ (branch = HideBranch →
       currentGroups w s = [] ∧ windowIndicator s = None
       ∧ truthy (remoteAuthority s) = None)
    ∧ (branch = MenuAffordanceBranch → currentGroups w s ≠ [])
    ∧ ∀ p, remoteStatusEntry
             (renderRemoteStatusIndicator h w text tooltip command progress s0)
           = Some p →
        se_command p = expected).
  { intros text tooltip command progress branch s0 expected Hb Ha Hs0 ->.
    destruct (renderRemoteStatusIndicator_entry h w text tooltip command progress s0)
      as (p & Hp & _ & _ & _ & Hcmd).
    rewrite Hp, Hs0 in *. repeat split; try congruence; try tauto. }
  destruct (windowIndicator s) as [wi|] eqn:Ewi.
  { destruct (truthy (remoteAuthority s)); cbn [mbind option_bind fst snd];
      apply Hrender; auto; discriminate. }
  cbn [mbind option_bind negb isWeb].
  destruct (truthy (remoteAuthority s)) as [auth|] eqn:Eauth.
  { destruct (connectionState s) as [[]|]; cbn [fst snd];
      apply Hrender; auto; discriminate. }
  destruct (virtualWorkspaceLocation s) as [loc|];
    [ destruct (truthy (Some (getHostLabel w (scheme loc) (authority loc)))) |].
  - cbn [fst snd]. apply Hrender; auto; discriminate.
  - destruct (currentGroups w s) eqn:Eg; cbn [length Nat.ltb Nat.leb fst snd].
    + rewrite Hd. repeat split; auto; try discriminate.
    + apply Hrender; auto; try discriminate; right; discriminate.
  - destruct (currentGroups w s) eqn:Eg; cbn [length Nat.ltb Nat.leb fst snd].
    + rewrite Hd. repeat split; auto; try discriminate.
    + apply Hrender; auto; try discriminate; right; discriminate.
Qed.

(** ** The connection state, in any state *)

Section ConnectionEvents.

Context (h : Host).

(** What [setState] does when the state changes: the context key first,
    then the run of [updateRemoteStatusIndicator]. *)
Lemma setState_changes w newState s :
  connectionState s ≠ Some newState →
  connectionStateContextKey (setState h w newState s)
  = coarseProjection (Some newState)
  ∧ ∃ rest,
      trace (setState h w newState s) =
      trace s ++ contextKey_set (coarseProjection (Some newState)) :: rest
      ∧ Forall (λ e, ∀ v, e ≠ contextKey_set v) rest.
Proof.
  intros Hne. unfold setState. rewrite (bool_decide_eq_true_2 _ Hne).
  set (s1 := if bool_decide _ then _ else _).
  assert (Hs1 : connectionStateContextKey s1 = coarseProjection (Some newState)
                ∧ remoteStatusEntry s1 = remoteStatusEntry s
                ∧ trace s1 = trace s ++ [contextKey_set (coarseProjection (Some newState))]).
  { subst s1. simpl. destruct newState; simpl; auto. }
  destruct Hs1 as (Hk & He & Ht).
  rewrite (core_contextKey _ _ (updateRemoteStatusIndicator_core h w s1)).
  split; [exact Hk |].
  destruct (updateRemoteStatusIndicator_Shown h w s1) as (logged & Hsh & Hf).
  eexists. rewrite Hsh, Ht, <- app_assoc. split; [reflexivity |].
  apply Forall_app. split.
  - eapply Forall_impl; [exact Hf |]. intros e [m ->] v. discriminate.
  - destruct (remoteStatusEntry s1),
      (remoteStatusEntry (snd (updateRemoteStatusIndicator h w s1))); simpl;
      repeat (constructor; try (intros v; discriminate)).
Qed.

End ConnectionEvents.

(** Extra X5.  A connection event that asks for the state the component is
    in does nothing at all: no context key is set and the status bar is
    not touched.  So a second event with the same target, such as
    [ReconnectionRunning] after [ReconnectionWait], is silent, whatever the
    world has become in between.  An event that changes the state sets the
    context key once, to the coarse projection of the new state, and does
    so before the status bar is updated. *)
Theorem repeated_connection_event_is_silent (h : Host) (w1 w2 : World)
    (e1 e2 : PersistentConnectionEventType) (s : RemoteStatusIndicator) :
  eventTarget e1 = eventTarget e2 →
  onDidStateChange h w2 e2 (onDidStateChange h w1 e1 s) = onDidStateChange h w1 e1 s
  ∧ (connectionState s ≠ Some (eventTarget e1) →
     ∃ rest,
       trace (onDidStateChange h w1 e1 s) =
       trace s ++ contextKey_set (coarseProjection (Some (eventTarget e1))) :: rest
       ∧ Forall (λ e, ∀ v, e ≠ contextKey_set v) rest).
Proof.
  intros Ht.
  assert (H1 : ∀ w e s0, onDidStateChange h w e s0 = setState h w (eventTarget e) s0)
    by (intros w e s0; destruct e; reflexivity).
  rewrite !H1, <- Ht. split.
  - unfold setState at 1.
    rewrite (bool_decide_eq_false_2
               (connectionState (setState h w1 (eventTarget e1) s)
                ≠ Some (eventTarget e1))); [reflexivity |].
    intros Hne. apply Hne, setState_connectionState.
  - intros Hne. apply (setState_changes h w1 _ s Hne).
Qed.

(** Extra X5 at a run: [ReconnectionWait], then [ReconnectionRunning]. *)
Lemma repeated_connection_event_is_silent_witness :
  let s := self (construct exampleHost exampleWorld (Some "myhost")) in
  onDidStateChange exampleHost exampleWorld ReconnectionRunning
    (onDidStateChange exampleHost exampleWorld ReconnectionWait s)
  = onDidStateChange exampleHost exampleWorld ReconnectionWait s.
Proof.
  intros s.
  exact (proj1 (repeated_connection_event_is_silent exampleHost exampleWorld
                  exampleWorld ReconnectionWait ReconnectionRunning s eq_refl)).
Defined.

(** ** The cache of the groups and the menu *)

Section Cache.

Context (h : Host).




Lemma validatedGroup_remoteMenuActionsGroups group s :
  remoteMenuActionsGroups (snd (validatedGroup group s)) = remoteMenuActionsGroups s.
Proof. unfold validatedGroup. repeat case_match; reflexivity. Qed.

Lemma filterValidated_remoteMenuActionsGroups groups : ∀ s,
  remoteMenuActionsGroups (snd (filterValidated groups s)) = remoteMenuActionsGroups s.
Proof.
  induction groups as [|a rest IH]; intros s; simpl; [reflexivity |].
  pose proof (validatedGroup_remoteMenuActionsGroups (fst a) s) as H1.
  destruct (validatedGroup (fst a) s) as [ok s1].
  specialize (IH s1). destruct (filterValidated rest s1) as [kept s2].
  simpl in *. congruence.
Qed.













End Cache.

Section ShowMenu.

Context (h : Host).

(** A forced refresh returns the rebuilt groups and caches them. *)
Lemma getRemoteMenuActions_rebuilt w s :
  fst (getRemoteMenuActions w true s) = rebuiltGroups w
  ∧ remoteMenuActionsGroups (snd (getRemoteMenuActions w true s))
    = Some (rebuiltGroups w).
Proof.
  unfold getRemoteMenuActions, rebuiltGroups.
  pose proof (filterValidated_fst (remoteIndicatorMenu w) s) as H1.
  destruct (filterValidated (remoteIndicatorMenu w) s) as [valid s1].
  simpl in H1. subst valid.
  destruct (remoteMenuActionsGroups s); simpl; auto.
Qed.

(** The cache [computeItems] leaves: the groups in the order of the menu,
    or the rebuilt groups when the pattern did not compile. *)
Lemma computeItems_remoteMenuActionsGroups w s :
  remoteMenuActionsGroups (snd (computeItems h w s)) =
  Some match matchCurrentRemote h s with
       | Returns matcher => orderedBy h matcher (rebuiltGroups w)
       | Throws => rebuiltGroups w
       end.
Proof.
  unfold computeItems, orderedActionGroups.
  destruct (getRemoteMenuActions_rebuilt w s) as [Hg Hc].
  pose proof (getRemoteMenuActions_core w true s) as Hcore.
  destruct (getRemoteMenuActions w true s) as [groups s1]. simpl in *.
  subst groups. rewrite (matchCurrentRemote_core h _ _ Hcore).
  destruct (matchCurrentRemote h s) as [[test|]|]; simpl; auto.
Qed.


End ShowMenu.



Section MenuContent.

Context (h : Host).

Lemma configEntries_core w s s' :
  sameCore s s' → configEntries h w s' = configEntries h w s.
Proof.
  intros [_ Ha Hv Hc _]. unfold configEntries. rewrite Ha, Hv, Hc. reflexivity.
Qed.

(** The list [computeItems] returns, from the world and the state it is
    called in. *)
Lemma computeItems_fst w s :
  fst (computeItems h w s) =
  match matchCurrentRemote h s with
  | Returns matcher =>
      Returns (emitGroups (orderedBy h matcher (rebuiltGroups w))
               ++ [QuickPickSeparator None] ++ configEntries h w s)
  | Throws => Throws
  end.
Proof.
  unfold computeItems.
  pose proof (proj1 (orderedActionGroups_eq h w s)) as Hfst.
  pose proof (orderedActionGroups_core h w s) as Hcore.
  rewrite getRemoteMenuActions_refresh in Hfst. fold (rebuiltGroups w) in Hfst.
  destruct (orderedActionGroups h w s) as [[groups|] s1]; simpl in *;
    destruct (matchCurrentRemote h s) as [matcher|];
    try discriminate; try (destruct matcher; discriminate); [| reflexivity].
  assert (groups = orderedBy h matcher (rebuiltGroups w)) as ->
    by (destruct matcher; simpl; congruence).
  rewrite (configEntries_core w _ _ Hcore), popIfNothingFollows_eq.
  destruct (configEntries_ends h w s) as [(id & label & always & rest & ->) _].
  reflexivity.
Qed.

Lemma computeItems_sameCore w s s' :
  sameCore s s' → fst (computeItems h w s') = fst (computeItems h w s).
Proof.
  intros Hcore. rewrite !computeItems_fst, (matchCurrentRemote_core h _ _ Hcore),
    (configEntries_core w _ _ Hcore). reflexivity.
Qed.

(** Every listener of the quick picks computes the same list. *)
Lemma refreshQuickPicks_fst w picks : ∀ s,
  fst (refreshQuickPicks h w picks s) =
  match fst (computeItems h w s) with
  | Returns items => map (λ _, items) picks
  | Throws => picks
  end.
Proof.
  induction picks as [|shown rest IH]; intros s; simpl.
  - destruct (fst (computeItems h w s)); reflexivity.
  - pose proof (computeItems_core h w s) as Hcore.
    pose proof (computeItems_sameCore w _ _ Hcore) as Hsame.
    destruct (computeItems h w s) as [items s1]. simpl in *.
    specialize (IH s1). destruct (refreshQuickPicks h w rest s1) as [rest' s2].
    simpl in *. rewrite IH, Hsame. destruct items; reflexivity.
Qed.

Lemma itemsOnly_app l1 l2 : itemsOnly (l1 ++ l2) = itemsOnly l1 ++ itemsOnly l2.
Proof. unfold itemsOnly. apply List.filter_app. Qed.

Lemma itemsOnly_items actions :
  itemsOnly (map itemOfAction actions) = map itemOfAction actions.
Proof. induction actions as [|a l IH]; simpl; [| rewrite IH]; reflexivity. Qed.

(** The items the loops emit are the command actions of the groups, group
    by group. *)
Lemma itemsOnly_emitGroups (groups : list ActionGroup) :
  itemsOnly (emitGroups groups) =
  map itemOfAction (flat_map (λ g : ActionGroup, plainActions (snd g)) groups).
Proof.
  induction groups as [|g groups IH] using rev_ind; [reflexivity |].
  rewrite emitGroups_snoc, flat_map_app, map_app, itemsOnly_app, IH. f_equal.
  simpl. rewrite app_nil_r.
  destruct (plainActions (snd g)) as [|first rest] eqn:Ep; [reflexivity |].
  rewrite itemsOnly_app, itemsOnly_items.
  case_bool_decide; reflexivity.
Qed.

End MenuContent.

(** Extra X7.  What the remote menu lists depends on the world and on the
    remote authority, the virtual workspace location and the connection
    state only.  The cache, the record of logged names, the status bar
    entry and the history play no part: a list computed with a cache of
    anything at all is the list computed without one.  It is the emitted
    groups of the current world, sorted when there is a matcher, then the
    plain separator and the fixed entries. *)
Theorem menu_ignores_the_cache (h : Host) (w : World)
    (s s' : RemoteStatusIndicator) :
  sameCore s s' →
  fst (computeItems h w s') = fst (computeItems h w s)
  ∧ (∀ cached,
       fst (computeItems h w (set_remoteMenuActionsGroups cached s))
       = fst (computeItems h w s))
  ∧ ∀ items, fst (computeItems h w s) = Returns items →
      ∃ matcher,
        matchCurrentRemote h s = Returns matcher
        ∧ items = emitGroups (orderedBy h matcher (rebuiltGroups w))
                  ++ [QuickPickSeparator None] ++ configEntries h w s.
Proof.
  intros Hcore. split; [apply computeItems_sameCore, Hcore | split].
  - intros cached. apply computeItems_sameCore. split; reflexivity.
  - intros items. rewrite computeItems_fst.
    destruct (matchCurrentRemote h s) as [matcher|]; [| discriminate].
    intros [= <-]. exists matcher. auto.
Qed.

(** Extra X7 at two states: one just constructed, and one that has shown
    the menu, had a menu change and lost its connection since. *)
Lemma menu_ignores_the_cache_witness :
  let sys := construct exampleHost exampleWorld (Some "myhost") in
  let sys' :=
    run exampleHost sys
      [command_showRemoteMenu;
       legacyIndicatorMenu_onDidChange [("anything", [exampleAction "a" "A" "SSH"])];
       connection_onDidStateChange ConnectionLost;
       connection_onDidStateChange ConnectionGain;
       whenInstalledExtensionsRegistered_resolved] in
  fst (computeItems exampleHost (world sys') (self sys'))
  = fst (computeItems exampleHost (world sys')
           (connectionStateContextKey_set "connected"
              (set_connectionState (Some connected) (self sys)))).
Proof.
  intros sys sys'. symmetry.
  refine (proj1 (menu_ignores_the_cache exampleHost (world sys') _ _ _)).
  split; reflexivity.
Defined.

(** The quick picks after a change of a menu. *)
Lemma menu_change_refreshes_quick_picks_aux (h : Host) (w : World) (sys : System) :
  quickPicks (menuDidChange h w sys) =
  match fst (computeItems h w (self sys)) with
  | Returns items => map (λ _, items) (quickPicks sys)
  | Throws => quickPicks sys
  end
  ∧ sameCore (self sys) (self (menuDidChange h w sys)).
Proof.
  split; [| apply menuDidChange_frame].
  unfold menuDidChange.
  pose proof (refreshQuickPicks_fst h w (quickPicks sys)
                (updateRemoteActions h w (self sys))) as Hf.
  destruct (refreshQuickPicks h w (quickPicks sys) _) as [picks s2].
  simpl in *. rewrite Hf.
  rewrite (computeItems_sameCore h w _ _ (updateRemoteActions_core h w (self sys))).
  reflexivity.
Qed.

(** Extra X8.  When a menu changes, every quick pick that is shown gets
    the list of the new world: after the delivery all of them show the
    same items, the ones a menu opened now would show.  When the pattern
    of the matcher does not compile every listener throws and the quick
    picks keep what they showed.  The number of quick picks is as
    before. *)
Theorem menu_change_refreshes_quick_picks (h : Host) (w : World) (sys : System) :
  quickPicks (menuDidChange h w sys) =
  match fst (computeItems h w (self sys)) with
  | Returns items => map (λ _, items) (quickPicks sys)
  | Throws => quickPicks sys
  end
  ∧ length (quickPicks (menuDidChange h w sys)) = length (quickPicks sys)
  ∧ (∀ items shown,
       fst (computeItems h w (self sys)) = Returns items →
       shown ∈ quickPicks (menuDidChange h w sys) →
       shown = items
       ∧ fst (computeItems h w (self (menuDidChange h w sys))) = Returns items).
Proof.
  assert (Hq : quickPicks (menuDidChange h w sys) =
               match fst (computeItems h w (self sys)) with
               | Returns items => map (λ _, items) (quickPicks sys)
               | Throws => quickPicks sys
               end).
  { unfold menuDidChange.
    pose proof (refreshQuickPicks_fst h w (quickPicks sys)
                  (updateRemoteActions h w (self sys))) as Hf.
    destruct (refreshQuickPicks h w (quickPicks sys) _) as [picks s2].
    simpl in *. rewrite Hf.
    rewrite (computeItems_sameCore h w _ _ (updateRemoteActions_core h w (self sys))).
    reflexivity. }
  split; [exact Hq | split].
  - rewrite Hq. destruct (fst (computeItems h w (self sys)));
      [apply length_map | reflexivity].
  - intros items shown Hitems Hin. rewrite Hq, Hitems in Hin.
    apply list_elem_of_fmap in Hin as (x & -> & _). split; [reflexivity |].
    rewrite <- Hitems. apply computeItems_sameCore.
    destruct (menuDidChange_frame h w sys) as (Hw & Ha & Hv).
    unfold menuDidChange in *.
    pose proof (refreshQuickPicks_core h w (quickPicks sys)
                  (updateRemoteActions h w (self sys))) as Hc2.
    destruct (refreshQuickPicks h w (quickPicks sys) _) as [picks s2].
    simpl in *. eapply sameCore_trans; [apply updateRemoteActions_core | exact Hc2].
Qed.

(** Extra X9.  The menu lists every command action of every group whose
    key is valid, and of every legacy group, once, with its id and its
    title, in the order of the groups and then of the actions; submenus
    and the groups that were rejected give no item.  After them come the
    items of the fixed entries and nothing else. *)
Theorem menu_lists_every_contributed_action (h : Host) (w : World)
    (s : RemoteStatusIndicator) (items : list QuickPickEntry) :
  fst (computeItems h w s) = Returns items →
  ∃ ordered,
    fst (orderedActionGroups h w s) = Returns ordered
    ∧ ordered ≡ₚ rebuiltGroups w
    ∧ (matchCurrentRemote h s = Returns None → ordered = rebuiltGroups w)
    ∧ itemsOnly items =
      map itemOfAction (flat_map (λ g : ActionGroup, plainActions (snd g)) ordered)
      ++ itemsOnly (configEntries h w s).
Proof.
  rewrite computeItems_fst.
  pose proof (proj1 (orderedActionGroups_eq h w s)) as Hfst.
  rewrite getRemoteMenuActions_refresh in Hfst. fold (rebuiltGroups w) in Hfst.
  destruct (matchCurrentRemote h s) as [matcher|]; [| discriminate].
  intros [= <-]. exists (orderedBy h matcher (rebuiltGroups w)).
  split; [destruct matcher; exact Hfst | split; [| split]].
  - destruct matcher; simpl; [apply Array_sort_Permutation | reflexivity].
  - intros [= ->]. reflexivity.
  - rewrite !itemsOnly_app, itemsOnly_emitGroups. reflexivity.
Qed.

(** Extra X9 at a menu: a valid group with an action and a submenu, a
    rejected group and a legacy group, in a local window. *)
Lemma menu_lists_every_contributed_action_witness :
  let w :=
    World_set_legacyIndicatorMenu [("legacy", [exampleAction "c" "C" "Old"])]
      (World_set_remoteIndicatorMenu
         [("remote_10_ssh_1",
           [exampleAction "a" "A" "SSH"; SubmenuItemAction "more"]);
          ("Remote_10_ssh_1", [exampleAction "b" "B" "SSH"])]
         exampleWorld) in
  let s := self (construct exampleHost w None) in
  ∃ items fixed,
    fst (computeItems exampleHost w s) = Returns items
    ∧ itemsOnly items =
      [QuickPickItem "a" "A" false; QuickPickItem "c" "C" false] ++ fixed.
Proof.
  intros w s.
  destruct (menu_lists_every_contributed_action exampleHost w s _ eq_refl)
    as (ordered & _ & _ & Hord & Hitems).
  rewrite (Hord eq_refl) in Hitems.
  eexists _, _. split; [reflexivity | exact Hitems].
Defined.

(** ** The two kinds of window *)

Section Windows.

Context (h : Host).

Lemma Quiet_refl s : Quiet s s.
Proof. exists []. rewrite app_nil_r. auto. Qed.

Lemma Quiet_trans s1 s2 s3 : Quiet s1 s2 → Quiet s2 s3 → Quiet s1 s3.
Proof.
  intros (m1 & T1 & F1) (m2 & T2 & F2). exists (m1 ++ m2).
  rewrite T2, T1, app_assoc. split; [reflexivity | apply Forall_app; auto].
Qed.

Lemma Logged_Quiet s s' : Logged s s' → Quiet s s'.
Proof.
  intros [_ (logged & Ht & Hf)]. exists logged. split; [exact Ht |].
  eapply Forall_impl; [exact Hf |]. intros e [m ->] v. discriminate.
Qed.

Lemma Shown_Quiet s s' : Shown s s' → Quiet s s'.
Proof.
  intros (logged & Ht & Hf). eexists. split; [exact Ht |].
  apply Forall_app. split.
  - eapply Forall_impl; [exact Hf |]. intros e [m ->] v. discriminate.
  - destruct (remoteStatusEntry s), (remoteStatusEntry s'); simpl;
      repeat (constructor; try (intros v; discriminate)).
Qed.

Lemma Quiet_Forall s s' :
  Quiet s s' →
  Forall (λ e, ∀ v, e ≠ contextKey_set v) (trace s) →
  Forall (λ e, ∀ v, e ≠ contextKey_set v) (trace s').
Proof. intros (more & -> & Hf) Hs. apply Forall_app; auto. Qed.

Lemma updateRemoteStatusIndicator_Quiet w s :
  Quiet s (snd (updateRemoteStatusIndicator h w s)).
Proof. apply Shown_Quiet, updateRemoteStatusIndicator_Shown. Qed.

Lemma computeItems_Quiet w s : Quiet s (snd (computeItems h w s)).
Proof.
  unfold computeItems, orderedActionGroups.
  pose proof (Logged_Quiet _ _ (getRemoteMenuActions_Logged w true s)) as H1.
  destruct (getRemoteMenuActions w true s) as [groups s1]. simpl in H1.
  destruct (matchCurrentRemote h s1) as [[test|]|]; exact H1.
Qed.

Lemma refreshQuickPicks_Quiet w picks : ∀ s,
  Quiet s (snd (refreshQuickPicks h w picks s)).
Proof.
  induction picks as [|p rest IH]; intros s; simpl; [apply Quiet_refl |].
  pose proof (computeItems_Quiet w s) as H1.
  destruct (computeItems h w s) as [items s1].
  specialize (IH s1). destruct (refreshQuickPicks h w rest s1) as [rest' s2].
  simpl in *. eapply Quiet_trans; [exact H1 | exact IH].
Qed.

Lemma menuDidChange_Quiet w sys : Quiet (self sys) (self (menuDidChange h w sys)).
Proof.
  unfold menuDidChange, updateRemoteActions.
  pose proof (updateRemoteStatusIndicator_Quiet w
                (set_remoteMenuActionsGroups None (self sys))) as H1.
  pose proof (refreshQuickPicks_Quiet w (quickPicks sys)
                (snd (updateRemoteStatusIndicator h w
                        (set_remoteMenuActionsGroups None (self sys))))) as H2.
  destruct (refreshQuickPicks h w (quickPicks sys) _) as [picks s2]. simpl in *.
  eapply Quiet_trans; [exact H1 | exact H2].
Qed.

Lemma construct_LocalWindow w authority :
  truthy authority = None → LocalWindow (construct h w authority).
Proof.
  intros Ha. unfold LocalWindow, construct. cbn [self world pending].
  cbn [remoteAuthority]. rewrite Ha.
  match goal with |- context [updateRemoteStatusIndicator h w ?x] =>
    pose proof (updateRemoteStatusIndicator_core h w x) as [_ _ _ Hc Hk];
    pose proof (updateRemoteStatusIndicator_Quiet w x) as Hq
  end.
  rewrite Hc, Hk. repeat split; try discriminate.
  eapply Quiet_Forall; [exact Hq | constructor].
Qed.

Lemma step_LocalWindow sys ev :
  truthy (remoteAuthority (self sys)) = None →
  LocalWindow sys → LocalWindow (step h sys ev).
Proof.
  intros Ha (Hc & Hk & Ht & Hp). unfold LocalWindow.
  destruct ev; simpl; rewrite ?Ha; simpl.
  - destruct (menuDidChange_frame h
                (World_set_remoteIndicatorMenu actions (world sys)) sys)
      as ([_ _ _ Ec Ek] & _ & ->).
    rewrite Ec, Ek. repeat split; auto.
    eapply Quiet_Forall; [apply menuDidChange_Quiet | exact Ht].
  - destruct (menuDidChange_frame h
                (World_set_legacyIndicatorMenu actions (world sys)) sys)
      as ([_ _ _ Ec Ek] & _ & ->).
    rewrite Ec, Ek. repeat split; auto.
    eapply Quiet_Forall; [apply menuDidChange_Quiet | exact Ht].
  - match goal with |- context [updateRemoteStatusIndicator h ?w ?x] =>
      pose proof (updateRemoteStatusIndicator_core h w x) as [_ _ _ Ec Ek];
      pose proof (updateRemoteStatusIndicator_Quiet w x) as Hq
    end.
    rewrite Ec, Ek. repeat split; auto.
    eapply Quiet_Forall; [exact Hq | exact Ht].
  - repeat split; auto.
  - match goal with |- context [updateRemoteStatusIndicator h ?w ?x] =>
      pose proof (updateRemoteStatusIndicator_core h w x) as [_ _ _ Ec Ek];
      pose proof (updateRemoteStatusIndicator_Quiet w x) as Hq
    end.
    rewrite Ec, Ek. repeat split; auto.
    eapply Quiet_Forall; [exact Hq | exact Ht].
  - destruct (pending sys) eqn:Ep; simpl; rewrite ?Ha;
      try (repeat split; auto; congruence).
    match goal with |- context [updateRemoteStatusIndicator h ?w ?x] =>
      pose proof (updateRemoteStatusIndicator_core h w x) as [_ _ _ Ec Ek];
      pose proof (updateRemoteStatusIndicator_Quiet w x) as Hq
    end.
    rewrite Ec, Ek. repeat split; auto; try discriminate.
    eapply Quiet_Forall; [exact Hq | exact Ht].
  - destruct (pending sys) eqn:Ep; simpl;
      try (repeat split; auto; congruence).
  - pose proof (computeItems_core h (world sys) (self sys)) as [_ _ _ Ec Ek].
    pose proof (computeItems_Quiet (world sys) (self sys)) as Hq.
    destruct (computeItems h (world sys) (self sys)) as [items s1]. simpl in *.
    rewrite Ec, Ek. repeat split; auto.
    eapply Quiet_Forall; [exact Hq | exact Ht].
  - repeat split; auto.
  - repeat split; auto.
Qed.

(** The virtual workspace location is written when a change of the
    workbench state is delivered, and at no other delivery. *)
Lemma step_virtualWorkspaceLocation sys ev :
  (∀ location, ev ≠ workspace_onDidChangeWorkbenchState location) →
  virtualWorkspaceLocation (self (step h sys ev))
  = virtualWorkspaceLocation (self sys).
Proof.
  intros Hev. destruct ev; simpl.
  - apply (menuDidChange_frame h _ sys).
  - apply (menuDidChange_frame h _ sys).
  - apply updateRemoteStatusIndicator_core.
  - destruct (truthy (remoteAuthority (self sys))), (hasConnection (world sys));
      simpl; try reflexivity.
    destruct e; apply setState_frame.
  - destruct (Hev location eq_refl).
  - destruct (pending sys); simpl; try reflexivity.
    apply updateRemoteStatusIndicator_core.
  - destruct (pending sys); simpl; try reflexivity.
    destruct resolved; apply setState_frame.
  - pose proof (computeItems_core h (world sys) (self sys)) as [_ _ Ev _ _].
    destruct (computeItems h (world sys) (self sys)) as [items s1]. exact Ev.
  - reflexivity.
  - reflexivity.
Qed.

Lemma step_workspace sys location :
  truthy (remoteAuthority (self sys)) = None →
  virtualWorkspaceLocation
    (self (step h sys (workspace_onDidChangeWorkbenchState location))) = location
  ∧ getVirtualWorkspaceLocation
      (world (step h sys (workspace_onDidChangeWorkbenchState location))) = location.
Proof.
  intros Ha. simpl. rewrite Ha. simpl. split; [| reflexivity].
  match goal with |- context [updateRemoteStatusIndicator h ?w ?x] =>
    pose proof (updateRemoteStatusIndicator_core h w x) as [_ _ Ev _ _]
  end.
  rewrite Ev. reflexivity.
Qed.

Lemma construct_virtualWorkspaceLocation w authority :
  truthy authority = None →
  virtualWorkspaceLocation (self (construct h w authority))
  = getVirtualWorkspaceLocation w.
Proof.
  intros Ha. unfold construct. cbn [self remoteAuthority]. rewrite Ha.
  match goal with |- context [updateRemoteStatusIndicator h w ?x] =>
    pose proof (updateRemoteStatusIndicator_core h w x) as [_ _ Ev _ _]
  end.
  rewrite Ev. reflexivity.
Qed.

Lemma construct_RemoteWindow w authority a :
  truthy authority = Some a → RemoteWindow (construct h w authority).
Proof.
  intros Ha. destruct (construct_state h w authority) as (_ & Hw & Hp & Hc & _).
  rewrite Ha in Hc. unfold RemoteWindow. rewrite Hc, Hp.
  repeat split; try discriminate; eauto.
  unfold construct. cbn [self remoteAuthority]. rewrite Ha.
  match goal with |- context [updateRemoteStatusIndicator h w ?x] =>
    pose proof (updateRemoteStatusIndicator_core h w x) as [_ _ Ev _ _]
  end.
  rewrite Ev. reflexivity.
Qed.

Lemma setState_RemoteWindow w newState s :
  newState ≠ initializing →
  virtualWorkspaceLocation (setState h w newState s) = virtualWorkspaceLocation s
  ∧ connectionState (setState h w newState s) = Some newState
  ∧ connectionState (setState h w newState s) ≠ Some initializing.
Proof.
  intros Hn. destruct (setState_frame h w newState s) as (_ & _ & Hv).
  rewrite setState_connectionState. repeat split; [exact Hv | congruence].
Qed.

Lemma step_RemoteWindow sys ev a :
  truthy (remoteAuthority (self sys)) = Some a →
  RemoteWindow sys → RemoteWindow (step h sys ev).
Proof.
  intros Ha (Hs & Hv & Hp & Hn). unfold RemoteWindow.
  destruct ev; simpl; rewrite ?Ha; simpl.
  - destruct (menuDidChange_frame h
                (World_set_remoteIndicatorMenu actions (world sys)) sys)
      as ([_ _ Ev Ec _] & -> & ->).
    rewrite Ev, Ec. simpl. intuition congruence.
  - destruct (menuDidChange_frame h
                (World_set_legacyIndicatorMenu actions (world sys)) sys)
      as ([_ _ Ev Ec _] & -> & ->).
    rewrite Ev, Ec. simpl. intuition congruence.
  - match goal with |- context [updateRemoteStatusIndicator h ?w ?x] =>
      pose proof (updateRemoteStatusIndicator_core h w x) as [_ _ Ev Ec _]
    end.
    rewrite Ev, Ec. intuition congruence.
  - destruct (hasConnection (world sys)) eqn:Hcon; simpl; rewrite ?Hcon;
      [| intuition congruence].
    assert (Ht : eventTarget e ≠ initializing) by (destruct e; discriminate).
    assert (E : onDidStateChange h (world sys) e (self sys)
                = setState h (world sys) (eventTarget e) (self sys))
      by (destruct e; reflexivity).
    rewrite E.
    destruct (setState_RemoteWindow (world sys) (eventTarget e) (self sys) Ht)
      as (Ev & Ec & Hi).
    rewrite Ev, Ec. split; [eauto |]. intuition congruence.
  - intuition congruence.
  - destruct (pending sys) eqn:Ep; simpl; rewrite ?Ep; try (intuition congruence).
    match goal with |- context [updateRemoteStatusIndicator h ?w ?x] =>
      pose proof (updateRemoteStatusIndicator_core h w x) as [_ _ Ev Ec _]
    end.
    rewrite Ev, Ec. intuition congruence.
  - destruct (pending sys) eqn:Ep; simpl; rewrite ?Ep; try (intuition congruence).
    assert (E : (if resolved then setState h (world sys) connected (self sys)
                 else setState h (world sys) disconnected (self sys))
                = setState h (world sys) (resolutionTarget resolved) (self sys))
      by (destruct resolved; reflexivity).
    rewrite E.
    assert (Ht : resolutionTarget resolved ≠ initializing)
      by (destruct resolved; discriminate).
    destruct (setState_RemoteWindow (world sys) (resolutionTarget resolved)
                (self sys) Ht) as (Ev & Ec & Hi).
    rewrite Ev, Ec. split; [eauto |].
    destruct resolved; simpl; intuition congruence.
  - pose proof (computeItems_core h (world sys) (self sys)) as [_ _ Ev Ec _].
    destruct (computeItems h (world sys) (self sys)) as [items s1]. simpl in *.
    rewrite Ev, Ec. intuition congruence.
  - intuition congruence.
  - intuition congruence.
Qed.

(** No delivery brings [initializing] back. *)
Lemma step_not_initializing sys ev :
  connectionState (self sys) ≠ Some initializing →
  connectionState (self (step h sys ev)) ≠ Some initializing.
Proof.
  intros Hi. destruct ev; simpl.
  - destruct (menuDidChange_frame h
                (World_set_remoteIndicatorMenu actions (world sys)) sys)
      as ([_ _ _ Ec _] & _). congruence.
  - destruct (menuDidChange_frame h
                (World_set_legacyIndicatorMenu actions (world sys)) sys)
      as ([_ _ _ Ec _] & _). congruence.
  - rewrite (core_connectionState _ _ (updateRemoteStatusIndicator_core h _ _)).
    exact Hi.
  - destruct (truthy (remoteAuthority (self sys))), (hasConnection (world sys));
      simpl; try exact Hi.
    destruct e; simpl; rewrite setState_connectionState; discriminate.
  - destruct (truthy (remoteAuthority (self sys))); simpl; [exact Hi |].
    rewrite (core_connectionState _ _ (updateRemoteStatusIndicator_core h _ _)).
    exact Hi.
  - destruct (pending sys); simpl; try exact Hi.
    rewrite (core_connectionState _ _ (updateRemoteStatusIndicator_core h _ _)).
    exact Hi.
  - destruct (pending sys); simpl; try exact Hi.
    destruct resolved; rewrite setState_connectionState; discriminate.
  - pose proof (computeItems_core h (world sys) (self sys)) as [_ _ _ Ec _].
    destruct (computeItems h (world sys) (self sys)) as [items s1]. simpl in *.
    congruence.
  - exact Hi.
  - exact Hi.
Qed.

End Windows.

(** Extra X10.  A component without a remote authority never enters the
    connection state machine, whatever is delivered to it: in every state
    it reaches it has no connection state, the context key is empty and
    was never written, and no resolution is awaited.  Its virtual
    workspace location is the one the workspace had when the component was
    constructed or when a change of the workbench state was last
    delivered: the field is written at these two places and by no other
    delivery, so that it keeps the former location when the workspace has
    changed and the event has not been delivered. *)
Theorem local_window_has_no_connection_state (h : Host) (sys : System) :
  Reachable h sys →
  truthy (remoteAuthority (self sys)) = None →
  connectionState (self sys) = None
  ∧ connectionStateContextKey (self sys) = ""
  ∧ Forall (λ e, ∀ v, e ≠ contextKey_set v) (trace (self sys))
  ∧ pending sys ≠ AwaitingResolution
  ∧ (∀ w authority, truthy authority = None →
       virtualWorkspaceLocation (self (construct h w authority))
       = getVirtualWorkspaceLocation w)
  ∧ (∀ location,
       let sys' := step h sys (workspace_onDidChangeWorkbenchState location) in
       virtualWorkspaceLocation (self sys') = location
       ∧ getVirtualWorkspaceLocation (world sys') = location)
  ∧ (∀ ev, (∀ location, ev ≠ workspace_onDidChangeWorkbenchState location) →
       virtualWorkspaceLocation (self (step h sys ev))
       = virtualWorkspaceLocation (self sys)).
Proof.
  intros Hr Ha.
  assert (Hw : LocalWindow sys).
  { induction Hr as [w authority | sys ev _ IH].
    - apply construct_LocalWindow.
      destruct (construct_state h w authority) as (E & _). rewrite <- E. exact Ha.
    - rewrite (proj1 (step_frame h sys ev)) in Ha.
      apply step_LocalWindow; [exact Ha | exact (IH Ha)]. }
  destruct Hw as (H1 & H2 & H3 & H4).
  split; [exact H1 |]. split; [exact H2 |]. split; [exact H3 |].
  split; [exact H4 |]. split; [| split].
  - intros w authority. apply construct_virtualWorkspaceLocation.
  - intros location. apply step_workspace, Ha.
  - intros ev. apply step_virtualWorkspaceLocation.
Qed.

(** Extra X10 at a run: connection events and an outcome of the
    resolution delivered to a local window; its workspace becomes a
    virtual one, of which it is told, and then another, of which it is
    not. *)
Lemma local_window_has_no_connection_state_witness :
  let location := Some {| scheme := "vscode-vfs"; authority := "github" |} in
  let sys :=
    step exampleHost
      (step exampleHost
         (step exampleHost (construct exampleHost exampleWorld None)
            (connection_onDidStateChange ConnectionLost))
         whenInstalledExtensionsRegistered_resolved)
      (resolveAuthority_settled false) in
  let sys' := step exampleHost sys (workspace_onDidChangeWorkbenchState location) in
  let sys'' := step exampleHost sys' (services_changed exampleWorld) in
  connectionState (self sys'') = None
  ∧ virtualWorkspaceLocation (self sys') = location
  ∧ virtualWorkspaceLocation (self sys'') = location
  ∧ getVirtualWorkspaceLocation (world sys'') = None.
Proof.
  intros location sys sys' sys''.
  assert (Hr : Reachable exampleHost sys)
    by (repeat apply Reachable_step; apply Reachable_construct).
  assert (Hr' : Reachable exampleHost sys') by (apply Reachable_step, Hr).
  assert (Hr'' : Reachable exampleHost sys'') by (apply Reachable_step, Hr').
  destruct (local_window_has_no_connection_state exampleHost sys Hr eq_refl)
    as (_ & _ & _ & _ & _ & Hws & _).
  destruct (local_window_has_no_connection_state exampleHost sys' Hr' eq_refl)
    as (_ & _ & _ & _ & _ & _ & Hkeep).
  destruct (local_window_has_no_connection_state exampleHost sys'' Hr'' eq_refl)
    as (Hc & _).
  split; [exact Hc |]. split; [exact (proj1 (Hws location)) |].
  split; [| reflexivity].
  unfold sys''. rewrite Hkeep; [exact (proj1 (Hws location)) | discriminate].
Defined.

(** Extra X11.  A component with a remote authority always has a
    connection state and never a virtual workspace location.  Once the
    resolution has settled the state is not [initializing], and no
    delivery ever brings [initializing] back once it is left.  Without a
    connection object the state is never [reconnecting], and it stays
    [initializing] until the resolution settles. *)
Theorem remote_window_connection_state (h : Host) (sys : System) (a : string) :
  Reachable h sys →
  truthy (remoteAuthority (self sys)) = Some a →
  is_Some (connectionState (self sys))
  ∧ virtualWorkspaceLocation (self sys) = None
  ∧ (pending sys = NothingPending →
     connectionState (self sys) ≠ Some initializing)
  ∧ (hasConnection (world sys) = false →
     connectionState (self sys) ≠ Some reconnecting
     ∧ (pending sys ≠ NothingPending →
        connectionState (self sys) = Some initializing))
  ∧ (connectionState (self sys) ≠ Some initializing →
     ∀ events, connectionState (self (run h sys events)) ≠ Some initializing).
Proof.
  intros Hr Ha.
  assert (Hw : RemoteWindow sys).
  { induction Hr as [w authority | sys ev _ IH].
    - eapply construct_RemoteWindow.
      destruct (construct_state h w authority) as (E & _). rewrite <- E. exact Ha.
    - rewrite (proj1 (step_frame h sys ev)) in Ha.
      eapply step_RemoteWindow; [exact Ha | exact (IH Ha)]. }
  destruct Hw as (H1 & H2 & H3 & H4). repeat split; auto; try apply H4; auto.
  intros Hi events. clear Hr Ha H1 H2 H3 H4. revert sys Hi.
  induction events as [|ev events IH]; intros sys Hi; [exact Hi |].
  apply IH, step_not_initializing, Hi.
Qed.

(** Extra X11 at a run: a window whose remote has no connection object,
    before and after the resolution fails. *)
Lemma remote_window_connection_state_witness :
  let w :=
    {| remoteIndicatorMenu := []; legacyIndicatorMenu := [];
       getVirtualWorkspaceLocation := None;
       getHostLabel := λ _ _, ""; getHostTooltip := λ _ _, None;
       extensionGallery_isEnabled := false; hasConnection := false |} in
  let sys :=
    step exampleHost
      (step exampleHost (construct exampleHost w (Some "myhost"))
         (connection_onDidStateChange ConnectionLost))
      whenInstalledExtensionsRegistered_resolved in
  connectionState (self sys) = Some initializing
  ∧ connectionState (self (step exampleHost sys (resolveAuthority_settled false)))
    = Some disconnected.
Proof.
  intros w sys.
  assert (Hr : Reachable exampleHost sys)
    by (repeat apply Reachable_step; apply Reachable_construct).
  destruct (remote_window_connection_state exampleHost sys "myhost" Hr eq_refl)
    as (_ & _ & _ & Hn & _).
  split; [apply (Hn eq_refl); discriminate | reflexivity].
Defined.

(** ** Running the update again *)

Section Rerun.

Context (h : Host) (w : World).

(** The entry [renderRemoteStatusIndicator] leaves depends on the state
    through the groups only. *)
Lemma renderRemoteStatusIndicator_ext text tooltip command progress s s' :
  currentGroups w s' = currentGroups w s →
  remoteStatusEntry (renderRemoteStatusIndicator h w text tooltip command progress s')
  = remoteStatusEntry (renderRemoteStatusIndicator h w text tooltip command progress s).
Proof.
  intros Hg. unfold renderRemoteStatusIndicator.
  destruct (getRemoteMenuActions_currentGroups w s) as [H1 _].
  destruct (getRemoteMenuActions_currentGroups w s') as [H1' _].
  rewrite Hg in H1'.
  destruct (getRemoteMenuActions w false s) as [groups s1].
  destruct (getRemoteMenuActions w false s') as [groups' s1'].
  simpl in H1, H1'. subst groups groups'.
  destruct command as [c|]; [| destruct (currentGroups w s); simpl ];
    repeat match goal with
    | |- context [match remoteStatusEntry ?x with _ => _ end] =>
        destruct (remoteStatusEntry x)
    end; reflexivity.
Qed.

(** The branch of a run and the entry it leaves depend on the state
    through the core and the groups only. *)
Lemma updateRemoteStatusIndicator_ext s s' :
  sameCore s s' → currentGroups w s' = currentGroups w s →
  fst (updateRemoteStatusIndicator h w s') = fst (updateRemoteStatusIndicator h w s)
  ∧ remoteStatusEntry (snd (updateRemoteStatusIndicator h w s'))
    = remoteStatusEntry (snd (updateRemoteStatusIndicator h w s)).
Proof.
  intros [Hwi Ha Hv Hc _] Hg. unfold updateRemoteStatusIndicator.
  rewrite Hwi, Ha, Hv, Hc.
  destruct (getRemoteMenuActions_currentGroups w s) as [H1 _].
  destruct (getRemoteMenuActions_currentGroups w s') as [H1' _].
  pose proof (currentGroups_getRemoteMenuActions w s) as H2.
  pose proof (currentGroups_getRemoteMenuActions w s') as H2'.
  pose proof (disposeRemoteStatusEntry_Shown (snd (getRemoteMenuActions w false s)))
    as [_ Hd].
  pose proof (disposeRemoteStatusEntry_Shown (snd (getRemoteMenuActions w false s')))
    as [_ Hd'].
  rewrite Hg in H1', H2'.
  destruct (getRemoteMenuActions w false s) as [groups s1].
  destruct (getRemoteMenuActions w false s') as [groups' s1'].
  simpl in H1, H1', H2, H2', Hd, Hd'. subst groups groups'.
  destruct (windowIndicator s) as [wi|].
  { destruct (truthy (remoteAuthority s)); cbn [fst snd];
      (split; [reflexivity | apply renderRemoteStatusIndicator_ext, Hg]). }
  cbn [negb isWeb].
  destruct (truthy (remoteAuthority s)) as [auth|].
  { destruct (connectionState s) as [[]|]; cbn [fst snd];
      (split; [reflexivity | apply renderRemoteStatusIndicator_ext, Hg]). }
  destruct (virtualWorkspaceLocation s) as [loc|];
    [ destruct (truthy (Some (getHostLabel w (scheme loc) (authority loc)))) |].
  - cbn [fst snd]. split; [reflexivity | apply renderRemoteStatusIndicator_ext, Hg].
  - destruct (currentGroups w s); cbn [length Nat.ltb Nat.leb fst snd].
    + split; [reflexivity | congruence].
    + split; [reflexivity | apply renderRemoteStatusIndicator_ext; congruence].
  - destruct (currentGroups w s); cbn [length Nat.ltb Nat.leb fst snd].
    + split; [reflexivity | congruence].
    + split; [reflexivity | apply renderRemoteStatusIndicator_ext; congruence].
Qed.

(** A run leaves the groups as they are. *)
Lemma currentGroups_renderRemoteStatusIndicator text tooltip command progress s :
  currentGroups w (renderRemoteStatusIndicator h w text tooltip command progress s)
  = currentGroups w s.
Proof.
  unfold renderRemoteStatusIndicator.
  pose proof (currentGroups_getRemoteMenuActions w s) as H1.
  destruct (getRemoteMenuActions w false s) as [groups s1]. simpl in H1.
  destruct command as [c|]; [| destruct (0 <? length groups)%nat ];
    match goal with
    | |- context [match remoteStatusEntry ?x with _ => _ end] =>
        destruct (remoteStatusEntry x)
    end; unfold currentGroups in *; simpl; assumption || reflexivity.
Qed.

Lemma currentGroups_disposeRemoteStatusEntry s :
  currentGroups w (disposeRemoteStatusEntry s) = currentGroups w s.
Proof. unfold disposeRemoteStatusEntry. case_match; reflexivity. Qed.

Lemma currentGroups_updateRemoteStatusIndicator s :
  currentGroups w (snd (updateRemoteStatusIndicator h w s)) = currentGroups w s.
Proof.
  unfold updateRemoteStatusIndicator.
  pose proof (currentGroups_getRemoteMenuActions w s) as H1.
  destruct (getRemoteMenuActions w false s) as [groups s1]. simpl in H1.
  destruct (windowIndicator s) as [wi|].
  { destruct (truthy (remoteAuthority s)); cbn [fst snd];
      apply currentGroups_renderRemoteStatusIndicator. }
  cbn [negb isWeb].
  destruct (truthy (remoteAuthority s)) as [auth|].
  { destruct (connectionState s) as [[]|]; cbn [fst snd];
      apply currentGroups_renderRemoteStatusIndicator. }
  destruct (virtualWorkspaceLocation s) as [loc|];
    [ destruct (truthy (Some (getHostLabel w (scheme loc) (authority loc)))) |];
    try (cbn [fst snd]; apply currentGroups_renderRemoteStatusIndicator);
    destruct (0 <? length groups)%nat; cbn [fst snd];
    rewrite ?currentGroups_renderRemoteStatusIndicator,
      ?currentGroups_disposeRemoteStatusEntry; exact H1.
Qed.

(** A run that finds a cache, or an indicator with a command of its own,
    logs nothing. *)
Lemma updateRemoteStatusIndicator_silent s :
  is_Some (remoteMenuActionsGroups s) ∨ is_Some (windowIndicator s ≫= wi_command) →
  trace (snd (updateRemoteStatusIndicator h w s)) =
  trace s ++ statusbarCall (remoteStatusEntry s)
               (remoteStatusEntry (snd (updateRemoteStatusIndicator h w s))).
Proof.
  intros Hs.
  assert (Hrender : ∀ text tooltip command progress,
    is_Some (remoteMenuActionsGroups s) ∨ is_Some command →
    trace (renderRemoteStatusIndicator h w text tooltip command progress s) =
    trace s ++ statusbarCall (remoteStatusEntry s)
                 (remoteStatusEntry
                    (renderRemoteStatusIndicator h w text tooltip command progress s))).
  { intros text tooltip command progress Hc. unfold renderRemoteStatusIndicator.
    destruct command as [c|].
    - destruct (remoteStatusEntry s) eqn:E; simpl; rewrite ?E; reflexivity.
    - destruct Hc as [[cached Hc] | [c Hc]]; [| discriminate].
      unfold getRemoteMenuActions. rewrite Hc.
      destruct (0 <? length cached)%nat;
        destruct (remoteStatusEntry s) eqn:E; simpl; rewrite ?E; reflexivity. }
  unfold updateRemoteStatusIndicator.
  destruct (windowIndicator s) as [wi|] eqn:Ewi.
  { cbn [mbind option_bind] in Hs.
    destruct (truthy (remoteAuthority s)); cbn [fst snd]; apply Hrender, Hs. }
  destruct Hs as [[cached Hc] | [c Hc]]; [| discriminate].
  assert (Hsome : is_Some (remoteMenuActionsGroups s)) by eauto.
  assert (Hget : getRemoteMenuActions w false s = (cached, s))
    by (unfold getRemoteMenuActions; rewrite Hc; reflexivity).
  rewrite Hget. cbn [negb isWeb].
  destruct (truthy (remoteAuthority s)) as [auth|].
  { destruct (connectionState s) as [[]|]; cbn [fst snd]; apply Hrender; auto. }
  destruct (virtualWorkspaceLocation s) as [loc|];
    [ destruct (truthy (Some (getHostLabel w (scheme loc) (authority loc)))) |];
    try (cbn [fst snd]; apply Hrender; auto; fail);
    destruct (0 <? length cached)%nat; cbn [fst snd];
    try (apply Hrender; auto; fail);
    unfold disposeRemoteStatusEntry;
    destruct (remoteStatusEntry s) eqn:E; simpl; rewrite ?E, ?app_nil_r; reflexivity.
Qed.

(** After a run there is a cache, unless the indicator has a command of
    its own. *)
Lemma updateRemoteStatusIndicator_cached s :
  is_Some (remoteMenuActionsGroups (snd (updateRemoteStatusIndicator h w s)))
  ∨ is_Some (windowIndicator s ≫= wi_command).
Proof.
  assert (Hrender : ∀ text tooltip progress s0,
    is_Some (remoteMenuActionsGroups
               (renderRemoteStatusIndicator h w text tooltip None progress s0))).
  { intros. unfold renderRemoteStatusIndicator.
    destruct (getRemoteMenuActions_currentGroups w s0) as [_ Hc].
    destruct (getRemoteMenuActions w false s0) as [groups s1]. simpl in Hc.
    destruct (0 <? length groups)%nat; destruct (remoteStatusEntry s1);
      simpl; rewrite Hc; eauto. }
  unfold updateRemoteStatusIndicator.
  destruct (getRemoteMenuActions_currentGroups w s) as [_ Hc].
  destruct (getRemoteMenuActions w false s) as [groups s1]. simpl in Hc.
  destruct (windowIndicator s) as [wi|]; cbn [mbind option_bind].
  { destruct (wi_command wi) as [c|]; [right; eauto | left].
    destruct (truthy (remoteAuthority s)); cbn [fst snd]; apply Hrender. }
  left. cbn [negb isWeb].
  destruct (truthy (remoteAuthority s)) as [auth|].
  { destruct (connectionState s) as [[]|]; cbn [fst snd]; apply Hrender. }
  destruct (virtualWorkspaceLocation s) as [loc|];
    [ destruct (truthy (Some (getHostLabel w (scheme loc) (authority loc)))) |];
    try (cbn [fst snd]; apply Hrender);
    destruct (0 <? length groups)%nat; cbn [fst snd]; try apply Hrender;
    unfold disposeRemoteStatusEntry; case_match; simpl; rewrite Hc; eauto.
Qed.

End Rerun.

(** Extra X12.  Running [updateRemoteStatusIndicator] a second time in the
    same world changes nothing that shows: the second run ends in the
    branch of the first and leaves the entry of the first, and it logs no
    warning.  Its only call to the status bar is the update that sends
    this same entry again, and when the first run hid the entry it makes
    no call at all. *)
Theorem second_run_changes_nothing (h : Host) (w : World) (s : RemoteStatusIndicator) :
  let first := updateRemoteStatusIndicator h w s in
  let second := updateRemoteStatusIndicator h w (snd first) in
  fst second = fst first
  ∧ remoteStatusEntry (snd second) = remoteStatusEntry (snd first)
  ∧ trace (snd second) =
    trace (snd first)
    ++ match remoteStatusEntry (snd first) with
       | Some p => [statusbar_update p]
       | None => []
       end.
Proof.
  intros first second.
  pose proof (updateRemoteStatusIndicator_core h w s) as Hcore.
  pose proof (currentGroups_updateRemoteStatusIndicator h w s) as Hg.
  destruct (updateRemoteStatusIndicator_ext h w s (snd first) Hcore Hg) as [Hb He].
  fold first in He, Hb. fold second in He, Hb.
  split; [exact Hb | split; [exact He |]].
  unfold second. rewrite updateRemoteStatusIndicator_silent.
  - fold second. rewrite He.
    destruct (remoteStatusEntry (snd first)); reflexivity.
  - destruct (updateRemoteStatusIndicator_cached h w s) as [Hc | Hc];
      [left; exact Hc | right].
    unfold first. rewrite (core_windowIndicator _ _ Hcore). exact Hc.
Qed.

(** ** The commands the component registers and the ones it offers *)

(** Extra X13.  Every command the fixed entries of the menu offer is one
    [registerActions] registers, in the same world and with the same
    authority, but for [ReloadWindowAction.ID], which this file does not
    register.  The command of the status bar entry is registered as well,
    the item of the File menu names a registered command that the menu
    offers too, and no id is registered twice. *)
Theorem offered_commands_are_registered (h : Host) (w : World)
    (s : RemoteStatusIndicator) :
  let registered := map a2_id (fst (registerActions h w (remoteAuthority s))) in
  (∀ id, id ∈ itemIds (configEntries h w s) →
     id = ReloadWindowAction_ID h ∨ id ∈ registered)
  ∧ REMOTE_ACTIONS_COMMAND_ID ∈ registered
  ∧ (∀ item, item ∈ snd (registerActions h w (remoteAuthority s)) →
       mi_command item ∈ itemIds (configEntries h w s)
       ∧ mi_command item ∈ registered)
  ∧ NoDup registered.
Proof.
  unfold registerActions, configEntries, SHOW_CLOSE_REMOTE_COMMAND_ID, isWeb.
  cbn [negb].
  destruct (truthy (remoteAuthority s)), (virtualWorkspaceLocation s),
    (extensionGallery_isEnabled w),
    (bool_decide (connectionState s = Some disconnected));
    cbn -[elem_of]; (split; [| split; [| split]]).
  all: try (intros id Hin;
            repeat (apply elem_of_cons in Hin as [-> | Hin]);
            [.. | apply elem_of_nil in Hin; contradiction];
            first [left; reflexivity | right; in_list]).
  all: try (intros item Hin;
            repeat (apply elem_of_cons in Hin as [-> | Hin]);
            [.. | apply elem_of_nil in Hin; contradiction];
            split; in_list).
  all: try in_list.
  all: repeat (apply NoDup_cons; split; [not_in_list |]); apply NoDup_nil; exact I.
Qed.

(** ** Showing the menu when the pattern does not compile *)

(** Extra X14.  The command that shows the remote menu opens one more
    quick pick, with the list of [computeItems], and leaves the cache in
    the order of the menu.  When the pattern made from the remote name or
    the scheme does not compile it opens none, and the ones that are shown
    keep their items; the groups were rebuilt and cached before the
    pattern was made all the same, so the command fails in the same way
    each time it is run, a change of the menus in between or not. *)
Theorem show_menu_opens_a_quick_pick_or_none (h : Host) (sys : System) :
  let sys' := step h sys command_showRemoteMenu in
  match matchCurrentRemote h (self sys) with
  | Returns matcher =>
      ∃ items,
        fst (computeItems h (world sys) (self sys)) = Returns items
        ∧ quickPicks sys' = quickPicks sys ++ [items]
        ∧ remoteMenuActionsGroups (self sys')
          = Some (orderedBy h matcher (rebuiltGroups (world sys)))
  | Throws =>
      quickPicks sys' = quickPicks sys
      ∧ remoteMenuActionsGroups (self sys') = Some (rebuiltGroups (world sys))
      ∧ ∀ events,
          Forall (λ ev, ∃ actions,
                    ev = command_showRemoteMenu
                    ∨ ev = remoteIndicatorMenu_onDidChange actions
                    ∨ ev = legacyIndicatorMenu_onDidChange actions) events →
          quickPicks (run h sys events) = quickPicks sys
  end.
Proof.
  intros sys'.
  pose proof (computeItems_fst h (world sys) (self sys)) as Hfst.
  pose proof (computeItems_remoteMenuActionsGroups h (world sys) (self sys)) as Hc.
  assert (Hq : quickPicks sys' =
               match fst (computeItems h (world sys) (self sys)) with
               | Returns items => quickPicks sys ++ [items]
               | Throws => quickPicks sys
               end
               ∧ self sys' = snd (computeItems h (world sys) (self sys))).
  { unfold sys'. simpl.
    destruct (computeItems h (world sys) (self sys)) as [items s1]. auto. }
  destruct Hq as [Hq Hs]. rewrite Hs, Hc, Hq, Hfst.
  destruct (matchCurrentRemote h (self sys)) as [matcher|] eqn:Em.
  - eexists. repeat split; reflexivity.
  - repeat split; try reflexivity.
    intros events Hev. clear sys' Hfst Hc Hq Hs. revert sys Em.
    induction Hev as [|ev events (actions & Hk) _ IH]; intros sys Em;
      [reflexivity |].
    assert (Hstep : matchCurrentRemote h (self (step h sys ev)) = Throws
                    ∧ quickPicks (step h sys ev) = quickPicks sys).
    { destruct Hk as [-> | [-> | ->]]; simpl.
      - pose proof (computeItems_core h (world sys) (self sys)) as Hcore.
        pose proof (computeItems_Throws h (world sys) (self sys)) as Ht.
        destruct (computeItems h (world sys) (self sys)) as [items s1].
        simpl in *. rewrite (matchCurrentRemote_core h _ _ Hcore).
        split; [exact Em |]. rewrite (proj2 Ht Em). reflexivity.
      - destruct (menuDidChange_frame h
                    (World_set_remoteIndicatorMenu actions (world sys)) sys)
          as (Hcore & _).
        rewrite (matchCurrentRemote_core h _ _ Hcore). split; [exact Em |].
        rewrite (proj1 (menu_change_refreshes_quick_picks_aux h _ sys)).
        rewrite (proj2 (computeItems_Throws h _ (self sys)) Em). reflexivity.
      - destruct (menuDidChange_frame h
                    (World_set_legacyIndicatorMenu actions (world sys)) sys)
          as (Hcore & _).
        rewrite (matchCurrentRemote_core h _ _ Hcore). split; [exact Em |].
        rewrite (proj1 (menu_change_refreshes_quick_picks_aux h _ sys)).
        rewrite (proj2 (computeItems_Throws h _ (self sys)) Em). reflexivity. }
    destruct Hstep as [Em' Hq']. simpl. rewrite (IH _ Em'). exact Hq'.
Qed.

(** Extra X14 at a run: the remote name of the authority has an open
    parenthesis, and the menu is asked for twice. *)
Lemma show_menu_opens_a_quick_pick_or_none_witness :
  let sys := construct exampleHost exampleWorld (Some "ssh(") in
  matchCurrentRemote exampleHost (self sys) = Throws
  ∧ quickPicks (run exampleHost sys [command_showRemoteMenu; command_showRemoteMenu])
    = [].
Proof.
  intros sys.
  assert (E : matchCurrentRemote exampleHost (self sys) = Throws) by reflexivity.
  split; [exact E |].
  pose proof (show_menu_opens_a_quick_pick_or_none exampleHost sys) as H.
  cbv zeta in H. rewrite E in H. destruct H as (_ & _ & H).
  apply (H [command_showRemoteMenu; command_showRemoteMenu]).
  repeat constructor; exists []; auto.
Defined.
